(** * ConGPT: the conversation tree store of the Express backend

    A shallow embedding of the backend server: the in-memory forest
    [conversationState], the store operations [createNode], [getNodePath],
    [getRootId], [pruneToRoot], [deleteSubtree], and the handlers of
    [POST /messages] and [DELETE /messages/:id], followed by the properties
    the specification states about them.

    Modelling conventions.
    - [conversationState.nodes] is a JS object used as a dictionary keyed by
      node id: a [gmap string Node] holds its own properties.  Key order is
      not observable here.  It is a plain object ([{}]), so a lookup with a
      string handed in from outside, an argument of a store operation or a
      field of a request, also finds the members it inherits from
      [Object.prototype]: that lookup is [property].  At the ids the store
      holds itself, its keys and root ids and the children, parent ids and
      cached root ids of its nodes, the lookup is the one of the mapping: in
      a forest the store can hold ([built]) none of them names such a
      member, the identifiers being values of [crypto.randomUUID()], and the
      two lookups agree (last section).
    - A call ends by returning or by throwing ([Ending]); a store operation
      gives the way it ends and the store it leaves.
    - JS objects are mutable and shared; the store keeps exactly one object
      per key, so [parent.children.push(id)] is an update of the entry stored
      under the parent's key, and a node returned to a caller is read back
      from the store where the caller may observe a later mutation.
    - [crypto.randomUUID()] and [new Date().toISOString()] are inputs of
      [createNode]: the identifier and the timestamp it draws.
    - JS truthiness of an id-valued expression ([if (parentId)],
      [while (currentId)], [a || b]) is written out: [null]/[undefined]
      and the empty string are falsy.
    - [while] loops run on fuel; [None] stands for a loop that has not
      finished within the fuel.  Each loop comes with a bound that suffices.
    - The completion provider is a function from the request to the way the
      awaited call ends.  A handler runs without interleaving: nothing else
      touches the store while the completion is awaited. *)

From stdpp Require Import base option list gmap strings.

Open Scope string_scope.
Open Scope nat_scope.
Open Scope list_scope.

(** ** Data model *)

Inductive Role := user | assistant.

#[global] Instance Role_eq_dec : EqDecision Role.
Proof. solve_decision. Defined.

Record Node := mkNode {
  id : string;
  role : Role;
  content : string;
  parentId : option string;
  children : list string;
  createdAt : string;
  rootId : option string;
}.

#[global] Instance Node_eq_dec : EqDecision Node.
Proof. solve_decision. Defined.

(** [{ ...node, children: cs }] *)
Definition with_children (node : Node) (cs : list string) : Node :=
  mkNode (id node) (role node) (content node) (parentId node) cs
         (createdAt node) (rootId node).

(** [conversationState] *)
Record Forest := mkForest {
  nodes : gmap string Node;
  rootIds : list string;
}.

Definition emptyForest : Forest := mkForest ∅ [].

(** ** JS truthiness on id-valued expressions *)

(** The string an optional id stands for when it is truthy. *)
Definition truthy (v : option string) : option string :=
  match v with
  | Some s => if decide (s = "") then None else Some s
  | None => None
  end.

(** [a || b], for [b] a string. *)
Definition or_else (a : option string) (b : string) : string :=
  match truthy a with
  | Some s => s
  | None => b
  end.

(** The property key a value is turned into when used as an index:
    [undefined] gives the key "undefined". *)
Definition key (v : option string) : string := default "undefined" v.

(** ** Looking up a string in the plain object *)

(** The names of the members of [Object.prototype]. *)
Definition Object_prototype : list string :=
  ["constructor"; "__defineGetter__"; "__defineSetter__"; "hasOwnProperty";
   "__lookupGetter__"; "__lookupSetter__"; "isPrototypeOf";
   "propertyIsEnumerable"; "toString"; "valueOf"; "__proto__";
   "toLocaleString"].

(** What [conversationState.nodes[k]] is when it is not [undefined]: a node
    of the store, or the member of [Object.prototype] of that name, a truthy
    value all of whose fields the code reads ([id], [role], [content],
    [parentId], [children], [rootId]) are [undefined]. *)
Inductive Property :=
  | own (node : Node)
  | inherited (name : string).

#[global] Instance Property_eq_dec : EqDecision Property.
Proof. solve_decision. Defined.

(** [conversationState.nodes[k]] for a string [k] handed in from outside. *)
Definition property (m : gmap string Node) (k : string) : option Property :=
  match m !! k with
  | Some node => Some (own node)
  | None =>
      if decide (k ∈ Object_prototype) then Some (inherited k) else None
  end.

(** ** How a call ends *)

Inductive Ending (A : Type) : Type :=
  | returned (a : A)
  | thrown (message : string).

Arguments returned {A} a.
Arguments thrown {A} message.

Definition returns {A : Type} (e : Ending A) : Prop :=
  match e with
  | returned _ => True
  | thrown _ => False
  end.

(** The message of the TypeError of reading a member of [undefined]. *)
Definition cannot_read (member : string) : string :=
  "Cannot read properties of undefined (reading '" +:+ member +:+ "')".

(** ** createNode *)

(** Under a parent id that names an inherited member, [parent.rootId ||
    parent.id] is [undefined], the node is stored with it, and
    [parent.children.push(id)] throws, [parent.children] being [undefined].
    The node returned is read back from the store: when the parent is the
    node itself, the push has changed it. *)
Definition createNode (uuid now : string)
    (role : Role) (content : string) (parentId : option string)
    (st : Forest) : Ending Node * Forest :=
  let rootId :=
    match truthy parentId with
    | Some p =>
        match property (nodes st) p with
        | Some (own parent) => Some (or_else (rootId parent) (id parent))
        | Some (inherited _) => None
        | None => Some uuid
        end
    | None => Some uuid
    end in
  let node := mkNode uuid role content parentId [] now rootId in
  let nodes1 := <[uuid := node]> (nodes st) in
  match truthy parentId with
  | Some p =>
      match property nodes1 p with
      | Some (own parent) =>
          let st' :=
            mkForest
              (<[p := with_children parent (children parent ++ [uuid])]> nodes1)
              (rootIds st) in
          (returned (default node (nodes st' !! uuid)), st')
      | Some (inherited _) =>
          (thrown (cannot_read "push"), mkForest nodes1 (rootIds st))
      | None => (returned node, mkForest nodes1 (rootIds st))
      end
  | None => (returned node, mkForest nodes1 (rootIds st ++ [uuid]))
  end.

(** [getRootId]; [None] is [undefined]. *)
Definition getRootId (nodeId : string) (st : Forest) : option string :=
  match property (nodes st) nodeId with
  | None => Some nodeId
  | Some (own node) => Some (or_else (rootId node) (id node))
  | Some (inherited _) => None
  end.

(** An identifier no part of the forest mentions yet: what
    [crypto.randomUUID()] returns. *)
Definition fresh (st : Forest) (u : string) : Prop :=
  u ≠ "" ∧ nodes st !! u = None ∧ (u ∉ rootIds st) ∧
  map_Forall (λ _ n, id n ≠ u ∧ (u ∉ children n) ∧
                     parentId n ≠ Some u ∧ rootId n ≠ Some u) (nodes st).

#[global] Instance fresh_dec st u : Decision (fresh st u).
Proof. unfold fresh. apply _. Defined.

(** Number of occurrences of an id in a sequence of ids. *)
Definition occurrences (x : string) (l : list string) : nat :=
  length (filter (λ y, y = x) l).

(** ** getNodePath *)

(** The [while (currentId)] loop; [path] is in ascent order. *)
Fixpoint ascend (fuel : nat) (m : gmap string Node)
    (currentId : option string) (path : list Node) : option (list Node) :=
  match truthy currentId with
  | None => Some path
  | Some c =>
      match m !! c with
      | None => Some path
      | Some node =>
          match fuel with
          | 0 => None
          | S fuel' => ascend fuel' m (parentId node) (path ++ [node])
          end
      end
  end.

(** [getNodePath]: the first id the loop looks up is its argument; an
    inherited member found there is pushed, and the loop ends, its
    [parentId] being [undefined].  The ids looked up after it are parent ids
    of stored nodes. *)
Definition getNodePath (fuel : nat) (nodeId : string) (st : Forest)
    : option (list Property) :=
  match truthy (Some nodeId) with
  | None => Some []
  | Some c =>
      match property (nodes st) c with
      | Some (inherited name) =>
          match fuel with
          | 0 => None
          | S _ => Some [inherited name]
          end
      | _ => fmap own <$> (reverse <$> ascend fuel (nodes st) (Some c) [])
      end
  end.

(** The nodes the loop collects from an id on, in ascent order: it stops at
    a falsy id or at an id that does not resolve. *)
Inductive ascent (m : gmap string Node) : option string → list Node → Prop :=
  | ascent_at_falsy v : truthy v = None → ascent m v []
  | ascent_at_missing v c : truthy v = Some c → m !! c = None → ascent m v []
  | ascent_through v c node chain :
      truthy v = Some c → m !! c = Some node →
      ascent m (parentId node) chain → ascent m v (node :: chain).

(** A root has no (truthy) parent id. *)
Definition is_root (node : Node) : Prop := truthy (parentId node) = None.

(** An orphan names a parent that the mapping does not hold. *)
Definition is_orphan (m : gmap string Node) (node : Node) : Prop :=
  ∃ p, truthy (parentId node) = Some p ∧ m !! p = None.

(** Every node is stored under its own id. *)
Definition keyed (m : gmap string Node) : Prop :=
  map_Forall (λ k node, id node = k) m.

#[global] Instance keyed_dec m : Decision (keyed m).
Proof. unfold keyed. apply _. Defined.

(** The ascent from an id comes to an end: it meets a falsy id, a missing
    node, or a node from which the ascent ends. *)
Inductive ascent_ends (m : gmap string Node) : option string → Prop :=
  | ascent_falsy v : truthy v = None → ascent_ends m v
  | ascent_missing v c : truthy v = Some c → m !! c = None → ascent_ends m v
  | ascent_step v c node :
      truthy v = Some c → m !! c = Some node →
      ascent_ends m (parentId node) → ascent_ends m v.

(** ** pruneToRoot *)

(** The breadth-first loop.  [retained] is the [Set] in insertion order,
    [queue] the array used as a queue ([shift] takes its head, [push] adds
    at its end).  Fuel is spent only when a node is retained. *)
Fixpoint bfs (m : gmap string Node) (fuel : nat)
    (retained queue : list string) {struct fuel} : option (list string) :=
  (fix scan (queue : list string) : option (list string) :=
     match queue with
     | [] => Some retained
     | currentId :: rest =>
         if bool_decide (currentId ∈ retained) then scan rest
         else
           match m !! currentId with
           | None => scan rest
           | Some node =>
               match fuel with
               | 0 => None
               | S fuel' =>
                   let retained' := retained ++ [currentId] in
                   bfs m fuel' retained'
                       (rest ++ filter (λ childId, childId ∉ retained')
                                       (children node))
               end
           end
     end) queue.

(** [{ ...node, children: node.children.filter(id => retainedIds.has(id)) }] *)
Definition pruned (retained : list string) (node : Node) : Node :=
  with_children node
    (filter (λ childId, childId ∈ retained) (children node)).

(** [retainedIds.forEach(...)] filling [nextNodes]. *)
Definition keep_retained (m : gmap string Node) (retained : list string)
    (nextNodes : gmap string Node) (i : string) : gmap string Node :=
  match m !! i with
  | Some node => <[i := pruned retained node]> nextNodes
  | None => nextNodes
  end.

(** [pruneToRoot].  An id that names an inherited member passes the test
    [if (!root)]; the walk retains it, finding no children, and
    [node.children.filter] throws on it before the store is assigned. *)
Definition pruneToRoot (rootId : string) (st : Forest)
    : option (Ending unit * Forest) :=
  match property (nodes st) rootId with
  | None => Some (returned (), st)
  | Some (inherited _) => Some (thrown (cannot_read "filter"), st)
  | Some (own _) =>
      retainedIds ← bfs (nodes st) (size (nodes st)) [] [rootId];
      Some (returned (),
            mkForest
              (foldl (keep_retained (nodes st) retainedIds) ∅ retainedIds)
              [rootId])
  end.

(** [x] is reachable from [r] via [children] links through nodes of [m]. *)
Inductive reach (m : gmap string Node) (r : string) : string → Prop :=
  | reach_refl : is_Some (m !! r) → reach m r r
  | reach_child x node c :
      reach m r x → m !! x = Some node → c ∈ children node →
      is_Some (m !! c) → reach m r c.

(** [x] is reachable from one of the ids of [l]. *)
Definition reach_from (m : gmap string Node) (l : list string) (x : string)
    : Prop :=
  ∃ s, s ∈ l ∧ reach m s x.

(** Each child of a node of [retained] that resolves is in [retained] or
    waits in [queue]. *)
Definition closed_upto (m : gmap string Node) (retained queue : list string)
    : Prop :=
  ∀ x node c, x ∈ retained → m !! x = Some node → c ∈ children node →
              is_Some (m !! c) → c ∈ retained ∨ c ∈ queue.

(** ** deleteSubtree *)

(** The loop over [toDelete], an array used as a stack whose top is the
    head of the list.  Fuel is spent only when a node is deleted. *)
Fixpoint sweep (fuel : nat) (m : gmap string Node)
    (toDelete : list string) {struct fuel} : option (gmap string Node) :=
  (fix skip (toDelete : list string) : option (gmap string Node) :=
     match toDelete with
     | [] => Some m
     | currentId :: rest =>
         match m !! currentId with
         | None => skip rest
         | Some node =>
             match fuel with
             | 0 => None
             | S fuel' =>
                 sweep fuel' (delete currentId m)
                       (reverse (children node) ++ rest)
             end
         end
     end) toDelete.

Definition deleteSubtree (nodeId : string) (st : Forest) : option Forest :=
  m ← sweep (size (nodes st)) (nodes st) [nodeId];
  Some (mkForest m (rootIds st)).

(** ** POST /messages *)

(** A message of the completion request. *)
Inductive MessageRole := system_role | node_role (r : Role).
Inductive Message :=
  | mkMessage (msg_role : MessageRole) (msg_content : string)
  | empty_message.

(** [{ role: node.role, content: node.content }]: of an inherited member
    both fields are [undefined]. *)
Definition message_of (entry : Property) : Message :=
  match entry with
  | own node => mkMessage (node_role (role node)) (content node)
  | inherited _ => empty_message
  end.

(** How [await openai.chat.completions.create(...)] ends: the promise
    rejects, or it resolves and [completion.choices?.[0]?.message?.content]
    is a string or is undefined. *)
Inductive Completion :=
  | Rejects (message : string)
  | Resolves (text : option string).

(** The request body: [content] is [Some s] when it is the string [s] and
    [None] when it is absent or not a string. *)
Record PostBody := mkPostBody {
  body_content : option string;
  body_parentId : option string;
}.

Inductive Response :=
  | Json (userNode assistantNode : Node) (state : Forest)
  | State (state : Forest)
  | Error (status : nat) (error : string) (details : option string).

(** What one run of the handler draws from its environment. *)
Record PostEnv := mkPostEnv {
  user_uuid : string;
  user_now : string;
  assistant_uuid : string;
  assistant_now : string;
  provider : list Message → Completion;
}.

(** The outcome of a run: the response, the store afterwards, and the
    completion requests issued, in order. *)
Record Outcome := mkOutcome {
  response : Response;
  final : Forest;
  requests : list (list Message);
}.

Definition system_prompt : string :=
  "You are a helpful assistant inside a threaded conversation. Respond to the latest user message. Only use the conversation path provided; do not assume context from sibling branches.".

Definition fallback_text : string :=
  "I'm sorry, I was unable to generate a response.".

(** The handler from the completion request on, once the user node is
    stored: the part of [post_messages] after its first [createNode]. *)
Definition exchange (fuel : nat) (env : PostEnv) (userNode : Node)
    (st1 : Forest) : option Outcome :=
  contextPath ← getNodePath fuel (id userNode) st1;
  let messages :=
    mkMessage system_role system_prompt :: map message_of contextPath in
  match provider env messages with
  | Rejects message =>
      Some (mkOutcome
        (Error 500 "Failed to process message." (Some message))
        st1 [messages])
  | Resolves reply =>
      let assistantContent := or_else reply fallback_text in
      match createNode (assistant_uuid env) (assistant_now env)
                       assistant assistantContent (Some (id userNode)) st1 with
      | (thrown message, st2) =>
          Some (mkOutcome
            (Error 500 "Failed to process message." (Some message))
            st2 [messages])
      | (returned assistantNode, st2) =>
          let activeRootId := getRootId (id userNode) st2 in
          '(ending, st3) ← pruneToRoot (key activeRootId) st2;
          match ending with
          | thrown message =>
              Some (mkOutcome
                (Error 500 "Failed to process message." (Some message))
                st3 [messages])
          | returned _ =>
              Some (mkOutcome
                (Json (default userNode (nodes st2 !! id userNode))
                      assistantNode st3)
                st3 [messages])
          end
      end
  end.

(** The handler: its checks, the first [createNode], and the rest under
    [try]; an exception is answered with 500 and its message. *)
Definition post_messages (fuel : nat) (env : PostEnv) (body : PostBody)
    (st : Forest) : option Outcome :=
  match body_content body with
  | None =>
      Some (mkOutcome
        (Error 400 "Message content is required and must be a string." None)
        st [])
  | Some text =>
    if decide (text = "") then
      Some (mkOutcome
        (Error 400 "Message content is required and must be a string." None)
        st [])
    else
      let parentId := body_parentId body in
      let rejected :=
        match truthy parentId with
        | Some p =>
            match property (nodes st) p with
            | None => Some (Error 404 "Parent message not found." None)
            | Some (own parentNode) =>
                if decide (role parentNode = assistant) then None
                else Some (Error 400
                  "User messages must reply to an assistant message." None)
            | Some (inherited _) =>
                Some (Error 400
                  "User messages must reply to an assistant message." None)
            end
        | None => None
        end in
      match rejected with
      | Some err => Some (mkOutcome err st [])
      | None =>
          match createNode (user_uuid env) (user_now env) user text parentId
                           st with
          | (thrown message, st1) =>
              Some (mkOutcome
                (Error 500 "Failed to process message." (Some message))
                st1 [])
          | (returned userNode, st1) => exchange fuel env userNode st1
          end
      end
  end.

(** The completion request built from a context path. *)
Definition request_of (contextPath : list Node) : list Message :=
  mkMessage system_role system_prompt ::
  map (λ node, mkMessage (node_role (role node)) (content node)) contextPath.

(** A parent id that passes the handler's checks: it is falsy, or it
    resolves to an assistant node. *)
Definition accepted_parent (st : Forest) (pid : option string) : Prop :=
  match truthy pid with
  | None => True
  | Some p =>
      ∃ parentNode,
        nodes st !! p = Some parentNode ∧ role parentNode = assistant
  end.

(** ** DELETE /messages/:id *)

(** [parentNode.children = parentNode.children.filter(c => c !== id)] *)
Definition detachChild (childId parentId : string) (st : Forest) : Forest :=
  match nodes st !! parentId with
  | Some parentNode =>
      mkForest
        (<[parentId :=
             with_children parentNode
               (filter (λ c, c ≠ childId) (children parentNode))]> (nodes st))
        (rootIds st)
  | None => st
  end.

(** The handler; of an inherited member found under the id, [parentId] is
    [undefined].  An exception is answered with 500 and its message. *)
Definition delete_messages (targetId : string) (st : Forest)
    : option (Response * Forest) :=
  match property (nodes st) targetId with
  | None => Some (Error 404 "Message not found." None, st)
  | Some (inherited _) =>
      Some (Error 400 "Root messages cannot be deleted." None, st)
  | Some (own targetNode) =>
      match truthy (parentId targetNode) with
      | None => Some (Error 400 "Root messages cannot be deleted." None, st)
      | Some pid =>
          let st1 := detachChild targetId pid st in
          let rootId :=
            match truthy (rootId targetNode) with
            | Some r => Some r
            | None => getRootId pid st1
            end in
          st2 ← deleteSubtree targetId st1;
          '(ending, st3) ← pruneToRoot (key rootId) st2;
          match ending with
          | thrown message =>
              Some (Error 500 "Failed to delete message." (Some message), st3)
          | returned _ => Some (State st3, st3)
          end
      end
  end.

(** ** Forests the store can hold *)

(** The forests reached from the empty one by the mutations of the source:
    the store operations, in any order, [createNode] drawing an identifier
    that is not in use, a UUID, which names no member of [Object.prototype],
    and returning, and the DELETE handler. *)
Inductive built : Forest → Prop :=
  | built_empty : built emptyForest
  | built_createNode st uuid now r c pid :
      built st → fresh st uuid → (uuid ∉ Object_prototype) →
      pid ≠ Some uuid → returns (createNode uuid now r c pid st).1 →
      built (createNode uuid now r c pid st).2
  | built_pruneToRoot st r ending st' :
      built st → pruneToRoot r st = Some (ending, st') → built st'
  | built_deleteSubtree st n st' :
      built st → deleteSubtree n st = Some st' → built st'
  | built_delete_messages st targetId res st' :
      built st → delete_messages targetId st = Some (res, st') → built st'.

(** [y] is the parent [x] names. *)
Definition parent_of (m : gmap string Node) (x y : string) : Prop :=
  ∃ node, m !! x = Some node ∧ truthy (parentId node) = Some y.

(** A child that resolves names as its parent the node that lists it. *)
Definition linked (m : gmap string Node) : Prop :=
  ∀ k node c child,
    m !! k = Some node → c ∈ children node → m !! c = Some child →
    parentId child = Some k.

(** [m'] holds some of the nodes of [m], with some of their children. *)
Definition restricts (m m' : gmap string Node) : Prop :=
  ∀ k node', m' !! k = Some node' →
    ∃ node, m !! k = Some node ∧ id node' = id node ∧
            parentId node' = parentId node ∧ rootId node' = rootId node ∧
            ∀ c, c ∈ children node' → c ∈ children node.

(** A node has a root id cached, which is not empty; the node it names, if
    the mapping holds it, leads down to the node, and if the mapping does
    not hold it, it names no member of [Object.prototype]. *)
Definition rooted (m : gmap string Node) : Prop :=
  ∀ k node, m !! k = Some node →
    ∃ r, rootId node = Some r ∧ r ≠ "" ∧
         (m !! r = None → r ∉ Object_prototype) ∧
         (m !! r = None ∨ reach m r k).

(** No node is stored under the name of a member of [Object.prototype]. *)
Definition proper_keys (m : gmap string Node) : Prop :=
  ∀ k, is_Some (m !! k) → k ∉ Object_prototype.

(** No children list, parent id or root id names a member of
    [Object.prototype]. *)
Definition proper_links (st : Forest) : Prop :=
  (∀ k node, nodes st !! k = Some node →
     (∀ c, c ∈ children node → c ∉ Object_prototype) ∧
     (∀ p, truthy (parentId node) = Some p → p ∉ Object_prototype)) ∧
  (∀ r, r ∈ rootIds st → r ∉ Object_prototype).

(** The ids a forest holds: its keys and root ids, and the children, the
    parent id and the cached root id of its nodes. *)
Definition held (st : Forest) (x : string) : Prop :=
  is_Some (nodes st !! x) ∨ x ∈ rootIds st ∨
  ∃ k node, nodes st !! k = Some node ∧
    (x ∈ children node ∨ parentId node = Some x ∨ rootId node = Some x).

(** What every such forest satisfies: nodes are stored under their own ids,
    which are not empty, and every ascent comes to an end. *)
Definition well_formed (st : Forest) : Prop :=
  keyed (nodes st) ∧ nodes st !! "" = None ∧
  ∀ v, ascent_ends (nodes st) v.

(** The root id cached in a node is its own id when it names no parent,
    and the one cached in its parent when the mapping holds the parent. *)
Definition root_cached (m : gmap string Node) : Prop :=
  ∀ k node, m !! k = Some node →
    match truthy (parentId node) with
    | None => rootId node = Some k
    | Some p => ∀ parent, m !! p = Some parent → rootId node = rootId parent
    end.

(** A node whose parent is stored is among the children of the parent. *)
Definition listed (m : gmap string Node) : Prop :=
  ∀ k node p parent,
    m !! k = Some node → truthy (parentId node) = Some p →
    m !! p = Some parent → k ∈ children parent.

(** A stored node without a parent id is among the root ids. *)
Definition roots_listed (st : Forest) : Prop :=
  ∀ k node, nodes st !! k = Some node → is_root node → k ∈ rootIds st.

(** No id occurs twice in a children list or in the root-id sequence. *)
Definition no_repeats (st : Forest) : Prop :=
  NoDup (rootIds st) ∧
  ∀ k node, nodes st !! k = Some node → NoDup (children node).

(** [m'] holds some of the nodes of [m]; a children list of [m'] is the one
    of [m] without some ids, none of which [m'] holds. *)
Definition trims (m m' : gmap string Node) : Prop :=
  ∀ k node', m' !! k = Some node' →
    ∃ node, m !! k = Some node ∧ parentId node' = parentId node ∧
            children node' `sublist_of` children node ∧
            ∀ c, c ∈ children node → is_Some (m' !! c) → c ∈ children node'.

(** A node without its children list: what a context path says of it. *)
Definition bare (node : Node) : Node := with_children node [].

(** The stored nodes of a path. *)
Definition path_nodes (path : list Property) : list Node :=
  omap (λ entry, match entry with
                 | own node => Some node
                 | inherited _ => None
                 end) path.

(** [m'] holds some of the nodes of [m], as they were but for their
    children lists. *)
Definition thins (m m' : gmap string Node) : Prop :=
  ∀ k node', m' !! k = Some node' →
    ∃ node, m !! k = Some node ∧ bare node' = bare node.

(** The three ways the source removes nodes. *)
Inductive removal (st st' : Forest) : Prop :=
  | removal_pruneToRoot r ending :
      pruneToRoot r st = Some (ending, st') → removal st st'
  | removal_deleteSubtree n : deleteSubtree n st = Some st' → removal st st'
  | removal_delete_messages targetId res :
      delete_messages targetId st = Some (res, st') → removal st st'.

(** ** The client's view of the state *)

(** [ids.map((id) => nodes[id]).filter(Boolean)] *)
Definition resolved (m : gmap string Node) (ids : list string) : list Node :=
  omap (λ i, m !! i) ids.

(** What [getCurrentView] returns. *)
Record View := mkView {
  view_parent : option Node;
  view_children : list Node;
}.

(** [getCurrentView], on the state the server sent and the focused post. *)
Definition getCurrentView (focusedPost : option string) (state : Forest)
    : View :=
  match truthy focusedPost with
  | None => mkView None (resolved (nodes state) (rootIds state))
  | Some f =>
      match nodes state !! f with
      | None => mkView None []
      | Some parent =>
          mkView (Some parent) (resolved (nodes state) (children parent))
      end
  end.

(** [PostCard]: the number of replies shown on a card. *)
Definition replyCount (node : Node) (m : gmap string Node) : nat :=
  length (resolved m (children node)).

(** [handleExpandPost] and [handleGoToParent]: the next focused post. *)
Definition handleExpandPost (nodeId : string) : option string := Some nodeId.
Definition handleGoToParent (parentId : option string) : option string :=
  parentId.

(** * Properties *)

Lemma occurrences_app x l1 l2 :
  occurrences x (l1 ++ l2) = occurrences x l1 + occurrences x l2.
Proof. unfold occurrences. by rewrite filter_app, length_app. Qed.

Lemma occurrences_absent x l : x ∉ l → occurrences x l = 0.
Proof.
  unfold occurrences. induction l as [|y l IH]; intros Hx; [done|].
  apply not_elem_of_cons in Hx as [Hne Hl].
  rewrite filter_cons_False by congruence. auto.
Qed.

Lemma occurrences_singleton x : occurrences x [x] = 1.
Proof. unfold occurrences. by rewrite filter_cons_True. Qed.

Lemma truthy_Some v p : truthy v = Some p → v = Some p ∧ p ≠ "".
Proof.
  destruct v as [s|]; simpl; [|done].
  destruct (decide (s = "")); naive_solver.
Qed.

Lemma truthy_intro p : p ≠ "" → truthy (Some p) = Some p.
Proof. intros. simpl. by rewrite decide_False. Qed.

Lemma or_else_truthy a b : a ≠ "" → or_else (Some a) b = a.
Proof. intros. unfold or_else. by rewrite truthy_intro. Qed.

(** Closed decidable facts are settled by evaluation. *)
Ltac by_evaluation := apply (bool_decide_unpack _); vm_compute; reflexivity.

(** One more node on a forest the store can hold, at concrete ids. *)
Ltac created :=
  apply built_createNode;
  [|by_evaluation|by_evaluation|done|by vm_compute].

Lemma property_own m k node :
  m !! k = Some node → property m k = Some (own node).
Proof. intros H. unfold property. by rewrite H. Qed.

Lemma property_inherited m k :
  m !! k = None → k ∈ Object_prototype →
  property m k = Some (inherited k).
Proof. intros H Hk. unfold property. by rewrite H, decide_True. Qed.

Lemma property_missing m k :
  m !! k = None → k ∉ Object_prototype → property m k = None.
Proof. intros H Hk. unfold property. by rewrite H, decide_False. Qed.

Lemma property_None m k :
  property m k = None ↔ m !! k = None ∧ k ∉ Object_prototype.
Proof.
  unfold property. destruct (m !! k).
  { split; [done|]. by intros [? _]. }
  destruct (decide (k ∈ Object_prototype)); [|done].
  split; [done|]. by intros [_ ?].
Qed.

Lemma property_Some_own m k node :
  property m k = Some (own node) ↔ m !! k = Some node.
Proof.
  unfold property. destruct (m !! k).
  { split; congruence. }
  by destruct (decide (k ∈ Object_prototype)).
Qed.

Lemma property_Some_inherited m k name :
  property m k = Some (inherited name) ↔
  m !! k = None ∧ k ∈ Object_prototype ∧ name = k.
Proof.
  unfold property. destruct (m !! k).
  { split; [done|]. by intros [? _]. }
  destruct (decide (k ∈ Object_prototype)).
  - split; [by intros [= <-]|]. by intros (_ & _ & ->).
  - split; [done|]. by intros (_ & ? & _).
Qed.

Lemma empty_not_inherited : "" ∉ Object_prototype.
Proof. by_evaluation. Qed.

Lemma fresh_truthy st u : fresh st u → u ≠ "".
Proof. by intros (? & _). Qed.

Lemma fresh_nodes st u : fresh st u → nodes st !! u = None.
Proof. by intros (_ & ? & _). Qed.

Lemma fresh_roots st u : fresh st u → u ∉ rootIds st.
Proof. by intros (_ & _ & ? & _). Qed.

Lemma fresh_id st u k n : fresh st u → nodes st !! k = Some n → id n ≠ u.
Proof. intros (_ & _ & _ & H) Hk. by destruct (H k n Hk) as (? & ? & ? & ?). Qed.

Lemma fresh_children st u k n :
  fresh st u → nodes st !! k = Some n → u ∉ children n.
Proof. intros (_ & _ & _ & H) Hk. by destruct (H k n Hk) as (? & ? & ? & ?). Qed.

Lemma fresh_parent st u k n :
  fresh st u → nodes st !! k = Some n → parentId n ≠ Some u.
Proof. intros (_ & _ & _ & H) Hk. by destruct (H k n Hk) as (? & ? & ? & ?). Qed.

Lemma fresh_rootId st u k n :
  fresh st u → nodes st !! k = Some n → rootId n ≠ Some u.
Proof. intros (_ & _ & _ & H) Hk. by destruct (H k n Hk) as (? & ? & ? & ?). Qed.

(** ** createNode *)

Section createNode_facts.
Context (uuid now : string) (r : Role) (c : string).

(** Without a (truthy) parent id the node becomes a new root. *)
Lemma createNode_rootless st pid :
  truthy pid = None →
  let node := mkNode uuid r c pid [] now (Some uuid) in
  createNode uuid now r c pid st =
    (returned node,
     mkForest (<[uuid := node]> (nodes st)) (rootIds st ++ [uuid])).
Proof. intros Hp. unfold createNode. by rewrite Hp. Qed.

(** With a parent that exists the node is attached to it. *)
Lemma createNode_attached st pid p parent :
  truthy pid = Some p → nodes st !! p = Some parent → p ≠ uuid →
  let node :=
    mkNode uuid r c pid [] now
           (Some (or_else (rootId parent) (id parent))) in
  createNode uuid now r c pid st =
    (returned node,
     mkForest (<[p := with_children parent (children parent ++ [uuid])]>
                 (<[uuid := node]> (nodes st)))
              (rootIds st)).
Proof.
  intros Hp Hparent Hne. unfold createNode. rewrite Hp.
  rewrite (property_own _ _ _ Hparent).
  rewrite (property_own _ _ parent) by (by rewrite lookup_insert_ne).
  simpl. rewrite lookup_insert_ne by done. by rewrite lookup_insert_eq.
Qed.

(** With a parent id under which the lookup finds nothing the node is only
    stored. *)
Lemma createNode_dangling st pid p :
  truthy pid = Some p → nodes st !! p = None → p ≠ uuid →
  (p ∉ Object_prototype) →
  let node := mkNode uuid r c pid [] now (Some uuid) in
  createNode uuid now r c pid st =
    (returned node, mkForest (<[uuid := node]> (nodes st)) (rootIds st)).
Proof.
  intros Hp Hparent Hne Hout. unfold createNode. rewrite Hp.
  rewrite (property_missing _ _ Hparent Hout).
  by rewrite property_missing by (by rewrite ?lookup_insert_ne).
Qed.

(** With a parent id that is not stored and names an inherited member the
    node is stored without a root id, and the call throws. *)
Lemma createNode_inherited st pid p :
  truthy pid = Some p → nodes st !! p = None → p ≠ uuid →
  p ∈ Object_prototype →
  let node := mkNode uuid r c pid [] now None in
  createNode uuid now r c pid st =
    (thrown (cannot_read "push"),
     mkForest (<[uuid := node]> (nodes st)) (rootIds st)).
Proof.
  intros Hp Hparent Hne Hin. unfold createNode. rewrite Hp.
  rewrite (property_inherited _ _ Hparent Hin).
  by rewrite property_inherited by (by rewrite ?lookup_insert_ne).
Qed.

(** The node a call returns is stored under its id. *)
Lemma createNode_stored st pid node :
  (createNode uuid now r c pid st).1 = returned node →
  nodes (createNode uuid now r c pid st).2 !! uuid = Some node.
Proof.
  unfold createNode.
  destruct (truthy pid) as [p|]; simpl.
  - destruct (property (<[uuid:=_]> (nodes st)) p) as [[parent|name]|]
      eqn:Hp; simpl; [| |].
    + intros [= <-]. destruct (decide (p = uuid)) as [->|Hne].
      * by rewrite !lookup_insert_eq.
      * rewrite lookup_insert_ne by done. by rewrite !lookup_insert_eq.
    + done.
    + intros [= <-]. by rewrite lookup_insert_eq.
  - intros [= <-]. by rewrite lookup_insert_eq.
Qed.

(** A call that does not return was given a parent id that is not stored
    and names an inherited member. *)
Lemma createNode_returns st pid :
  pid ≠ Some uuid →
  returns (createNode uuid now r c pid st).1 ↔
  ∀ p, truthy pid = Some p → nodes st !! p = None → p ∉ Object_prototype.
Proof.
  intros Hpid. destruct (truthy pid) as [p|] eqn:Hp; last first.
  { rewrite createNode_rootless by done. done. }
  assert (p ≠ uuid) as Hne.
  { apply truthy_Some in Hp as [-> _]. congruence. }
  destruct (nodes st !! p) as [parent|] eqn:Hparent.
  - rewrite (createNode_attached _ _ _ _ Hp Hparent Hne). simpl.
    split; [|done]. intros _ ? [= <-]. congruence.
  - destruct (decide (p ∈ Object_prototype)) as [Hin|Hout].
    + rewrite (createNode_inherited _ _ _ Hp Hparent Hne Hin). simpl.
      split; [done|]. intros H. by apply (H p).
    + rewrite (createNode_dangling _ _ _ Hp Hparent Hne Hout). simpl.
      split; [|done]. by intros _ ? [= <-].
Qed.
End createNode_facts.

(** C2: a node created under an existing parent takes the parent's root id
    when the parent has one, and the parent's own id when the parent's root
    id is unset; its id occurs exactly once in that parent's children, where
    it is appended, and the root-id sequence is unchanged. *)
Theorem createNode_with_existing_parent st uuid now r c pid p parent :
  fresh st uuid → truthy pid = Some p → nodes st !! p = Some parent →
  let st' := (createNode uuid now r c pid st).2 in
  ∃ node,
    (createNode uuid now r c pid st).1 = returned node ∧
    id node = uuid ∧ parentId node = pid ∧
    (∀ root, rootId parent = Some root → root ≠ "" →
       rootId node = Some root) ∧
    (rootId parent = None ∨ rootId parent = Some "" →
       rootId node = Some (id parent)) ∧
    nodes st' !! uuid = Some node ∧
    (∃ parent', nodes st' !! p = Some parent' ∧
                children parent' = children parent ++ [uuid] ∧
                occurrences uuid (children parent') = 1) ∧
    rootIds st' = rootIds st.
Proof.
  intros Hfresh Hp Hparent.
  assert (p ≠ uuid) as Hne.
  { intros ->. pose proof (fresh_nodes _ _ Hfresh). congruence. }
  intros st'. subst st'.
  rewrite (createNode_attached _ _ _ _ _ _ _ _ Hp Hparent Hne). simpl.
  eexists. split; [done|]. simpl. repeat split; try done.
  - intros root -> Hroot. by rewrite or_else_truthy.
  - by intros [->| ->].
  - rewrite lookup_insert_ne by done. by rewrite lookup_insert_eq.
  - eexists. rewrite lookup_insert_eq. split; [done|]. simpl. split; [done|].
    rewrite occurrences_app, occurrences_singleton.
    rewrite occurrences_absent; [done|].
    by eapply fresh_children.
Qed.

Lemma createNode_with_existing_parent_witness :
  let outcome uuid now r c pid parent st :=
    let st' := (createNode uuid now r c (Some pid) st).2 in
    ∃ node,
      (createNode uuid now r c (Some pid) st).1 = returned node ∧
      id node = uuid ∧ parentId node = Some pid ∧
      (∀ root, rootId parent = Some root → root ≠ "" →
         rootId node = Some root) ∧
      (rootId parent = None ∨ rootId parent = Some "" →
         rootId node = Some (id parent)) ∧
      nodes st' !! uuid = Some node ∧
      (∃ parent', nodes st' !! pid = Some parent' ∧
                  children parent' = children parent ++ [uuid] ∧
                  occurrences uuid (children parent') = 1) ∧
      rootIds st' = rootIds st in
  let st0 := (createNode "a" "t0" user "Hello" None emptyForest).2 in
  let st1 := (createNode "b" "t1" assistant "Hi" (Some "a") st0).2 in
  let rootless :=
    (createNode "a" "t0" user "Hello" (Some "constructor") emptyForest).2 in
  outcome "c" "t2" user "More" "b"
    (mkNode "b" assistant "Hi" (Some "a") [] "t1" (Some "a")) st1 ∧
  outcome "b" "t1" assistant "Hi" "a"
    (mkNode "a" user "Hello" (Some "constructor") [] "t0" None) rootless.
Proof.
  intros outcome st0 st1 rootless. split.
  - apply (createNode_with_existing_parent st1 "c" "t2" user "More" (Some "b")
             "b" (mkNode "b" assistant "Hi" (Some "a") [] "t1" (Some "a"))).
    + by_evaluation.
    + reflexivity.
    + by vm_compute.
  - apply (createNode_with_existing_parent rootless "b" "t1" assistant "Hi"
             (Some "a") "a"
             (mkNode "a" user "Hello" (Some "constructor") [] "t0" None)).
    + by_evaluation.
    + reflexivity.
    + by vm_compute.
Defined.

(** C3: a node created without a parent id is its own root, and its id
    occurs exactly once in the root-id sequence, at the end. *)
Theorem createNode_without_parent st uuid now r c pid :
  fresh st uuid → truthy pid = None →
  let st' := (createNode uuid now r c pid st).2 in
  ∃ node,
    (createNode uuid now r c pid st).1 = returned node ∧
    id node = uuid ∧ rootId node = Some (id node) ∧
    nodes st' !! uuid = Some node ∧
    rootIds st' = rootIds st ++ [uuid] ∧
    occurrences uuid (rootIds st') = 1.
Proof.
  intros Hfresh Hp st'. subst st'.
  rewrite createNode_rootless by done. simpl.
  eexists. split; [done|]. simpl. repeat split; try done.
  - by rewrite lookup_insert_eq.
  - rewrite occurrences_app, occurrences_singleton.
    rewrite occurrences_absent; [done|]. by eapply fresh_roots.
Qed.

Lemma createNode_without_parent_witness :
  let st := (createNode "a" "t0" user "Hello" None emptyForest).2 in
  let st' := (createNode "c" "t2" user "Topic B" None st).2 in
  ∃ node,
    (createNode "c" "t2" user "Topic B" None st).1 = returned node ∧
    id node = "c" ∧ rootId node = Some (id node) ∧
    nodes st' !! "c" = Some node ∧
    rootIds st' = rootIds st ++ ["c"] ∧
    occurrences "c" (rootIds st') = 1.
Proof.
  intros st.
  apply (createNode_without_parent st "c" "t2" user "Topic B" None).
  - by_evaluation.
  - reflexivity.
Defined.

(** ** getNodePath *)

Lemma ascend_ascent m v chain :
  ascent m v chain →
  ∀ fuel path, length chain ≤ fuel →
    ascend fuel m v path = Some (path ++ chain).
Proof.
  induction 1 as [v Hv|v c Hv Hc|v c node chain Hv Hc _ IH];
    intros fuel path Hfuel.
  - destruct fuel; simpl; rewrite Hv; by rewrite app_nil_r.
  - destruct fuel; simpl; rewrite Hv, Hc; by rewrite app_nil_r.
  - destruct fuel as [|fuel]; simpl in *; [lia|].
    rewrite Hv, Hc, IH by lia. by rewrite <- app_assoc.
Qed.

Lemma ascent_ends_ascent m v : ascent_ends m v → ∃ chain, ascent m v chain.
Proof.
  induction 1 as [v Hv|v c Hv Hc|v c node Hv Hc _ [chain IH]].
  - exists []. by constructor.
  - exists []. by econstructor.
  - exists (node :: chain). by econstructor.
Qed.

Lemma ascent_stored m v chain a :
  ascent m v chain → a ∈ chain → ∃ k, m !! k = Some a.
Proof.
  induction 1 as [| |v c node chain Hv Hc _ IH]; intros Ha.
  - by apply elem_of_nil in Ha.
  - by apply elem_of_nil in Ha.
  - apply elem_of_cons in Ha as [->|Ha]; eauto.
Qed.

(** More fuel does not change what the loop returns. *)
Lemma ascend_more_fuel m fuel : ∀ v path result,
  ascend fuel m v path = Some result →
  ascend (S fuel) m v path = Some result.
Proof.
  induction fuel as [|fuel IH]; intros v path result.
  - simpl. destruct (truthy v) as [c|]; [|done]. by destruct (m !! c).
  - intros H. simpl in H. simpl.
    destruct (truthy v) as [c|]; [|done].
    destruct (m !! c) as [node|]; [|done]. by apply IH.
Qed.

(** In ascent order each node is followed by the node its parent id names. *)
Lemma ascent_adjacent m v chain i child parent :
  keyed m → ascent m v chain →
  chain !! i = Some child → chain !! S i = Some parent →
  parentId child = Some (id parent).
Proof.
  intros Hkeyed Hasc. revert i.
  induction Hasc as [| |v c node chain Hv Hc Hasc IH]; intros i Hi HSi;
    [done|done|].
  destruct i as [|i]; simpl in *; [|by eapply IH].
  injection Hi as ->.
  inversion Hasc as [| |v' c' node' chain' Hv' Hc' Hasc' Hv0 Hchain];
    subst; [done|done|].
  simpl in HSi. injection HSi as ->.
  apply truthy_Some in Hv' as [-> _]. by rewrite (Hkeyed _ _ Hc').
Qed.

(** The last node of the ascent has no parent to go to. *)
Lemma ascent_top m v chain top :
  ascent m v chain → last chain = Some top → is_root top ∨ is_orphan m top.
Proof.
  induction 1 as [| |v c node chain Hv Hc Hasc IH]; intros Hlast;
    [done|done|].
  destruct chain as [|next chain].
  - simpl in Hlast. injection Hlast as ->.
    inversion Hasc as [v' Hv'|v' c' Hv' Hc'|]; subst.
    + by left.
    + right. by exists c'.
  - apply IH. by rewrite last_cons_cons in Hlast.
Qed.

(** Consecutive nodes of the reversed list are consecutive, the other way
    round, in the list. *)
Lemma reverse_consecutive {A} (l : list A) i a b :
  reverse l !! i = Some a → reverse l !! S i = Some b →
  ∃ j, l !! j = Some b ∧ l !! S j = Some a.
Proof.
  intros Ha Hb.
  pose proof (lookup_lt_Some _ _ _ Hb) as Hlt. rewrite length_reverse in Hlt.
  rewrite reverse_lookup in Ha by lia. rewrite reverse_lookup in Hb by lia.
  exists (length l - S (S i)). split; [done|].
  by replace (S (length l - S (S i))) with (length l - S i) by lia.
Qed.

(** What [getNodePath] returns once the ascent ends: the path from a root,
    or from an orphan, down to the node. *)
Lemma getNodePath_ascent st nodeId chain :
  (nodes st !! nodeId = None → nodeId ∉ Object_prototype) →
  ascent (nodes st) (Some nodeId) chain →
  ∀ fuel, length chain ≤ fuel →
    getNodePath fuel nodeId st = Some (own <$> reverse chain).
Proof.
  intros Hout Hasc fuel Hfuel. unfold getNodePath.
  destruct (truthy (Some nodeId)) as [c|] eqn:Hc.
  - apply truthy_Some in Hc as [[= <-] _].
    assert (fmap own <$> (reverse <$> ascend fuel (nodes st) (Some nodeId) [])
            = Some (own <$> reverse chain)) as Hrun
      by (by rewrite (ascend_ascent _ _ _ Hasc fuel [])).
    destruct (property (nodes st) nodeId) as [[node|name]|] eqn:Hp; [done| |done].
    apply property_Some_inherited in Hp as (Hnone & Hin & _).
    by destruct (Hout Hnone).
  - inversion Hasc; [done|congruence|congruence].
Qed.

(** At an id that is not stored and names an inherited member the loop
    pushes the member and ends. *)
Lemma getNodePath_inherited st nodeId fuel :
  nodes st !! nodeId = None → nodeId ∈ Object_prototype →
  getNodePath (S fuel) nodeId st = Some [inherited nodeId].
Proof.
  intros Hnone Hin. unfold getNodePath.
  assert (nodeId ≠ "") as Hne.
  { intros ->. by apply empty_not_inherited. }
  by rewrite (truthy_intro _ Hne), (property_inherited _ _ Hnone Hin).
Qed.

(** ** Reachability via children links *)

Lemma reach_source m r x : reach m r x → is_Some (m !! r).
Proof. by induction 1. Qed.

Lemma reach_target m r x : reach m r x → is_Some (m !! x).
Proof. by destruct 1. Qed.

Lemma reach_trans m r x y : reach m r x → reach m x y → reach m r y.
Proof.
  intros Hrx Hxy.
  induction Hxy as [|y node c _ IH Hy Hc Hsome]; [done|].
  by eapply reach_child.
Qed.

Lemma reach_missing m r x : m !! r = None → ¬ reach m r x.
Proof. intros Hr [n Hn]%reach_source. congruence. Qed.

(** Reachability only looks at the children lists of the nodes. *)
Lemma reach_mono m1 m2 r x :
  (∀ k n1, m1 !! k = Some n1 →
     ∃ n2, m2 !! k = Some n2 ∧ ∀ c, c ∈ children n1 → is_Some (m1 !! c) →
                                      c ∈ children n2) →
  reach m1 r x → reach m2 r x.
Proof.
  intros Hsub.
  assert (∀ k, is_Some (m1 !! k) → is_Some (m2 !! k)) as Hdom.
  { intros k [n1 Hk]. destruct (Hsub _ _ Hk) as (n2 & -> & _). eauto. }
  induction 1 as [Hr|y node c _ IH Hy Hc Hsome].
  - apply reach_refl. auto.
  - destruct (Hsub _ _ Hy) as (n2 & Hy2 & Hch).
    eapply reach_child; eauto.
Qed.

Lemma reach_delete m c r x : reach (delete c m) r x → reach m r x.
Proof.
  apply reach_mono. intros k n1 [_ Hk]%lookup_delete_Some. eauto.
Qed.

(** A path either ends at the deleted node, or avoids it, or leaves it
    through one of its children. *)
Lemma reach_split m c node r x :
  m !! c = Some node → reach m r x →
  x = c ∨ reach (delete c m) r x ∨
  ∃ ch, ch ∈ children node ∧ reach (delete c m) ch x.
Proof.
  intros Hc. induction 1 as [Hr|y ny z _ IH Hy Hz Hsome].
  - destruct (decide (r = c)) as [->|Hne]; [by left|].
    right; left. apply reach_refl. by rewrite lookup_delete_ne.
  - destruct (decide (z = c)) as [->|Hzc]; [by left|]. right.
    assert (is_Some (delete c m !! z)) as Hz1 by by rewrite lookup_delete_ne.
    destruct IH as [->|[IH|(ch & Hch & IH)]].
    + right. exists z. split; [congruence|]. by apply reach_refl.
    + left. eapply reach_child; [done| |done|done].
      destruct (reach_target _ _ _ IH) as [ny' Hy'].
      apply lookup_delete_Some in Hy' as [? Hy']. rewrite lookup_delete_ne by done.
      done.
    + right. exists ch. split; [done|].
      eapply reach_child; [done| |done|done].
      destruct (reach_target _ _ _ IH) as [ny' Hy'].
      apply lookup_delete_Some in Hy' as [? Hy']. rewrite lookup_delete_ne by done.
      done.
Qed.

(** ** deleteSubtree *)

Lemma sweep_nil fuel m : sweep fuel m [] = Some m.
Proof. by destruct fuel. Qed.

Lemma sweep_skip fuel m c rest :
  m !! c = None → sweep fuel m (c :: rest) = sweep fuel m rest.
Proof. intros Hc. destruct fuel; simpl; by rewrite Hc. Qed.

Lemma sweep_delete fuel m c rest node :
  m !! c = Some node →
  sweep (S fuel) m (c :: rest)
    = sweep fuel (delete c m) (reverse (children node) ++ rest).
Proof. intros Hc. simpl. by rewrite Hc. Qed.

Lemma sweep_out m c rest node :
  m !! c = Some node → sweep 0 m (c :: rest) = None.
Proof. intros Hc. simpl. by rewrite Hc. Qed.

Lemma sweep_more_fuel fuel : ∀ m toDelete result,
  sweep fuel m toDelete = Some result →
  sweep (S fuel) m toDelete = Some result.
Proof.
  induction fuel as [|fuel IH]; intros m toDelete;
    induction toDelete as [|c rest IHrest]; intros result H.
  - by rewrite sweep_nil in *.
  - destruct (m !! c) as [node|] eqn:Hc.
    + by rewrite (sweep_out _ _ _ _ Hc) in H.
    + rewrite sweep_skip in * by done. by apply IHrest.
  - by rewrite sweep_nil in *.
  - destruct (m !! c) as [node|] eqn:Hc.
    + rewrite (sweep_delete fuel _ _ _ _ Hc) in H.
      rewrite (sweep_delete (S fuel) _ _ _ _ Hc). by apply IH.
    + rewrite sweep_skip in * by done. by apply IHrest.
Qed.

(** With fuel for every node of the mapping the loop ends, and it has removed
    exactly the nodes reachable from the ids it started with. *)
Lemma sweep_spec fuel : ∀ m toDelete,
  size m ≤ fuel →
  ∃ m', sweep fuel m toDelete = Some m' ∧
    m' ⊆ m ∧
    (∀ x, reach_from m toDelete x → m' !! x = None) ∧
    (∀ x, is_Some (m !! x) → m' !! x = None → reach_from m toDelete x).
Proof.
  induction fuel as [fuel IHfuel] using lt_wf_ind.
  intros m toDelete. induction toDelete as [|c rest IHrest]; intros Hsize.
  - exists m. split; [apply sweep_nil|]. split; [done|]. split.
    + intros x (s & Hs & _). by apply elem_of_nil in Hs.
    + intros x [n Hn] Hx. congruence.
  - destruct (m !! c) as [node|] eqn:Hc.
    + destruct fuel as [|fuel].
      { assert (size m = 0) as ->%map_size_empty_inv by lia. done. }
      assert (size (delete c m) ≤ fuel) as Hsize'.
      { rewrite map_size_delete_Some by eauto. lia. }
      destruct (IHfuel fuel (le_n _) (delete c m)
                  (reverse (children node) ++ rest) Hsize')
        as (m' & Hsweep & Hsub & Hgone & Hwhy).
      exists m'. split; [by rewrite (sweep_delete _ _ _ _ _ Hc)|].
      split; [|split].
      * etrans; [done|]. apply delete_subseteq.
      * intros x (s & Hs & Hreach).
        destruct (reach_split _ _ _ _ _ Hc Hreach)
          as [->|[Hr|(ch & Hch & Hr)]].
        -- eapply lookup_weaken_None; [|done]. apply lookup_delete_eq.
        -- apply Hgone. apply elem_of_cons in Hs as [->|Hs].
           ++ apply reach_source in Hr as [? Hr].
              by rewrite lookup_delete_eq in Hr.
           ++ exists s. split; [|done]. apply elem_of_app. by right.
        -- apply Hgone. exists ch. split; [|done]. apply elem_of_app. left.
           by rewrite elem_of_reverse.
      * intros x Hx Hnone.
        destruct (decide (x = c)) as [->|Hxc].
        { exists c. split; [left|]. by apply reach_refl. }
        destruct (Hwhy x) as (s & Hs & Hreach);
          [by rewrite lookup_delete_ne|done|].
        apply elem_of_app in Hs as [Hs|Hs].
        -- rewrite elem_of_reverse in Hs. exists c. split; [left|].
           apply reach_trans with s; [|by eapply reach_delete].
           eapply reach_child; [apply reach_refl; eauto|done|done|].
           eapply reach_source, reach_delete, Hreach.
        -- exists s. split; [by right|]. by eapply reach_delete.
    + destruct (IHrest Hsize) as (m' & Hsweep & Hsub & Hgone & Hwhy).
      exists m'. split; [by rewrite sweep_skip|].
      split; [done|]. split.
      * intros x (s & Hs & Hreach). apply Hgone.
        apply elem_of_cons in Hs as [->|Hs]; [|by exists s].
        by apply reach_missing in Hreach.
      * intros x Hx Hnone. destruct (Hwhy x Hx Hnone) as (s & Hs & Hreach).
        exists s. split; [by right|done].
Qed.

Lemma reach_from_singleton m n x : reach_from m [n] x ↔ reach m n x.
Proof.
  split.
  - by intros (s & ->%list_elem_of_singleton & H).
  - intros H. exists n. split; [by apply list_elem_of_singleton|done].
Qed.

(** [deleteSubtree] always ends; it removes the nodes reachable from the id,
    keeps every other entry as it is, and leaves the root ids alone. *)
Lemma deleteSubtree_spec n st :
  ∃ st', deleteSubtree n st = Some st' ∧
    rootIds st' = rootIds st ∧
    (∀ x, reach (nodes st) n x → nodes st' !! x = None) ∧
    (∀ x, ¬ reach (nodes st) n x → nodes st' !! x = nodes st !! x).
Proof.
  destruct (sweep_spec (size (nodes st)) (nodes st) [n] (le_n _))
    as (m' & Hsweep & Hsub & Hgone & Hwhy).
  exists (mkForest m' (rootIds st)). unfold deleteSubtree. rewrite Hsweep.
  split; [done|]. split; [done|]. simpl. split.
  - intros x Hx. apply Hgone. by apply reach_from_singleton.
  - intros x Hx. destruct (nodes st !! x) as [node|] eqn:Hnode.
    + destruct (m' !! x) as [node'|] eqn:Hnode'.
      * by rewrite (lookup_weaken _ _ _ _ Hnode' Hsub) in Hnode.
      * destruct Hx. apply reach_from_singleton. apply Hwhy; eauto.
    + by eapply lookup_weaken_None.
Qed.

(** C10: [deleteSubtree] leaves the root-id sequence as it was, so the id of
    a deleted root stays in it while the mapping no longer holds the node. *)
Theorem deleteSubtree_keeps_rootIds n st :
  ∃ st', deleteSubtree n st = Some st' ∧
    rootIds st' = rootIds st ∧
    (n ∈ rootIds st → n ∈ rootIds st' ∧ nodes st' !! n = None).
Proof.
  destruct (deleteSubtree_spec n st) as (st' & Hdel & Hroots & Hgone & Hkept).
  exists st'. split; [done|]. split; [done|].
  intros Hn. split; [by rewrite Hroots|].
  destruct (nodes st !! n) as [node|] eqn:Hnode.
  - apply Hgone. apply reach_refl. eauto.
  - rewrite Hkept; [done|]. by apply reach_missing.
Qed.

(** ** pruneToRoot: the breadth-first walk *)

Lemma bfs_nil m fuel retained : bfs m fuel retained [] = Some retained.
Proof. by destruct fuel. Qed.

Lemma bfs_seen m fuel retained c rest :
  c ∈ retained → bfs m fuel retained (c :: rest) = bfs m fuel retained rest.
Proof. intros Hc. destruct fuel; simpl; by rewrite bool_decide_eq_true_2. Qed.

Lemma bfs_missing m fuel retained c rest :
  m !! c = None → bfs m fuel retained (c :: rest) = bfs m fuel retained rest.
Proof.
  intros Hc. destruct fuel; simpl; rewrite Hc; by destruct (bool_decide _).
Qed.

Lemma bfs_retain m fuel retained c rest node :
  c ∉ retained → m !! c = Some node →
  bfs m (S fuel) retained (c :: rest)
    = bfs m fuel (retained ++ [c])
          (rest ++ filter (λ childId, childId ∉ retained ++ [c])
                          (children node)).
Proof. intros Hc Hnode. simpl. by rewrite bool_decide_eq_false_2, Hnode. Qed.

Lemma bfs_out m retained c rest node :
  c ∉ retained → m !! c = Some node → bfs m 0 retained (c :: rest) = None.
Proof. intros Hc Hnode. simpl. by rewrite bool_decide_eq_false_2, Hnode. Qed.

Lemma bfs_more_fuel m fuel : ∀ retained queue result,
  bfs m fuel retained queue = Some result →
  bfs m (S fuel) retained queue = Some result.
Proof.
  induction fuel as [|fuel IH]; intros retained queue;
    induction queue as [|c rest IHrest]; intros result H.
  - by rewrite bfs_nil in *.
  - destruct (decide (c ∈ retained)) as [Hin|Hin].
    { rewrite bfs_seen in * by done. by apply IHrest. }
    destruct (m !! c) as [node|] eqn:Hc.
    + by rewrite (bfs_out _ _ _ _ _ Hin Hc) in H.
    + rewrite bfs_missing in * by done. by apply IHrest.
  - by rewrite bfs_nil in *.
  - destruct (decide (c ∈ retained)) as [Hin|Hin].
    { rewrite bfs_seen in * by done. by apply IHrest. }
    destruct (m !! c) as [node|] eqn:Hc.
    + rewrite (bfs_retain _ fuel _ _ _ _ Hin Hc) in H.
      rewrite (bfs_retain _ (S fuel) _ _ _ _ Hin Hc). by apply IH.
    + rewrite bfs_missing in * by done. by apply IHrest.
Qed.

(** Distinct ids that all resolve are no more than the mapping has nodes. *)
Lemma resolved_length (m : gmap string Node) (l : list string) :
  NoDup l → (∀ x, x ∈ l → is_Some (m !! x)) → length l ≤ size m.
Proof.
  intros Hnodup Hl.
  rewrite <- (size_list_to_set (C:=gset string) l) by done.
  rewrite <- (size_dom (D:=gset string) m).
  apply subseteq_size. intros x Hx%elem_of_list_to_set.
  apply elem_of_dom. auto.
Qed.

Section bfs_facts.
Context (m : gmap string Node).

(** With fuel for every node not yet retained the walk ends.  What it
    returns extends [retained] by nodes reachable from the queue, holds
    every queued id that resolves, and is closed under children links as
    soon as [retained] was, up to the queue. *)
Lemma bfs_spec fuel : ∀ retained queue,
  NoDup retained → (∀ x, x ∈ retained → is_Some (m !! x)) →
  size m ≤ fuel + length retained →
  ∃ R, bfs m fuel retained queue = Some R ∧
    NoDup R ∧ (∀ x, x ∈ R → is_Some (m !! x)) ∧
    (∀ x, x ∈ retained → x ∈ R) ∧
    (∀ q, q ∈ queue → is_Some (m !! q) → q ∈ R) ∧
    (closed_upto m retained queue → closed_upto m R []) ∧
    (∀ x, x ∈ R → x ∈ retained ∨ reach_from m queue x).
Proof.
  induction fuel as [fuel IHfuel] using lt_wf_ind.
  intros retained queue.
  induction queue as [|c rest IHrest]; intros Hnodup Hres Hsize.
  { exists retained. rewrite bfs_nil. repeat split; auto.
    intros q Hq. by apply elem_of_nil in Hq. }
  destruct (decide (c ∈ retained)) as [Hc|Hc].
  { destruct (IHrest Hnodup Hres Hsize)
      as (R & Hbfs & HR & HRres & Hext & Hqueue & Hclosed & Hreach).
    exists R. rewrite bfs_seen by done. repeat split; auto.
    - intros q [->|Hq]%elem_of_cons ?; auto.
    - intros Hcl. apply Hclosed. intros x node c' Hx Hnode Hc' Hsome.
      destruct (Hcl x node c' Hx Hnode Hc' Hsome) as [?|[->|?]%elem_of_cons];
        auto.
    - intros x Hx. destruct (Hreach x Hx) as [?|(s & Hs & Hsx)]; [by left|].
      right. exists s. split; [by right|done]. }
  destruct (m !! c) as [node|] eqn:Hnode; last first.
  { destruct (IHrest Hnodup Hres Hsize)
      as (R & Hbfs & HR & HRres & Hext & Hqueue & Hclosed & Hreach).
    exists R. rewrite bfs_missing by done. repeat split; auto.
    - intros q [->|Hq]%elem_of_cons [? ?]; [congruence|]. apply Hqueue; eauto.
    - intros Hcl. apply Hclosed. intros x node c' Hx Hn Hc' Hsome.
      destruct (Hcl x node c' Hx Hn Hc' Hsome) as [?|[->|?]%elem_of_cons];
        auto.
      destruct Hsome. congruence.
    - intros x Hx. destruct (Hreach x Hx) as [?|(s & Hs & Hsx)]; [by left|].
      right. exists s. split; [by right|done]. }
  assert (NoDup (retained ++ [c])) as Hnodup'.
  { apply NoDup_app. split; [done|]. split; [|apply NoDup_singleton].
    intros x Hx ->%list_elem_of_singleton. done. }
  assert (∀ x, x ∈ retained ++ [c] → is_Some (m !! x)) as Hres'.
  { intros x [Hx| ->%list_elem_of_singleton]%elem_of_app; eauto. }
  pose proof (resolved_length m _ Hnodup' Hres') as Hlen.
  rewrite length_app in Hlen. simpl in Hlen.
  destruct fuel as [|fuel]; [lia|].
  destruct (IHfuel fuel (le_n _) (retained ++ [c])
              (rest ++ filter (λ childId, childId ∉ retained ++ [c])
                              (children node)) Hnodup' Hres')
    as (R & Hbfs & HR & HRres & Hext & Hqueue & Hclosed & Hreach).
  { rewrite length_app. simpl. lia. }
  exists R. rewrite (bfs_retain _ _ _ _ _ _ Hc Hnode).
  repeat split; auto.
  - intros x Hx. apply Hext, elem_of_app. by left.
  - intros q [->|Hq]%elem_of_cons Hsome.
    + apply Hext, elem_of_app. right. by apply list_elem_of_singleton.
    + apply Hqueue; [|done]. apply elem_of_app. by left.
  - intros Hcl. apply Hclosed. intros x nx c' Hx Hnx Hc' Hsome.
    destruct (decide (c' ∈ retained ++ [c])) as [?|Hnew]; [by left|].
    right. apply elem_of_app.
    apply elem_of_app in Hx as [Hx| ->%list_elem_of_singleton].
    + destruct (Hcl x nx c' Hx Hnx Hc' Hsome) as [?|[->|?]%elem_of_cons].
      * destruct Hnew. apply elem_of_app. by left.
      * destruct Hnew. apply elem_of_app. right.
        by apply list_elem_of_singleton.
      * by left.
    + right. apply list_elem_of_filter. split; [done|]. congruence.
  - intros x Hx.
    destruct (Hreach x Hx)
      as [[?| ->%list_elem_of_singleton]%elem_of_app|(s & Hs & Hsx)].
    + by left.
    + right. exists c. split; [left|]. apply reach_refl. eauto.
    + right. apply elem_of_app in Hs as [Hs|[_ Hs]%list_elem_of_filter].
      * exists s. split; [by right|done].
      * exists c. split; [left|]. apply reach_trans with s; [|done].
        eapply reach_child; [apply reach_refl; eauto|done|done|].
        by eapply reach_source.
Qed.

(** From the root alone the walk returns the ids reachable from it. *)
Lemma bfs_from_root r :
  is_Some (m !! r) →
  ∃ R, bfs m (size m) [] [r] = Some R ∧ NoDup R ∧
       ∀ x, x ∈ R ↔ reach m r x.
Proof.
  intros Hr.
  destruct (bfs_spec (size m) [] [r])
    as (R & Hbfs & HR & HRres & _ & Hqueue & Hclosed & Hreach).
  { apply NoDup_nil_2. }
  { intros x Hx. by apply elem_of_nil in Hx. }
  { lia. }
  exists R. split; [done|]. split; [done|]. intros x. split.
  - intros Hx. destruct (Hreach x Hx) as [Hnil|Hfrom].
    + by apply elem_of_nil in Hnil.
    + by apply reach_from_singleton.
  - induction 1 as [_|y node c _ IH Hy Hc Hsome].
    + apply Hqueue; [by apply list_elem_of_singleton|done].
    + destruct (Hclosed) with (x := y) (node := node) (c := c)
        as [?|Hnil]; auto.
      * intros x' n' c' Hx'. by apply elem_of_nil in Hx'.
      * by apply elem_of_nil in Hnil.
Qed.
End bfs_facts.

(** ** pruneToRoot *)

(** [{ ...node, children: node.children.filter(retainedIds.has) }] *)
Lemma keep_retained_lookup m retained l : ∀ acc x,
  foldl (keep_retained m retained) acc l !! x =
    if decide (x ∈ l) then
      match m !! x with
      | Some node => Some (pruned retained node)
      | None => acc !! x
      end
    else acc !! x.
Proof.
  induction l as [|i l IH]; intros acc x; simpl.
  { done. }
  rewrite IH.
  destruct (decide (x = i)) as [->|Hne].
  - rewrite (decide_True (P := i ∈ i :: l)) by left.
    unfold keep_retained.
    destruct (m !! i) as [node|] eqn:Hi; destruct (decide (i ∈ l));
      rewrite ?lookup_insert_eq; done.
  - assert (keep_retained m retained acc i !! x = acc !! x) as ->.
    { unfold keep_retained.
      destruct (m !! i); [by rewrite lookup_insert_ne|done]. }
    destruct (decide (x ∈ l)) as [Hx|Hx].
    + by rewrite decide_True by by right.
    + by rewrite decide_False by (by intros [?|?]%elem_of_cons).
Qed.

Lemma pruneToRoot_missing r st :
  property (nodes st) r = None → pruneToRoot r st = Some (returned (), st).
Proof. intros Hr. unfold pruneToRoot. by rewrite Hr. Qed.

Lemma pruneToRoot_inherited r st :
  nodes st !! r = None → r ∈ Object_prototype →
  pruneToRoot r st = Some (thrown (cannot_read "filter"), st).
Proof.
  intros Hr Hin. unfold pruneToRoot.
  by rewrite (property_inherited _ _ Hr Hin).
Qed.

(** For a root id that is not stored the store is left as it is. *)
Lemma pruneToRoot_unstored r st :
  nodes st !! r = None → ∃ ending, pruneToRoot r st = Some (ending, st).
Proof.
  intros Hr. destruct (decide (r ∈ Object_prototype)).
  - rewrite pruneToRoot_inherited by done. eauto.
  - rewrite pruneToRoot_missing by (by apply property_missing). eauto.
Qed.

(** For a root id that resolves, [pruneToRoot] ends; the new mapping holds
    the retained ids, each with its node cut down to its retained children,
    and the retained ids are the ids reachable from the root. *)
Lemma pruneToRoot_spec r st :
  is_Some (nodes st !! r) →
  ∃ retainedIds st',
    pruneToRoot r st = Some (returned (), st') ∧ rootIds st' = [r] ∧
    (∀ x, x ∈ retainedIds ↔ reach (nodes st) r x) ∧
    (∀ x, nodes st' !! x =
            if decide (x ∈ retainedIds)
            then pruned retainedIds <$> nodes st !! x else None).
Proof.
  intros Hr.
  destruct (bfs_from_root (nodes st) r Hr) as (R & Hbfs & _ & HR).
  exists R. eexists. unfold pruneToRoot. destruct Hr as [root Hroot].
  rewrite (property_own _ _ _ Hroot).
  rewrite Hbfs. simpl. split; [done|]. split; [done|]. split; [done|].
  intros x. simpl. rewrite keep_retained_lookup.
  destruct (decide (x ∈ R)) as [Hx|Hx]; [|apply lookup_empty].
  apply HR, reach_target in Hx as [node ->]. done.
Qed.

(** [pruneToRoot] always ends. *)
Lemma pruneToRoot_total r st :
  ∃ ending st', pruneToRoot r st = Some (ending, st').
Proof.
  destruct (nodes st !! r) as [root|] eqn:Hr.
  - destruct (pruneToRoot_spec r st) as (R & st' & -> & _); eauto.
  - destruct (pruneToRoot_unstored r st Hr) as [ending ->]. eauto.
Qed.

(** The two ways a call of [pruneToRoot] goes. *)
Lemma pruneToRoot_inv r st ending st' :
  pruneToRoot r st = Some (ending, st') →
  (nodes st !! r = None ∧ st' = st) ∨
  (is_Some (nodes st !! r) ∧ ending = returned () ∧
   ∃ retainedIds,
     rootIds st' = [r] ∧
     (∀ x, x ∈ retainedIds ↔ reach (nodes st) r x) ∧
     (∀ x, nodes st' !! x =
             if decide (x ∈ retainedIds)
             then pruned retainedIds <$> nodes st !! x else None)).
Proof.
  intros Hprune. destruct (nodes st !! r) as [root|] eqn:Hr.
  - right. destruct (pruneToRoot_spec r st) as (R & st1 & Hp & Hrest);
      [eauto|].
    rewrite Hp in Hprune. injection Hprune as <- <-. eauto 10.
  - left. destruct (pruneToRoot_unstored r st Hr) as [e He].
    rewrite He in Hprune. by injection Hprune as <- <-.
Qed.

(** [pruneToRoot] throws only at the name of an inherited member, and
    leaves the store as it is. *)
Lemma pruneToRoot_thrown r st message st' :
  pruneToRoot r st = Some (thrown message, st') →
  message = cannot_read "filter" ∧ st' = st ∧
  nodes st !! r = None ∧ r ∈ Object_prototype.
Proof.
  unfold pruneToRoot. intros H.
  destruct (property (nodes st) r) as [[root|name]|] eqn:Hr.
  - by destruct (bfs _ _ _ _).
  - apply property_Some_inherited in Hr as (? & ? & _).
    by injection H as <- <-.
  - done.
Qed.

(** [deleteSubtree] always ends. *)
Lemma deleteSubtree_total n st : is_Some (deleteSubtree n st).
Proof. destruct (deleteSubtree_spec n st) as (st' & -> & _). eauto. Qed.

Lemma pruned_twice R1 R2 node :
  (∀ c, c ∈ R2 ↔ c ∈ R1) → pruned R2 (pruned R1 node) = pruned R1 node.
Proof.
  intros HR. unfold pruned, with_children. simpl. f_equal.
  induction (children node) as [|c l IH]; [done|].
  destruct (decide (c ∈ R1)) as [Hc|Hc].
  - rewrite (filter_cons_True (λ c, c ∈ R1)) by done.
    rewrite filter_cons_True by by apply HR. by rewrite IH.
  - by rewrite (filter_cons_False (λ c, c ∈ R1)) by done.
Qed.

(** Pruning keeps the paths from the root. *)
Lemma reach_pruned (m m' : gmap string Node) R r x :
  (∀ y, y ∈ R ↔ reach m r y) →
  (∀ y, m' !! y = if decide (y ∈ R) then pruned R <$> m !! y else None) →
  reach m' r x ↔ reach m r x.
Proof.
  intros HR Hm'. split.
  - apply reach_mono. intros k n1 Hk. rewrite Hm' in Hk.
    destruct (decide (k ∈ R)); [|done].
    destruct (m !! k) as [n|]; [|done]. injection Hk as <-.
    exists n. split; [done|]. by intros c [_ Hc]%list_elem_of_filter _.
  - induction 1 as [Hr|y node c Hy IH Hnode Hc Hsome].
    + apply reach_refl. rewrite Hm', decide_True.
      * by apply fmap_is_Some.
      * apply HR. by apply reach_refl.
    + assert (c ∈ R) as HcR by (apply HR; by eapply reach_child).
      eapply reach_child; [done| | |].
      * rewrite Hm', decide_True by by apply HR. by rewrite Hnode.
      * simpl. by apply list_elem_of_filter.
      * rewrite Hm', decide_True by done. by apply fmap_is_Some.
Qed.

(** C1: for a root id [r] that resolves, the mapping after [pruneToRoot r]
    holds exactly the ids reachable from [r] via children links, each with
    its node and the children that are reachable; the root-id sequence is
    [[r]]; and every id in a children list is in the mapping. *)
Theorem pruneToRoot_subtree r st :
  is_Some (nodes st !! r) →
  ∃ st', pruneToRoot r st = Some (returned (), st') ∧
    (∀ x, is_Some (nodes st' !! x) ↔ reach (nodes st) r x) ∧
    rootIds st' = [r] ∧
    (∀ x node' c, nodes st' !! x = Some node' → c ∈ children node' →
                  is_Some (nodes st' !! c)) ∧
    (∀ x node', nodes st' !! x = Some node' →
       ∃ node, nodes st !! x = Some node ∧
               node' = with_children node (children node') ∧
               ∀ c, c ∈ children node' ↔
                    c ∈ children node ∧ reach (nodes st) r c).
Proof.
  intros Hr.
  destruct (pruneToRoot_spec r st Hr) as (R & st' & Hprune & Hroots & HR & Hst').
  assert (∀ x, is_Some (nodes st' !! x) ↔ reach (nodes st) r x) as Hdom.
  { intros x. rewrite Hst'. destruct (decide (x ∈ R)) as [Hx|Hx].
    - rewrite fmap_is_Some. split; [intros _; by apply HR|].
      intros _. by eapply reach_target, HR.
    - split; [by intros [? ?]|]. by intros ?%HR. }
  exists st'. split; [done|]. split; [done|]. split; [done|]. split.
  - intros x node' c Hx Hc. apply Hdom. rewrite Hst' in Hx.
    destruct (decide (x ∈ R)); [|done].
    destruct (nodes st !! x) as [node|]; [|done]. injection Hx as <-.
    simpl in Hc. apply list_elem_of_filter in Hc as [Hc _]. by apply HR.
  - intros x node' Hx. rewrite Hst' in Hx.
    destruct (decide (x ∈ R)); [|done].
    destruct (nodes st !! x) as [node|]; [|done]. injection Hx as <-.
    exists node. split; [done|]. split; [done|].
    intros c. simpl. rewrite list_elem_of_filter, HR. tauto.
Qed.

Lemma pruneToRoot_subtree_witness :
  let st0 := (createNode "a" "t0" user "Topic A" None emptyForest).2 in
  let st1 := (createNode "b" "t1" assistant "Reply A" (Some "a") st0).2 in
  let st2 := (createNode "c" "t2" user "Topic B" None st1).2 in
  let st := (createNode "d" "t3" assistant "Reply B" (Some "c") st2).2 in
  ∃ st', pruneToRoot "c" st = Some (returned (), st') ∧
    (∀ x, is_Some (nodes st' !! x) ↔ reach (nodes st) "c" x) ∧
    rootIds st' = ["c"] ∧
    (∀ x node' c, nodes st' !! x = Some node' → c ∈ children node' →
                  is_Some (nodes st' !! c)) ∧
    (∀ x node', nodes st' !! x = Some node' →
       ∃ node, nodes st !! x = Some node ∧
               node' = with_children node (children node') ∧
               ∀ c, c ∈ children node' ↔
                    c ∈ children node ∧ reach (nodes st) "c" c).
Proof.
  intros st0 st1 st2 st.
  apply (pruneToRoot_subtree "c" st). by_evaluation.
Defined.

(** C6: pruning to the same root twice in a row gives the forest that
    pruning once gives, and the second call ends as the first. *)
Theorem pruneToRoot_idempotent r st :
  ∃ ending st',
    pruneToRoot r st = Some (ending, st') ∧
    pruneToRoot r st' = Some (ending, st').
Proof.
  destruct (nodes st !! r) as [root|] eqn:Hr.
  2: { destruct (pruneToRoot_unstored r st Hr) as [ending He]. eauto. }
  destruct (pruneToRoot_spec r st) as (R & st' & Hprune & Hroots & HR & Hst');
    [eauto|].
  exists (returned ()), st'. split; [done|].
  assert (is_Some (nodes st' !! r)) as Hr'.
  { rewrite Hst', decide_True, Hr; [eauto|]. apply HR, reach_refl. eauto. }
  destruct (pruneToRoot_spec r st' Hr')
    as (R2 & st2 & -> & Hroots2 & HR2 & Hst2).
  do 2 f_equal. destruct st' as [m' roots'], st2 as [m2 roots2]. simpl in *.
  f_equal; [|congruence].
  assert (∀ c, c ∈ R2 ↔ c ∈ R) as Hsame.
  { intros c. rewrite HR2, HR. by eapply reach_pruned. }
  apply map_eq. intros x. rewrite Hst2, Hst'.
  destruct (decide (x ∈ R)) as [Hx|Hx].
  - rewrite decide_True by by apply Hsame.
    destruct (nodes st !! x) as [node|]; [|done]. simpl.
    by rewrite pruned_twice.
  - by destruct (decide _).
Qed.



(** ** Forests the store can hold are well formed *)

(** Adding a node under an id no parent id names keeps the ascents. *)
Lemma ascent_ends_extend (m m' : gmap string Node) u :
  (∀ k n, m !! k = Some n →
     parentId n ≠ Some u ∧ ∃ n', m' !! k = Some n' ∧ parentId n' = parentId n) →
  (∀ k, k ≠ u → m !! k = None → m' !! k = None) →
  ∀ v, v ≠ Some u → ascent_ends m v → ascent_ends m' v.
Proof.
  intros Hkept Hmissing v Hv Hends. revert Hv.
  induction Hends as [v Hf|v c Hc Hnone|v c node Hc Hnode _ IH]; intros Hv.
  - by apply ascent_falsy.
  - apply ascent_missing with c; [done|]. apply Hmissing; [|done].
    apply truthy_Some in Hc as [-> _]. congruence.
  - destruct (Hkept _ _ Hnode) as (Hpar & n' & Hn' & Heq).
    apply ascent_step with c n'; [done|done|]. rewrite Heq. by apply IH.
Qed.

(** Dropping nodes, with the parent ids of the others kept, keeps the
    ascents: they only end earlier. *)
Lemma ascent_ends_restrict (m m' : gmap string Node) :
  (∀ k n', m' !! k = Some n' →
     ∃ n, m !! k = Some n ∧ parentId n' = parentId n) →
  ∀ v, ascent_ends m v → ascent_ends m' v.
Proof.
  intros Hsub v.
  induction 1 as [v Hf|v c Hc Hnone|v c node Hc Hnode _ IH].
  - by apply ascent_falsy.
  - apply ascent_missing with c; [done|].
    destruct (m' !! c) as [n'|] eqn:Hn'; [|done].
    destruct (Hsub _ _ Hn') as (n & Hn & _). congruence.
  - destruct (m' !! c) as [n'|] eqn:Hn'.
    + destruct (Hsub _ _ Hn') as (n & Hn & Heq).
      apply ascent_step with c n'; [done|done|]. congruence.
    + by apply ascent_missing with c.
Qed.

(** The mapping after [createNode] with an identifier not in use: the new
    node under its id, the others as they were, but for the new id as one
    more child of the parent. *)
Lemma createNode_nodes uuid now r c pid st :
  fresh st uuid → pid ≠ Some uuid →
  let m' := nodes (createNode uuid now r c pid st).2 in
  (∃ node, m' !! uuid = Some node ∧ id node = uuid ∧ role node = r ∧
           content node = c ∧ parentId node = pid ∧ children node = [] ∧
     (rootId node = Some uuid ∨
      (∃ p parent parent',
         pid = Some p ∧ nodes st !! p = Some parent ∧
         rootId node = Some (or_else (rootId parent) (id parent)) ∧
         m' !! p = Some parent' ∧ uuid ∈ children parent') ∨
      (rootId node = None ∧ ¬ returns (createNode uuid now r c pid st).1))) ∧
  (∀ k n, nodes st !! k = Some n →
     ∃ n', m' !! k = Some n' ∧ id n' = id n ∧ parentId n' = parentId n ∧
           rootId n' = rootId n ∧ ∀ x, x ∈ children n → x ∈ children n') ∧
  (∀ k n', m' !! k = Some n' → k ≠ uuid →
     ∃ n, nodes st !! k = Some n ∧ id n' = id n ∧
          parentId n' = parentId n ∧ rootId n' = rootId n ∧
          ∀ x, x ∈ children n' → x ∈ children n ∨ (x = uuid ∧ pid = Some k)) ∧
  (∀ k, k ≠ uuid → nodes st !! k = None → m' !! k = None).
Proof.
  intros Hfresh Hpid m'. subst m'.
  pose proof (fresh_nodes _ _ Hfresh) as Hnone.
  destruct (truthy pid) as [p|] eqn:Hp.
  - assert (p ≠ uuid) as Hpu.
    { apply truthy_Some in Hp as [-> _]. congruence. }
    destruct (nodes st !! p) as [parent|] eqn:Hparent.
    + rewrite (createNode_attached _ _ _ _ _ _ _ _ Hp Hparent Hpu). simpl.
      split; [|split; [|split]].
      * eexists. rewrite lookup_insert_ne by done.
        rewrite lookup_insert_eq. do 6 (split; [done|]). right. left.
        exists p, parent. eexists. rewrite lookup_insert_eq.
        split; [by apply truthy_Some in Hp as [-> _]|].
        do 3 (split; [done|]). simpl. apply elem_of_app. right. left.
      * intros k n Hk. destruct (decide (k = p)) as [->|Hkp].
        -- rewrite lookup_insert_eq. eexists. split; [done|].
           rewrite Hparent in Hk. injection Hk as <-.
           do 3 (split; [done|]). simpl. intros x Hx.
           apply elem_of_app. by left.
        -- rewrite !lookup_insert_ne; [eauto 10|congruence|done].
      * intros k n' Hk Hku. destruct (decide (k = p)) as [->|Hkp].
        -- rewrite lookup_insert_eq in Hk. injection Hk as <-.
           exists parent. do 4 (split; [done|]). simpl.
           intros x [?| ->%list_elem_of_singleton]%elem_of_app; [by left|].
           right. by apply truthy_Some in Hp as [-> _].
        -- rewrite !lookup_insert_ne in Hk by done. eauto 10.
      * intros k Hku Hk. rewrite !lookup_insert_ne; [done|done|congruence].
    + destruct (decide (p ∈ Object_prototype)) as [Hin|Hout].
      * rewrite (createNode_inherited _ _ _ _ _ _ _ Hp Hparent Hpu Hin).
        simpl. split; [|split; [|split]].
        -- eexists. rewrite lookup_insert_eq. do 6 (split; [done|]).
           right. right. split; [done|]. by intros [].
        -- intros k n Hk. rewrite lookup_insert_ne by congruence. eauto 10.
        -- intros k n' Hk Hku. rewrite lookup_insert_ne in Hk by done.
           eauto 10.
        -- intros k Hku Hk. by rewrite lookup_insert_ne.
      * rewrite (createNode_dangling _ _ _ _ _ _ _ Hp Hparent Hpu Hout).
        simpl. split; [|split; [|split]].
        -- eexists. rewrite lookup_insert_eq. do 6 (split; [done|]).
           by left.
        -- intros k n Hk. rewrite lookup_insert_ne by congruence. eauto 10.
        -- intros k n' Hk Hku. rewrite lookup_insert_ne in Hk by done.
           eauto 10.
        -- intros k Hku Hk. by rewrite lookup_insert_ne.
  - rewrite createNode_rootless by done. simpl.
    split; [|split; [|split]].
    + eexists. rewrite lookup_insert_eq. do 6 (split; [done|]). by left.
    + intros k n Hk. rewrite lookup_insert_ne by congruence. eauto 10.
    + intros k n' Hk Hku. rewrite lookup_insert_ne in Hk by done. eauto 10.
    + intros k Hku Hk. by rewrite lookup_insert_ne.
Qed.

Lemma well_formed_empty : well_formed emptyForest.
Proof.
  split; [apply map_Forall_empty|]. split; [done|].
  intros v. destruct (truthy v) as [c|] eqn:Hv.
  - by apply ascent_missing with c.
  - by apply ascent_falsy.
Qed.

Lemma well_formed_createNode uuid now r c pid st :
  well_formed st → fresh st uuid → pid ≠ Some uuid →
  well_formed (createNode uuid now r c pid st).2.
Proof.
  intros (Hkeyed & Hempty & Hends) Hfresh Hpid.
  destruct (createNode_nodes uuid now r c pid st Hfresh Hpid)
    as ((node & Hnode & Hid & _ & _ & Hparent & _) & Hold & Hfrom & Hnone).
  pose proof (fresh_truthy _ _ Hfresh) as Huuid.
  assert (∀ v, v ≠ Some uuid →
            ascent_ends (nodes (createNode uuid now r c pid st).2) v)
    as Hext.
  { intros v Hv. apply ascent_ends_extend with (nodes st) uuid; auto.
    intros k n Hk. split; [by eapply fresh_parent|].
    destruct (Hold _ _ Hk) as (n' & ? & _ & ? & _). eauto. }
  split; [|split].
  - intros k n' Hk. destruct (decide (k = uuid)) as [->|Hku].
    + congruence.
    + destruct (Hfrom _ _ Hk Hku) as (n & Hn & -> & _). by apply Hkeyed.
  - apply Hnone; [congruence|done].
  - intros v. destruct (decide (v = Some uuid)) as [->|Hv]; [|auto].
    apply ascent_step with uuid node; [by apply truthy_intro|done|].
    apply Hext. congruence.
Qed.

Lemma linked_createNode uuid now r c pid st :
  linked (nodes st) → fresh st uuid → pid ≠ Some uuid →
  linked (nodes (createNode uuid now r c pid st).2).
Proof.
  intros Hlinked Hfresh Hpid.
  destruct (createNode_nodes uuid now r c pid st Hfresh Hpid)
    as ((new & Hnew & _ & _ & _ & Hparent & Hchildless & _) &
        Hold & Hfrom & Hnone).
  intros k node x child Hk Hx Hchild.
  destruct (decide (k = uuid)) as [->|Hku].
  { rewrite Hnew in Hk. injection Hk as <-.
    rewrite Hchildless in Hx. by apply elem_of_nil in Hx. }
  destruct (Hfrom _ _ Hk Hku) as (node0 & Hk0 & _ & _ & _ & Hchildren).
  destruct (Hchildren _ Hx) as [Hx0|[-> Heq]].
  - assert (x ≠ uuid) as Hxu.
    { intros ->. by eapply fresh_children. }
    destruct (Hfrom _ _ Hchild Hxu) as (child0 & Hchild0 & _ & -> & _).
    by eapply Hlinked.
  - rewrite Hnew in Hchild. injection Hchild as <-. congruence.
Qed.

(** [createNode] keeps the paths there were. *)
Lemma reach_createNode uuid now r c pid st root x :
  fresh st uuid → pid ≠ Some uuid →
  reach (nodes st) root x →
  reach (nodes (createNode uuid now r c pid st).2) root x.
Proof.
  intros Hfresh Hpid.
  destruct (createNode_nodes uuid now r c pid st Hfresh Hpid)
    as (_ & Hold & _).
  apply reach_mono. intros k n Hk.
  destruct (Hold _ _ Hk) as (n' & Hn' & _ & _ & _ & Hchildren). eauto.
Qed.

Lemma rooted_createNode uuid now r c pid st :
  rooted (nodes st) → fresh st uuid →
  pid ≠ Some uuid → returns (createNode uuid now r c pid st).1 →
  rooted (nodes (createNode uuid now r c pid st).2).
Proof.
  intros Hrooted Hfresh Hpid Hreturns.
  destruct (createNode_nodes uuid now r c pid st Hfresh Hpid)
    as ((new & Hnew & _ & _ & _ & _ & _ & Hroot) & Hold & Hfrom & Hnone).
  pose proof (fresh_truthy _ _ Hfresh) as Huuid.
  assert (∀ k node rn, nodes st !! k = Some node → rootId node = Some rn →
            nodes (createNode uuid now r c pid st).2 !! rn = None →
            nodes st !! rn = None) as Hunstored.
  { intros k node rn Hk Hrn Hrn'.
    destruct (nodes st !! rn) as [rootNode|] eqn:Hrootnode; [|done].
    destruct (Hold _ _ Hrootnode) as (? & ? & _). congruence. }
  intros k node' Hk. destruct (decide (k = uuid)) as [->|Hku].
  - rewrite Hnew in Hk. injection Hk as <-.
    destruct Hroot
      as [Hroot|[(p & parent & parent' & -> & Hp & Hroot & Hp' & Hin)
                |[_ Hthrows]]]; [| |done].
    { exists uuid. do 2 (split; [done|]). split; [congruence|].
      right. apply reach_refl. eauto. }
    destruct (Hrooted _ _ Hp) as (rp & Hrp & Hne & Hout & Hlineage).
    rewrite Hrp, or_else_truthy in Hroot by done.
    exists rp. do 2 (split; [done|]). split; [by eauto|].
    destruct Hlineage as [Hmissing|Hreach].
    + left. apply Hnone; [|done]. intros ->.
      by apply (fresh_rootId _ _ _ _ Hfresh Hp).
    + right. eapply reach_child; [|done|done|eauto].
      by apply reach_createNode.
  - destruct (Hfrom _ _ Hk Hku) as (node & Hnode & _ & _ & Hsame & _).
    destruct (Hrooted _ _ Hnode) as (rn & Hrn & Hne & Hout & Hlineage).
    exists rn. rewrite Hsame. do 2 (split; [done|]). split; [by eauto|].
    destruct Hlineage as [Hmissing|Hreach].
    + left. apply Hnone; [|done]. intros ->.
      by apply (fresh_rootId _ _ _ _ Hfresh Hnode).
    + right. by apply reach_createNode.
Qed.

Lemma proper_keys_createNode uuid now r c pid st :
  proper_keys (nodes st) → fresh st uuid → (uuid ∉ Object_prototype) →
  pid ≠ Some uuid →
  proper_keys (nodes (createNode uuid now r c pid st).2).
Proof.
  intros Hproper Hfresh Huuid Hpid k [node' Hk].
  destruct (createNode_nodes uuid now r c pid st Hfresh Hpid)
    as (_ & _ & Hfrom & _).
  destruct (decide (k = uuid)) as [->|Hku]; [done|].
  destruct (Hfrom _ _ Hk Hku) as (node & Hnode & _). apply Hproper. eauto.
Qed.

Lemma proper_keys_restricts (m m' : gmap string Node) :
  restricts m m' → proper_keys m → proper_keys m'.
Proof.
  intros Hsub Hproper k [node' Hk].
  destruct (Hsub _ _ Hk) as (node & Hnode & _). apply Hproper. eauto.
Qed.

Lemma restricts_trans (m1 m2 m3 : gmap string Node) :
  restricts m1 m2 → restricts m2 m3 → restricts m1 m3.
Proof.
  intros H12 H23 k n3 Hk.
  destruct (H23 _ _ Hk) as (n2 & Hn2 & -> & -> & -> & Hc23).
  destruct (H12 _ _ Hn2) as (n1 & Hn1 & -> & -> & -> & Hc12).
  exists n1. eauto 10.
Qed.

Lemma well_formed_restricts st st' :
  restricts (nodes st) (nodes st') → well_formed st → well_formed st'.
Proof.
  intros Hsub (Hkeyed & Hempty & Hends). split; [|split].
  - intros k n' Hk. destruct (Hsub _ _ Hk) as (n & Hn & -> & _).
    by apply Hkeyed.
  - destruct (nodes st' !! "") as [n'|] eqn:Hn'; [|done].
    destruct (Hsub _ _ Hn') as (n & Hn & _). congruence.
  - intros v. apply ascent_ends_restrict with (nodes st); [|done].
    intros k n' Hk. destruct (Hsub _ _ Hk) as (n & ? & _ & ? & _). eauto.
Qed.

Lemma linked_restricts (m m' : gmap string Node) :
  restricts m m' → linked m → linked m'.
Proof.
  intros Hsub Hlinked k node' c child' Hk Hc Hchild.
  destruct (Hsub _ _ Hk) as (node & Hnode & _ & _ & _ & Hchildren).
  destruct (Hsub _ _ Hchild) as (child & Hchild0 & _ & -> & _).
  eapply Hlinked; eauto.
Qed.

Lemma pruneToRoot_restricts r st ending st' :
  pruneToRoot r st = Some (ending, st') → restricts (nodes st) (nodes st').
Proof.
  intros [[_ ->]|(_ & _ & R & _ & _ & Hst1)]%pruneToRoot_inv.
  - intros k n' Hk. eauto 10.
  - intros k n' Hk. rewrite Hst1 in Hk. destruct (decide (k ∈ R)); [|done].
    destruct (nodes st !! k) as [n|]; [|done]. injection Hk as <-.
    exists n. do 4 (split; [done|]).
    by intros c [_ Hc]%list_elem_of_filter.
Qed.

Lemma deleteSubtree_restricts n st st' :
  deleteSubtree n st = Some st' → restricts (nodes st) (nodes st').
Proof.
  intros Hdel.
  destruct (sweep_spec (size (nodes st)) (nodes st) [n] (le_n _))
    as (m' & Hsweep & Hsub & _).
  unfold deleteSubtree in Hdel. rewrite Hsweep in Hdel. injection Hdel as <-.
  simpl. intros k n' Hk.
  exists n'. split; [|done]. by eapply lookup_weaken.
Qed.

(** Detaching a child removes its id from one children list. *)
Lemma detachChild_nodes childId parentId st :
  let m1 := nodes (detachChild childId parentId st) in
  restricts (nodes st) m1 ∧
  ∀ k node, nodes st !! k = Some node →
    ∃ node1, m1 !! k = Some node1 ∧
             ∀ c, c ∈ children node → c ≠ childId → c ∈ children node1.
Proof.
  unfold detachChild.
  destruct (nodes st !! parentId) as [parentNode|] eqn:Hp; simpl.
  - split.
    + intros k n' [[<- <-]|[_ Hk]]%lookup_insert_Some; [|eauto 10].
      exists parentNode. do 4 (split; [done|]).
      by intros c [_ Hc]%list_elem_of_filter.
    + intros k node Hk. destruct (decide (k = parentId)) as [->|Hne].
      * rewrite lookup_insert_eq. eexists. split; [done|].
        intros c Hc Hne. simpl. apply list_elem_of_filter.
        split; [done|congruence].
      * rewrite lookup_insert_ne by done. eauto.
  - split; [intros k n' Hk; eauto 10|eauto].
Qed.

(** A path survives the removal of a subtree that its end is not in. *)
Lemma reach_survives (m m1 m2 : gmap string Node) t root k :
  (∀ y node, m !! y = Some node →
     ∃ node1, m1 !! y = Some node1 ∧
              ∀ c, c ∈ children node → c ≠ t → c ∈ children node1) →
  (∀ x, ¬ reach m1 t x → m2 !! x = m1 !! x) →
  reach m root k → ¬ reach m1 t k → reach m2 root k.
Proof.
  intros Hdetached Hkept.
  induction 1 as [[node Hroot]|y node c _ IH Hy Hc [child Hchild]];
    intros Hout.
  - apply reach_refl. rewrite Hkept by done.
    destruct (Hdetached _ _ Hroot) as (node1 & -> & _). eauto.
  - destruct (Hdetached _ _ Hy) as (node1 & Hy1 & Hchildren).
    destruct (Hdetached _ _ Hchild) as (child1 & Hchild1 & _).
    assert (c ≠ t) as Hct.
    { intros ->. apply Hout, reach_refl. eauto. }
    assert (¬ reach m1 t y) as Hy_out.
    { intros Hreach. apply Hout. eapply reach_child; eauto. }
    eapply reach_child; [by apply IH| |by apply Hchildren|].
    + by rewrite Hkept.
    + rewrite Hkept by done. eauto.
Qed.

Lemma rooted_removed (m m1 m2 : gmap string Node) t :
  rooted m → proper_keys m → restricts m m1 →
  (∀ y node, m !! y = Some node →
     ∃ node1, m1 !! y = Some node1 ∧
              ∀ c, c ∈ children node → c ≠ t → c ∈ children node1) →
  (∀ x, reach m1 t x → m2 !! x = None) →
  (∀ x, ¬ reach m1 t x → m2 !! x = m1 !! x) →
  rooted m2.
Proof.
  intros Hrooted Hkeys Hsub Hdetached Hgone Hkept.
  assert (∀ x, is_Some (m2 !! x) → ¬ reach m1 t x) as Hout.
  { intros x [n Hn] Hreach. rewrite Hgone in Hn by done. done. }
  intros k node2 Hk.
  pose proof (Hout k (mk_is_Some _ _ Hk)) as Hk_out.
  rewrite Hkept in Hk by done.
  destruct (Hsub _ _ Hk) as (node & Hnode & _ & _ & -> & _).
  destruct (Hrooted _ _ Hnode) as (rn & Hrn & Hne & Hproper & Hlineage).
  exists rn. do 2 (split; [done|]).
  destruct (m2 !! rn) as [rootNode|] eqn:Hroot; last first.
  { split; [|by left]. intros _.
    destruct (m !! rn) as [rootNode|] eqn:Hroot0; [|by apply Hproper].
    apply Hkeys. eauto. }
  split; [done|].
  right. destruct Hlineage as [Hmissing|Hreach].
  - pose proof (Hout _ (mk_is_Some _ _ Hroot)) as Hroot_out.
    rewrite Hkept in Hroot by done.
    destruct (Hsub _ _ Hroot) as (? & ? & _). congruence.
  - by eapply reach_survives.
Qed.

Lemma rooted_deleteSubtree n st st' :
  rooted (nodes st) → proper_keys (nodes st) →
  deleteSubtree n st = Some st' → rooted (nodes st').
Proof.
  intros Hrooted Hkeys Hdel.
  destruct (deleteSubtree_spec n st) as (st1 & Hdel1 & _ & Hgone & Hkept).
  rewrite Hdel1 in Hdel. injection Hdel as <-.
  apply (rooted_removed (nodes st) (nodes st) (nodes st1) n); auto.
  - intros k n' Hk. eauto 10.
  - eauto.
Qed.

(** Pruning keeps the paths between retained nodes. *)
Lemma reach_pruned_from (m m' : gmap string Node) R r root x :
  (∀ y, y ∈ R ↔ reach m r y) →
  (∀ y, m' !! y = if decide (y ∈ R) then pruned R <$> m !! y else None) →
  reach m r root → reach m root x → reach m' root x.
Proof.
  intros HR Hm' Hroot.
  induction 1 as [Hr|y node c Hy IH Hnode Hc Hsome].
  - apply reach_refl. rewrite Hm', decide_True by by apply HR.
    by apply fmap_is_Some.
  - assert (y ∈ R) as HyR by (apply HR; by eapply reach_trans).
    assert (c ∈ R) as HcR.
    { apply HR. eapply reach_trans; [done|]. by eapply reach_child. }
    eapply reach_child; [done| | |].
    + by rewrite Hm', decide_True, Hnode.
    + simpl. by apply list_elem_of_filter.
    + rewrite Hm', decide_True by done. by apply fmap_is_Some.
Qed.

Lemma rooted_pruneToRoot r st ending st' :
  rooted (nodes st) → proper_keys (nodes st) →
  pruneToRoot r st = Some (ending, st') →
  rooted (nodes st').
Proof.
  intros Hrooted Hkeys [[_ ->]|(_ & _ & R & _ & HR & Hst1)]%pruneToRoot_inv;
    [done|].
  intros k node' Hk. rewrite Hst1 in Hk.
  destruct (decide (k ∈ R)) as [HkR|]; [|done].
  destruct (nodes st !! k) as [node|] eqn:Hnode; [|done].
  injection Hk as <-. simpl.
  destruct (Hrooted _ _ Hnode) as (rn & Hrn & Hne & Hproper & Hlineage).
  exists rn. do 2 (split; [done|]).
  destruct (decide (rn ∈ R)) as [HrootR|HrootR].
  - pose proof HrootR as [rootNode Hroot]%HR%reach_target. split.
    + rewrite Hst1, decide_True, Hroot by done. done.
    + right. destruct Hlineage as [Hmissing|Hreach]; [congruence|].
      eapply reach_pruned_from; [done|done| |done]. by apply HR.
  - split; [|left; by rewrite Hst1, decide_False]. intros _.
    destruct (nodes st !! rn) as [rootNode|] eqn:Hroot; [|by apply Hproper].
    apply Hkeys. eauto.
Qed.

(** What the DELETE handler leaves: the forest as it was, or the forest
    detached, swept and pruned. *)
Lemma delete_messages_inv targetId st res st' :
  delete_messages targetId st = Some (res, st') →
  st' = st ∨
  ∃ pid st2 root ending,
    deleteSubtree targetId (detachChild targetId pid st) = Some st2 ∧
    pruneToRoot root st2 = Some (ending, st').
Proof.
  unfold delete_messages. intros H.
  destruct (property (nodes st) targetId) as [[targetNode|name]|];
    [|left; by injection H as _ <-..].
  destruct (truthy (parentId targetNode)) as [pid|]; last first.
  { left. by injection H as _ <-. }
  right. exists pid.
  destruct (deleteSubtree targetId (detachChild targetId pid st))
    as [st2|]; [|done].
  simpl in H. exists st2. eexists.
  destruct (pruneToRoot _ st2) as [[ending st3]|] eqn:Hprune; [|done].
  simpl in H. exists ending. destruct ending; by injection H as _ <-.
Qed.

(** Every forest the store can hold is well formed, its children links agree
    with its parent ids, its cached root ids lead down to their nodes, and
    its keys name no inherited member. *)
Lemma built_invariants st :
  built st →
  well_formed st ∧ linked (nodes st) ∧ rooted (nodes st) ∧
  proper_keys (nodes st).
Proof.
  induction 1 as [|st uuid now r c pid _ (IHwf & IHl & IHr & IHk) Hfresh
                     Hproper Hpid Hreturns
                  |st r ending st' _ (IHwf & IHl & IHr & IHk) Hprune
                  |st n st' _ (IHwf & IHl & IHr & IHk) Hdel
                  |st targetId res st' _ (IHwf & IHl & IHr & IHk) Hdel].
  - split; [apply well_formed_empty|]. split; [by intros k node|].
    split; [by intros k node|]. by intros k [? ?].
  - split; [by apply well_formed_createNode|].
    split; [by apply linked_createNode|].
    split; [by apply rooted_createNode|by apply proper_keys_createNode].
  - pose proof (pruneToRoot_restricts _ _ _ _ Hprune).
    split; [by eapply well_formed_restricts|].
    split; [by eapply linked_restricts|].
    split; [by eapply rooted_pruneToRoot|by eapply proper_keys_restricts].
  - pose proof (deleteSubtree_restricts _ _ _ Hdel).
    split; [by eapply well_formed_restricts|].
    split; [by eapply linked_restricts|].
    split; [by eapply rooted_deleteSubtree|by eapply proper_keys_restricts].
  - apply delete_messages_inv in Hdel
      as [->|(pid & st2 & root & ending & Hsweep & Hprune)]; [done|].
    destruct (detachChild_nodes targetId pid st) as [Hsub Hdetached].
    pose proof (deleteSubtree_restricts _ _ _ Hsweep) as Hsub2.
    pose proof (pruneToRoot_restricts _ _ _ _ Hprune) as Hsub3.
    assert (restricts (nodes st) (nodes st2)) as Hsub12
      by (by eapply restricts_trans).
    assert (restricts (nodes st) (nodes st')) as Hall
      by (by eapply restricts_trans).
    split; [by eapply well_formed_restricts|].
    split; [by eapply linked_restricts|].
    split; [|by eapply proper_keys_restricts].
    apply (rooted_pruneToRoot root st2 ending st');
      [|by eapply proper_keys_restricts|done].
    destruct (deleteSubtree_spec targetId (detachChild targetId pid st))
      as (st2' & Hsweep' & _ & Hgone & Hkept).
    rewrite Hsweep in Hsweep'. injection Hsweep' as <-.
    by apply (rooted_removed (nodes st)
                (nodes (detachChild targetId pid st)) (nodes st2) targetId).
Qed.

Lemma built_invariant st :
  built st → well_formed st ∧ linked (nodes st) ∧ rooted (nodes st).
Proof. intros (? & ? & ? & _)%built_invariants. done. Qed.

Lemma built_proper_keys st : built st → proper_keys (nodes st).
Proof. intros H. by apply built_invariants. Qed.

Lemma built_well_formed st : built st → well_formed st.
Proof. intros H. by apply built_invariant. Qed.

(** ** A parent is outside the subtree of its child *)

Lemma tc_first {A} (R : relation A) x z :
  tc R x z → ∃ y, R x y ∧ rtc R y z.
Proof.
  inversion 1 as [? ? Hstep|? y ? Hstep Hrest]; subst.
  - exists z. split; [done|apply rtc_refl].
  - exists y. split; [done|]. by apply tc_rtc.
Qed.

(** No ascent that ends comes back to where it started. *)
Lemma ascent_ends_acyclic m v :
  ascent_ends m v → ∀ x, truthy v = Some x → ¬ tc (parent_of m) x x.
Proof.
  induction 1 as [v Hf|v c Hc Hnone|v c node Hc Hnode _ IH];
    intros x Hx Hcycle.
  - congruence.
  - assert (x = c) as -> by congruence.
    apply tc_first in Hcycle as (y & (n & Hn & _) & _). congruence.
  - assert (x = c) as -> by congruence.
    apply tc_first in Hcycle as (y & (node' & Hnode' & Hparent) & Hyc).
    assert (node' = node) as -> by congruence.
    apply (IH y Hparent).
    eapply tc_rtc_l; [done|]. apply tc_once. by exists node.
Qed.

(** Down a children link is up a parent id. *)
Lemma reach_parent_of m n x :
  linked m → m !! "" = None → reach m n x → rtc (parent_of m) x n.
Proof.
  intros Hlinked Hempty.
  induction 1 as [_|y node c _ IH Hy Hc [child Hchild]]; [apply rtc_refl|].
  eapply rtc_l; [|done]. exists child. split; [done|].
  rewrite (Hlinked _ _ _ _ Hy Hc Hchild). apply truthy_intro. congruence.
Qed.

(** In a forest the store can hold no node reaches its parent. *)
Lemma built_parent_outside st n node p :
  built st → nodes st !! n = Some node → truthy (parentId node) = Some p →
  ¬ reach (nodes st) n p.
Proof.
  intros ((Hkeyed & Hempty & Hends) & Hlinked & _)%built_invariant
    Hn Hp Hreach.
  apply (ascent_ends_acyclic _ _ (Hends (Some p)) p).
  { apply truthy_intro. by apply truthy_Some in Hp as [_ ?]. }
  eapply tc_rtc_l; [by apply reach_parent_of|].
  apply tc_once. by exists node.
Qed.

(** ** deleteSubtree does not detach *)

(** C5: [deleteSubtree n] removes from the mapping exactly [n] and the nodes
    reachable from [n] via children links, and leaves every other entry as it
    was; in a forest the store can hold the parent of [n] is such an entry,
    so its children list is what it was and still holds [n]. *)
Theorem deleteSubtree_removes_subtree n st :
  ∃ st', deleteSubtree n st = Some st' ∧
    (∀ x, reach (nodes st) n x → nodes st' !! x = None) ∧
    (∀ x, ¬ reach (nodes st) n x → nodes st' !! x = nodes st !! x) ∧
    (built st →
     ∀ node p parent,
       nodes st !! n = Some node → truthy (parentId node) = Some p →
       nodes st !! p = Some parent →
       nodes st' !! p = Some parent ∧
       (n ∈ children parent → ∃ parent', nodes st' !! p = Some parent' ∧
                                         n ∈ children parent')).
Proof.
  destruct (deleteSubtree_spec n st) as (st' & Hdel & _ & Hgone & Hkept).
  exists st'. split; [done|]. split; [done|]. split; [done|].
  intros Hbuilt node p parent Hn Hp Hparent.
  assert (nodes st' !! p = Some parent) as Hp'.
  { rewrite Hkept; [done|]. by eapply built_parent_outside. }
  split; [done|]. eauto.
Qed.

(** ** getNodePath on well-formed forests *)

(** C4, as the code has it: for an existing node of a well-formed forest
    (as every forest the store can hold is), [getNodePath] returns a path
    whose last element is the node, whose first element is a root or an
    orphan (a node whose parent id does not resolve), and in which each node
    is the parent of the next. *)
Theorem getNodePath_path st nodeId node :
  well_formed st → nodes st !! nodeId = Some node →
  ∃ path,
    (∃ enough, ∀ fuel, enough ≤ fuel →
       getNodePath fuel nodeId st = Some (own <$> path)) ∧
    last path = Some node ∧
    (∃ first, head path = Some first ∧
              (is_root first ∨ is_orphan (nodes st) first)) ∧
    (∀ i earlier later,
       path !! i = Some earlier → path !! S i = Some later →
       parentId later = Some (id earlier)) ∧
    (∀ a, a ∈ path → nodes st !! id a = Some a).
Proof.
  intros (Hkeyed & Hempty & Hends) Hnode.
  assert (nodeId ≠ "") as Hne by congruence.
  destruct (ascent_ends_ascent _ _ (Hends (Some nodeId))) as [chain Hasc].
  exists (reverse chain). split; [|split; [|split; [|split]]].
  - exists (length chain). apply getNodePath_ascent; [congruence|done].
  - rewrite last_reverse.
    inversion Hasc as [v Hv|v c Hv Hc|v c node' chain' Hv Hc Hasc']; subst.
    + by rewrite truthy_intro in Hv.
    + rewrite truthy_intro in Hv by done. congruence.
    + rewrite truthy_intro in Hv by done. simpl. congruence.
  - rewrite head_reverse.
    destruct (last chain) as [top|] eqn:Hlast.
    + exists top. split; [done|]. by eapply ascent_top.
    + apply last_None in Hlast. subst chain.
      inversion Hasc as [v Hv|v c Hv Hc|]; subst.
      * by rewrite truthy_intro in Hv.
      * rewrite truthy_intro in Hv by done. congruence.
  - intros i earlier later Hi HSi.
    destruct (reverse_consecutive _ _ _ _ Hi HSi) as (j & Hj & HSj).
    by eapply ascent_adjacent.
  - intros a Ha. rewrite elem_of_reverse in Ha.
    destruct (ascent_stored _ _ _ _ Hasc Ha) as [k Hk].
    by rewrite (Hkeyed _ _ Hk).
Qed.

Lemma getNodePath_path_witness :
  let st0 := (createNode "a" "t0" user "Hello" None emptyForest).2 in
  let st := (createNode "b" "t1" assistant "Hi there" (Some "a") st0).2 in
  let node := mkNode "b" assistant "Hi there" (Some "a") [] "t1" (Some "a") in
  ∃ path,
    (∃ enough, ∀ fuel, enough ≤ fuel →
       getNodePath fuel "b" st = Some (own <$> path)) ∧
    last path = Some node ∧
    (∃ first, head path = Some first ∧
              (is_root first ∨ is_orphan (nodes st) first)) ∧
    (∀ i earlier later,
       path !! i = Some earlier → path !! S i = Some later →
       parentId later = Some (id earlier)) ∧
    (∀ a, a ∈ path → nodes st !! id a = Some a).
Proof.
  intros st0 st node.
  apply (getNodePath_path st "b" node).
  - apply built_well_formed.
    created.
    created.
    apply built_empty.
  - by vm_compute.
Defined.

(** C4, as stated, fails: a node created under a parent id that does not
    resolve is an existing node whose path is the node alone, and that first
    element names a parent, so it is no root. *)
Lemma getNodePath_first_not_root :
  let st := (createNode "u1" "t0" user "Hello" (Some "ghost") emptyForest).2 in
  ∃ node, built st ∧ nodes st !! "u1" = Some node ∧
    (∀ fuel, getNodePath (S fuel) "u1" st = Some [own node]) ∧
    ¬ (∃ first, head [node] = Some first ∧ is_root first).
Proof.
  intros st.
  exists (mkNode "u1" user "Hello" (Some "ghost") [] "t0" (Some "u1")).
  split; [|split; [by vm_compute|split]].
  - created. apply built_empty.
  - intros fuel.
    apply (getNodePath_ascent st "u1" [_]); [by vm_compute| |simpl; lia].
    eapply ascent_through; [done|by vm_compute|].
    by apply ascent_at_missing with "ghost".
  - intros (first & Hhead & Hroot). simpl in Hhead. injection Hhead as <-.
    by vm_compute in Hroot.
Qed.

(** ** A node created under a parent id that does not resolve *)

(** What reaches an id is the id itself or a node that lists it as a child. *)
Lemma reach_inv m r x :
  reach m r x →
  x = r ∨ ∃ y node, m !! y = Some node ∧ x ∈ children node.
Proof. destruct 1; eauto. Qed.

(** C9, as the code has it: created under a truthy (non-null, non-empty)
    parent id under which the lookup finds nothing, the node is stored with
    its own id as root id, the root-id sequence and every other entry stay
    as they were, no children list holds its id, so no other id reaches it,
    and the next prune to another node that resolves removes it. *)
Theorem createNode_unresolved_parent st uuid now r c pid p :
  fresh st uuid → truthy pid = Some p → p ≠ uuid →
  property (nodes st) p = None →
  let st' := (createNode uuid now r c pid st).2 in
  ∃ node,
    (createNode uuid now r c pid st).1 = returned node ∧
    nodes st' !! uuid = Some node ∧ id node = uuid ∧
    rootId node = Some uuid ∧
    rootIds st' = rootIds st ∧ (uuid ∉ rootIds st') ∧
    (∀ k, k ≠ uuid → nodes st' !! k = nodes st !! k) ∧
    (∀ k n, nodes st' !! k = Some n → uuid ∉ children n) ∧
    (∀ x, x ≠ uuid → ¬ reach (nodes st') x uuid) ∧
    (∀ root, root ∈ rootIds st' → ¬ reach (nodes st') root uuid) ∧
    (∀ x, x ≠ uuid → is_Some (nodes st' !! x) →
       ∃ st'', pruneToRoot x st' = Some (returned (), st'') ∧
               nodes st'' !! uuid = None).
Proof.
  intros Hfresh Hp Hne [Hmissing Hout]%property_None st'. subst st'.
  rewrite (createNode_dangling _ _ _ _ _ _ _ Hp Hmissing Hne Hout). simpl.
  set (node := mkNode uuid r c pid [] now (Some uuid)).
  assert (∀ k n, <[uuid:=node]> (nodes st) !! k = Some n → uuid ∉ children n)
    as Hchildren.
  { intros k n [[<- <-]|[_ Hk]]%lookup_insert_Some.
    - apply not_elem_of_nil.
    - by eapply fresh_children. }
  assert (∀ x, x ≠ uuid → ¬ reach (<[uuid:=node]> (nodes st)) x uuid)
    as Hunreach.
  { intros x Hx [?|(y & ny & Hy & Hin)]%reach_inv; [done|].
    by eapply Hchildren. }
  exists node. split; [done|].
  split; [by rewrite lookup_insert_eq|].
  do 3 (split; [done|]).
  split; [by eapply fresh_roots|].
  split; [intros k Hk; by rewrite lookup_insert_ne|].
  split; [done|]. split; [done|]. split.
  - intros root Hroot. apply Hunreach. intros ->.
    by eapply fresh_roots.
  - intros x Hx Hsome.
    destruct (pruneToRoot_spec x (mkForest (<[uuid:=node]> (nodes st))
                                           (rootIds st)) Hsome)
      as (R & st'' & Hprune & _ & HR & Hst'').
    exists st''. split; [done|]. rewrite Hst''.
    rewrite decide_False; [done|]. rewrite HR. by apply Hunreach.
Qed.

Lemma createNode_unresolved_parent_witness :
  let st := (createNode "a" "t0" user "Hello" None emptyForest).2 in
  let st' := (createNode "o" "t1" user "Lost" (Some "ghost") st).2 in
  ∃ node,
    (createNode "o" "t1" user "Lost" (Some "ghost") st).1 = returned node ∧
    nodes st' !! "o" = Some node ∧ id node = "o" ∧
    rootId node = Some "o" ∧
    rootIds st' = rootIds st ∧ ("o" ∉ rootIds st') ∧
    (∀ k, k ≠ "o" → nodes st' !! k = nodes st !! k) ∧
    (∀ k n, nodes st' !! k = Some n → "o" ∉ children n) ∧
    (∀ x, x ≠ "o" → ¬ reach (nodes st') x "o") ∧
    (∀ root, root ∈ rootIds st' → ¬ reach (nodes st') root "o") ∧
    (∀ x, x ≠ "o" → is_Some (nodes st' !! x) →
       ∃ st'', pruneToRoot x st' = Some (returned (), st'') ∧
               nodes st'' !! "o" = None).
Proof.
  intros st.
  apply (createNode_unresolved_parent st "o" "t1" user "Lost" (Some "ghost")
           "ghost").
  - by_evaluation.
  - reflexivity.
  - done.
  - by vm_compute.
Defined.

(** C9, as stated, fails: the empty string is a non-null parent id that does
    not resolve, and the node created under it is appended to the root-id
    sequence, where it is reachable from a root, itself. *)
Lemma createNode_empty_parentId_is_rooted :
  let pid := Some "" in
  let st := emptyForest in
  let st' := (createNode "u1" "t0" user "Hello" pid st).2 in
  pid ≠ None ∧ nodes st !! "" = None ∧ fresh st "u1" ∧
  rootIds st' = rootIds st ++ ["u1"] ∧ rootIds st' ≠ rootIds st ∧
  ∃ root, root ∈ rootIds st' ∧ reach (nodes st') root "u1".
Proof.
  intros pid st st'.
  split; [done|]. split; [done|]. split; [by_evaluation|].
  split; [done|]. split; [done|].
  exists "u1". split; [by_evaluation|].
  apply reach_refl. by_evaluation.
Qed.


(** ** POST /messages *)

Lemma createNode_rootIds uuid now r c pid st :
  rootIds (createNode uuid now r c pid st).2 =
    match truthy pid with
    | Some _ => rootIds st
    | None => rootIds st ++ [uuid]
    end.
Proof.
  unfold createNode. simpl. destruct (truthy pid) as [p|]; [|done].
  by destruct (property (<[uuid:=_]> (nodes st)) p) as [[?|?]|].
Qed.

(** An identifier not in use stays so when another one is drawn. *)
Lemma fresh_createNode uuid now r c pid st a :
  fresh st uuid → pid ≠ Some uuid →
  fresh st a → a ≠ uuid → pid ≠ Some a →
  fresh (createNode uuid now r c pid st).2 a.
Proof.
  intros Hfresh Hpid Ha Hau Hpa.
  destruct (createNode_nodes uuid now r c pid st Hfresh Hpid)
    as ((new & Hnew & Hid & _ & _ & Hparent & Hchildless & Hroot) &
        _ & Hfrom & Hnone).
  split; [by eapply fresh_truthy|]. split; [|split].
  - apply Hnone; [done|]. by apply fresh_nodes.
  - rewrite createNode_rootIds. pose proof (fresh_roots _ _ Ha) as Hroots.
    destruct (truthy pid); [done|].
    intros [?| ->%list_elem_of_singleton]%elem_of_app; done.
  - intros k node' Hk. destruct (decide (k = uuid)) as [->|Hku].
    + rewrite Hnew in Hk. injection Hk as <-.
      rewrite Hid, Hparent, Hchildless.
      split; [done|]. split; [apply not_elem_of_nil|]. split; [done|].
      destruct Hroot
        as [->|[(p & parent & _ & _ & Hp & -> & _)|[-> _]]];
        [congruence| |done].
      intros [= Heq]. unfold or_else in Heq.
      destruct (truthy (rootId parent)) as [rp|] eqn:Hrp.
      * apply truthy_Some in Hrp as [Hrp _]. subst rp.
        by apply (fresh_rootId _ _ _ _ Ha Hp).
      * by apply (fresh_id _ _ _ _ Ha Hp).
    + destruct (Hfrom _ _ Hk Hku)
        as (node & Hnode & -> & -> & -> & Hchildren).
      split; [by eapply fresh_id|]. split; [|split].
      * intros [Hin|[? _]]%Hchildren; [|done].
        by eapply fresh_children.
      * by eapply fresh_parent.
      * by eapply fresh_rootId.
Qed.

(** Past its checks the handler creates the user node and goes on with
    the exchange. *)
Lemma post_messages_exchange fuel env body st text :
  body_content body = Some text → text ≠ "" →
  accepted_parent st (body_parentId body) →
  let created :=
    createNode (user_uuid env) (user_now env) user text
               (body_parentId body) st in
  ∃ userNode,
    created.1 = returned userNode ∧
    post_messages fuel env body st = exchange fuel env userNode created.2.
Proof.
  intros Htext Hne Hparent created. subst created.
  unfold post_messages, accepted_parent in *.
  rewrite Htext, decide_False by done.
  destruct (truthy (body_parentId body)) as [p|] eqn:Hp.
  - destruct Hparent as (parentNode & Hparent & Hrole).
    rewrite (property_own _ _ _ Hparent), decide_True by done.
    destruct (decide (p = user_uuid env)) as [->|Hpu].
    + unfold createNode. rewrite Hp, (property_own _ _ _ Hparent).
      rewrite (property_own _ _ _ (lookup_insert_eq _ _ _)). simpl. eauto.
    + rewrite (createNode_attached _ _ _ _ _ _ _ _ Hp Hparent Hpu). eauto.
  - rewrite createNode_rootless by done. eauto.
Qed.

(** No usable text means the fallback text. *)
Lemma fallback_when_unusable reply :
  truthy reply = None → or_else reply fallback_text = fallback_text.
Proof. intros H. unfold or_else. by rewrite H. Qed.

(** The messages read off a path of stored nodes. *)
Lemma request_of_own contextPath :
  mkMessage system_role system_prompt :: map message_of (own <$> contextPath)
  = request_of contextPath.
Proof.
  unfold request_of. f_equal. induction contextPath as [|node l IH]; [done|].
  rewrite fmap_cons. cbn [map message_of]. by rewrite IH.
Qed.

(** The forest of the handler once the user node is stored. *)
Lemma post_user_node env body st text :
  let uid := user_uuid env in
  let aid := assistant_uuid env in
  built st → fresh st uid → fresh st aid → uid ≠ aid →
  accepted_parent st (body_parentId body) →
  let created :=
    createNode uid (user_now env) user text (body_parentId body) st in
  body_parentId body ≠ Some uid ∧
  well_formed created.2 ∧ fresh created.2 aid ∧
  ∃ userNode root,
    created.1 = returned userNode ∧
    nodes created.2 !! uid = Some userNode ∧
    id userNode = uid ∧ role userNode = user ∧ content userNode = text ∧
    parentId userNode = body_parentId body ∧ children userNode = [] ∧
    rootId userNode = Some root ∧ root ≠ "" ∧ root ≠ aid ∧
    (nodes created.2 !! root = None → root ∉ Object_prototype) ∧
    (nodes created.2 !! root = None ∨ reach (nodes created.2) root uid).
Proof.
  intros uid aid Hbuilt Hfu Hfa Hua Hparent created.
  pose proof (fresh_truthy _ _ Hfu) as Huid.
  assert (body_parentId body ≠ Some uid) as Hpid.
  { intros Heq. unfold accepted_parent in Hparent.
    rewrite Heq, truthy_intro in Hparent by done.
    destruct Hparent as (? & Hp & _).
    rewrite (fresh_nodes _ _ Hfu) in Hp. done. }
  assert (body_parentId body ≠ Some aid) as Hpid'.
  { intros Heq. unfold accepted_parent in Hparent.
    rewrite Heq, truthy_intro in Hparent by by eapply fresh_truthy.
    destruct Hparent as (? & Hp & _).
    rewrite (fresh_nodes _ _ Hfa) in Hp. done. }
  assert (returns created.1) as Hreturns.
  { apply createNode_returns; [done|]. intros p Hp Hnone.
    unfold accepted_parent in Hparent. rewrite Hp in Hparent.
    destruct Hparent as (? & ? & _). congruence. }
  destruct (built_invariant _ Hbuilt) as (Hwf & _ & Hrooted).
  assert (rooted (nodes created.2)) as Hrooted1
    by (by apply rooted_createNode).
  split; [done|]. split; [by apply well_formed_createNode|].
  split; [by apply fresh_createNode|].
  destruct (createNode_nodes uid (user_now env) user text
              (body_parentId body) st Hfu Hpid)
    as ((userNode & Hu & Hid & Hrole & Hcontent & Hparent' & Hchildless &
         _) & _).
  fold created in Hu.
  destruct (Hrooted1 _ _ Hu) as (root & Hroot & Hne & Hproper & Hlineage).
  exists userNode, root.
  split.
  { destruct created.1 as [node|] eqn:Hfst; [|done].
    apply createNode_stored in Hfst. fold created in Hfst. congruence. }
  do 8 (split; [done|]). split; [|done].
  intros ->. by apply (fresh_rootId _ _ _ _ (fresh_createNode _ _ _ _ _ _ _
                         Hfu Hpid Hfa (not_eq_sym Hua) Hpid') Hu).
Qed.

(** The exchange on a forest that holds the user node, childless so far.
    The completion is requested once.  When it rejects, the handler answers
    500 and leaves the forest as it is.  When it resolves without usable
    text, the assistant node carries the fallback text under the user node,
    and both are in the forest after the prune. *)
Lemma exchange_spec fuel env userNode st1 chain :
  let uid := id userNode in
  let aid := assistant_uuid env in
  let root := or_else (rootId userNode) uid in
  uid ≠ "" → nodes st1 !! uid = Some userNode → children userNode = [] →
  ascent (nodes st1) (Some uid) chain → length chain ≤ fuel →
  nodes st1 !! aid = None → root ≠ aid →
  (nodes st1 !! root = None → root ∉ Object_prototype) →
  nodes st1 !! root = None ∨ reach (nodes st1) root uid →
  ∃ out,
    exchange fuel env userNode st1 = Some out ∧
    requests out = [request_of (reverse chain)] ∧
    match provider env (request_of (reverse chain)) with
    | Rejects message =>
        response out = Error 500 "Failed to process message." (Some message) ∧
        final out = st1
    | Resolves reply =>
        truthy reply = None →
        let assistantNode :=
          mkNode aid assistant fallback_text (Some uid) []
                 (assistant_now env) (Some root) in
        let userNode' := with_children userNode [aid] in
        response out = Json userNode' assistantNode (final out) ∧
        nodes (final out) !! uid = Some userNode' ∧
        nodes (final out) !! aid = Some assistantNode
    end.
Proof.
  intros uid aid root Huid Hu Hchildless Hasc Hfuel Haid Hroot Hproper
    Hlineage.
  assert (uid ≠ aid) as Hne by (intros Heq; congruence).
  unfold exchange. fold uid.
  assert (getNodePath fuel uid st1 = Some (own <$> reverse chain)) as ->
    by (apply getNodePath_ascent; [congruence|done|done]).
  cbn [mbind option_bind]. rewrite request_of_own.
  destruct (provider env (request_of (reverse chain))) as [message|reply] eqn:Hp.
  { by eexists. }
  destruct (decide (truthy reply = None)) as [Hreply|Hreply]; last first.
  { destruct (createNode _ _ _ _ _ _) as [[assistantNode|message] st2];
      [|by eexists].
    destruct (pruneToRoot_total (key (getRootId uid st2)) st2)
      as ([] & st3 & ->); by eexists. }
  rewrite (fallback_when_unusable _ Hreply).
  rewrite (createNode_attached _ _ _ _ _ _ uid userNode
             (truthy_intro _ Huid) Hu Hne).
  rewrite Hchildless. simpl. fold uid aid root.
  set (assistantNode :=
         mkNode aid assistant fallback_text (Some uid) [] (assistant_now env)
                (Some root)).
  set (userNode' := with_children userNode [aid]).
  set (m2 := <[uid:=userNode']> (<[aid:=assistantNode]> (nodes st1))).
  assert (m2 !! uid = Some userNode') as Hu2 by apply lookup_insert_eq.
  assert (m2 !! aid = Some assistantNode) as Ha2.
  { unfold m2. rewrite lookup_insert_ne by done. apply lookup_insert_eq. }
  assert (getRootId uid (mkForest m2 (rootIds st1)) = Some root) as ->.
  { unfold getRootId. simpl. by rewrite (property_own _ _ _ Hu2). }
  rewrite Hu2. simpl.
  destruct (m2 !! root) as [rootNode|] eqn:Hrootnode; last first.
  { rewrite pruneToRoot_missing; last first.
    { apply property_missing; [done|]. apply Hproper.
      unfold m2 in Hrootnode.
      apply lookup_insert_None in Hrootnode as [Hrootnode _].
      by apply lookup_insert_None in Hrootnode as [Hrootnode _]. }
    simpl. eexists. split; [done|]. split; [done|]. by intros _. }
  assert (reach m2 root uid) as Hreach.
  { destruct Hlineage as [Hnone|Hreach].
    - assert (root = uid) as ->; [|apply reach_refl; eauto].
      unfold m2 in Hrootnode.
      apply lookup_insert_Some in Hrootnode as [[? _]|[_ Hr]]; [done|].
      apply lookup_insert_Some in Hr as [[? _]|[_ Hr]]; congruence.
    - revert Hreach. apply reach_mono. intros k n1 Hk.
      destruct (decide (k = uid)) as [->|Hku].
      + exists userNode'. split; [done|].
        intros c Hc. rewrite Hu in Hk. injection Hk as <-.
        rewrite Hchildless in Hc. by apply elem_of_nil in Hc.
      + exists n1. split; [|done]. unfold m2.
        rewrite !lookup_insert_ne; [done|congruence|done]. }
  assert (reach m2 root aid) as Hreach'.
  { eapply reach_child; [done|done| |eauto]. simpl. left. }
  destruct (pruneToRoot_spec root (mkForest m2 (rootIds st1)))
    as (R & st3 & -> & _ & HR & Hst3); [simpl; eauto|].
  simpl. eexists. split; [done|]. split; [done|]. intros _.
  simpl. split; [done|].
  rewrite !Hst3. simpl. rewrite !decide_True by by apply HR.
  rewrite Hu2, Ha2. simpl. unfold pruned, userNode'. simpl.
  rewrite filter_cons_True by by apply HR. done.
Qed.

(** C8, as the code has it: a post-message request that passes the
    handler's checks, on a forest the store can hold, issues one completion
    request, and the user node is in the forest afterwards.  When the
    completion resolves without usable text, the handler puts the fixed
    fallback text in its place: an assistant node carrying it is created
    under the user node, and both are in the forest that is returned.  When
    the completion call rejects, the handler answers 500 and no assistant
    node is created. *)
Theorem post_messages_provider_failure env body st text :
  let uid := user_uuid env in
  let aid := assistant_uuid env in
  built st → fresh st uid → fresh st aid → uid ≠ aid →
  body_content body = Some text → text ≠ "" →
  accepted_parent st (body_parentId body) →
  ∃ enough contextPath, ∀ fuel, enough ≤ fuel →
    ∃ out,
      post_messages fuel env body st = Some out ∧
      requests out = [request_of contextPath] ∧
      match provider env (request_of contextPath) with
      | Rejects message =>
          response out
            = Error 500 "Failed to process message." (Some message) ∧
          nodes (final out) !! aid = None ∧
          ∃ userNode,
            nodes (final out) !! uid = Some userNode ∧
            role userNode = user ∧ content userNode = text ∧
            parentId userNode = body_parentId body
      | Resolves reply =>
          truthy reply = None →
          ∃ userNode assistantNode,
            response out = Json userNode assistantNode (final out) ∧
            nodes (final out) !! uid = Some userNode ∧
            role userNode = user ∧ content userNode = text ∧
            parentId userNode = body_parentId body ∧
            children userNode = [aid] ∧
            nodes (final out) !! aid = Some assistantNode ∧
            id assistantNode = aid ∧ role assistantNode = assistant ∧
            content assistantNode = fallback_text ∧
            parentId assistantNode = Some uid
      end.
Proof.
  intros uid aid Hbuilt Hfu Hfa Hua Htext Hne Hparent.
  pose proof (fresh_truthy _ _ Hfu) as Huid.
  destruct (post_user_node env body st text Hbuilt Hfu Hfa Hua Hparent)
    as (Hpid & (_ & _ & Hends) & Hfa1 & userNode & root & Hfst & Hu & Hid &
        Hrole & Hcontent & Hparent' & Hchildless & Hrootid & Hroot_ne &
        Hroota & Hproper & Hlineage).
  subst uid aid. cbv zeta in *.
  set (created := createNode (user_uuid env) (user_now env) user text
                             (body_parentId body) st) in *.
  destruct (ascent_ends_ascent _ _ (Hends (Some (user_uuid env))))
    as [chain Hasc].
  exists (length chain), (reverse chain). intros fuel Hfuel.
  destruct (post_messages_exchange fuel env body st text Htext Hne Hparent)
    as (userNode' & Hfst' & ->).
  fold created in Hfst' |- *.
  assert (userNode' = userNode) as -> by congruence.
  assert (or_else (rootId userNode) (id userNode) = root) as Hrooteq
    by (by rewrite Hrootid, or_else_truthy).
  pose proof (fresh_nodes _ _ Hfa1) as Hnone.
  rewrite <- Hid in Huid, Hu, Hasc, Hlineage.
  destruct (exchange_spec fuel env userNode created.2 chain
              Huid Hu Hchildless Hasc Hfuel Hnone)
    as (out & Hout & Hreq & Hcases); [by rewrite Hrooteq..|].
  exists out. split; [done|]. split; [done|].
  destruct (provider env (request_of (reverse chain))) as [message|reply].
  - destruct Hcases as [Hresp ->]. split; [done|]. split; [done|].
    exists userNode. by rewrite <- Hid.
  - intros Hreply. destruct (Hcases Hreply) as (Hresp & Hu' & Ha').
    eexists _, _. split; [done|]. rewrite <- Hid at 1. split; [done|].
    simpl. rewrite Hid. rewrite Hid in Ha'. by repeat split.
Qed.

Lemma post_messages_provider_failure_witness :
  let env := mkPostEnv "u1" "t2" "a1" "t3" (λ _, Resolves None) in
  let body := mkPostBody (Some "And then?") (Some "b") in
  let st0 := (createNode "a" "t0" user "Hello" None emptyForest).2 in
  let st := (createNode "b" "t1" assistant "Hi there" (Some "a") st0).2 in
  ∃ enough contextPath, ∀ fuel, enough ≤ fuel →
    ∃ out,
      post_messages fuel env body st = Some out ∧
      requests out = [request_of contextPath] ∧
      match provider env (request_of contextPath) with
      | Rejects message =>
          response out
            = Error 500 "Failed to process message." (Some message) ∧
          nodes (final out) !! "a1" = None ∧
          ∃ userNode,
            nodes (final out) !! "u1" = Some userNode ∧
            role userNode = user ∧ content userNode = "And then?" ∧
            parentId userNode = body_parentId body
      | Resolves reply =>
          truthy reply = None →
          ∃ userNode assistantNode,
            response out = Json userNode assistantNode (final out) ∧
            nodes (final out) !! "u1" = Some userNode ∧
            role userNode = user ∧ content userNode = "And then?" ∧
            parentId userNode = body_parentId body ∧
            children userNode = ["a1"] ∧
            nodes (final out) !! "a1" = Some assistantNode ∧
            id assistantNode = "a1" ∧ role assistantNode = assistant ∧
            content assistantNode = fallback_text ∧
            parentId assistantNode = Some "u1"
      end.
Proof.
  intros env body st0 st.
  apply (post_messages_provider_failure env body st "And then?").
  - created.
    created.
    apply built_empty.
  - by_evaluation.
  - by_evaluation.
  - done.
  - reflexivity.
  - done.
  - exists (mkNode "b" assistant "Hi there" (Some "a") [] "t1" (Some "a")).
    split; [by vm_compute|done].
Defined.

(** C8, as stated, fails: when the completion call rejects, the handler
    answers 500 and creates no assistant node; the forest holds the user
    node alone. *)
Lemma post_messages_rejected_no_assistant :
  let env := mkPostEnv "u1" "t0" "a1" "t1" (λ _, Rejects "timeout") in
  let body := mkPostBody (Some "Hello") None in
  let userNode := mkNode "u1" user "Hello" None [] "t0" (Some "u1") in
  ∃ out,
    post_messages 1 env body emptyForest = Some out ∧
    response out = Error 500 "Failed to process message." (Some "timeout") ∧
    nodes (final out) = {[ "u1" := userNode ]} ∧
    ¬ ∃ k assistantNode,
        nodes (final out) !! k = Some assistantNode ∧
        role assistantNode = assistant.
Proof.
  intros env body userNode.
  exists (mkOutcome
            (Error 500 "Failed to process message." (Some "timeout"))
            (mkForest {[ "u1" := userNode ]} ["u1"])
            [request_of [userNode]]).
  split; [by vm_compute|]. split; [done|]. split; [done|].
  intros (k & assistantNode & Hk & Hrole). simpl in Hk.
  apply lookup_singleton_Some in Hk as [_ <-]. done.
Qed.

(** ** Scenarios *)

(** Scenario A: the path of the assistant reply to a root message. *)
Example scenario_A :
  let st0 := (createNode "a" "t0" user "Hello" None emptyForest).2 in
  let st := (createNode "b" "t1" assistant "Hi there" (Some "a") st0).2 in
  map message_of <$> getNodePath 2 "b" st
    = Some [mkMessage (node_role user) "Hello";
            mkMessage (node_role assistant) "Hi there"].
Proof. by vm_compute. Qed.

(** Scenario B: pruning to the second root leaves its subtree alone. *)
Example scenario_B :
  let st0 := (createNode "a" "t0" user "Topic A" None emptyForest).2 in
  let st1 := (createNode "b" "t1" assistant "Reply A" (Some "a") st0).2 in
  let st2 := (createNode "c" "t2" user "Topic B" None st1).2 in
  let st := (createNode "d" "t3" assistant "Reply B" (Some "c") st2).2 in
  pruneToRoot "c" st =
    Some (returned (),
          mkForest
            {[ "c" := mkNode "c" user "Topic B" None ["d"] "t2" (Some "c");
               "d" := mkNode "d" assistant "Reply B" (Some "c") [] "t3"
                             (Some "c") ]}
            ["c"]).
Proof. by vm_compute. Qed.

(** Scenario C: deleting a node with two descendants removes the three and
    unlists the node from its parent. *)
Example scenario_C :
  let st0 := (createNode "a" "t0" user "Hello" None emptyForest).2 in
  let st1 := (createNode "b" "t1" assistant "Hi there" (Some "a") st0).2 in
  let st2 := (createNode "c" "t2" user "And then?" (Some "b") st1).2 in
  let st := (createNode "d" "t3" assistant "Then this" (Some "c") st2).2 in
  let st' :=
    mkForest {[ "a" := mkNode "a" user "Hello" None [] "t0" (Some "a") ]}
             ["a"] in
  delete_messages "b" st = Some (State st', st').
Proof. by vm_compute. Qed.

(** Scenario D: deleting a root is rejected and the forest stays as it is. *)
Example scenario_D :
  let st0 := (createNode "a" "t0" user "Hello" None emptyForest).2 in
  let st := (createNode "b" "t1" assistant "Hi there" (Some "a") st0).2 in
  delete_messages "a" st
    = Some (Error 400 "Root messages cannot be deleted." None, st).
Proof. by vm_compute. Qed.

(** * Further properties of the store and its callers *)

(** ** The cached root id *)

(** The root id [createNode] caches in the new node. *)
Lemma createNode_new_root uuid now r c pid st :
  pid ≠ Some uuid →
  let m' := nodes (createNode uuid now r c pid st).2 in
  ∃ node,
    m' !! uuid = Some node ∧ parentId node = pid ∧
    match truthy pid with
    | None => rootId node = Some uuid
    | Some p =>
        match nodes st !! p with
        | None =>
            (rootId node = Some uuid ∨ rootId node = None) ∧
            (nodes st !! uuid = None → m' !! p = None)
        | Some parent =>
            rootId node = Some (or_else (rootId parent) (id parent))
        end
    end.
Proof.
  intros Hpid m'. subst m'.
  destruct (truthy pid) as [p|] eqn:Hp.
  - assert (p ≠ uuid) as Hpu.
    { apply truthy_Some in Hp as [-> _]. congruence. }
    destruct (nodes st !! p) as [parent|] eqn:Hparent.
    + rewrite (createNode_attached _ _ _ _ _ _ _ _ Hp Hparent Hpu). simpl.
      eexists. rewrite lookup_insert_ne, lookup_insert_eq by done. done.
    + destruct (decide (p ∈ Object_prototype)) as [Hin|Hout].
      * rewrite (createNode_inherited _ _ _ _ _ _ _ Hp Hparent Hpu Hin).
        simpl. eexists. rewrite lookup_insert_eq.
        do 2 (split; [done|]). split; [by right|]. intros _.
        by rewrite lookup_insert_ne.
      * rewrite (createNode_dangling _ _ _ _ _ _ _ Hp Hparent Hpu Hout).
        simpl. eexists. rewrite lookup_insert_eq.
        do 2 (split; [done|]). split; [by left|]. intros _.
        by rewrite lookup_insert_ne.
  - rewrite createNode_rootless by done. simpl.
    eexists. by rewrite lookup_insert_eq.
Qed.

Lemma root_cached_createNode uuid now r c pid st :
  rooted (nodes st) → root_cached (nodes st) →
  fresh st uuid → pid ≠ Some uuid →
  root_cached (nodes (createNode uuid now r c pid st).2).
Proof.
  intros Hrooted Hcached Hfresh Hpid.
  destruct (createNode_nodes uuid now r c pid st Hfresh Hpid)
    as (_ & Hold & Hfrom & Hnone).
  destruct (createNode_new_root uuid now r c pid st Hpid)
    as (new & Hnew & Hparent & Hroot).
  intros k node' Hk. destruct (decide (k = uuid)) as [->|Hku].
  - assert (node' = new) as -> by congruence.
    rewrite Hparent.
    destruct (truthy pid) as [p|] eqn:Hp; [|done].
    intros parent' Hp'.
    destruct (nodes st !! p) as [parent|] eqn:Hparent0.
    + destruct (Hold _ _ Hparent0) as (n' & Hn' & _ & _ & Heq & _).
      rewrite Hp' in Hn'. injection Hn' as <-. rewrite Hroot, Heq.
      destruct (Hrooted _ _ Hparent0) as (rp & -> & Hne & _).
      by rewrite or_else_truthy.
    + destruct Hroot as [_ Hgone].
      rewrite Hgone in Hp'; [done|]. by apply fresh_nodes.
  - destruct (Hfrom _ _ Hk Hku) as (node & Hnode & _ & -> & -> & _).
    pose proof (Hcached _ _ Hnode) as Hc.
    destruct (truthy (parentId node)) as [p|] eqn:Hp; [|done].
    intros parent' Hp'.
    assert (p ≠ uuid) as Hpu.
    { intros ->. apply truthy_Some in Hp as [Hp _].
      by eapply fresh_parent. }
    destruct (Hfrom _ _ Hp' Hpu) as (parent & Hparent0 & _ & _ & -> & _).
    by apply Hc.
Qed.

Lemma root_cached_restricts (m m' : gmap string Node) :
  restricts m m' → root_cached m → root_cached m'.
Proof.
  intros Hsub Hcached k node' Hk.
  destruct (Hsub _ _ Hk) as (node & Hnode & _ & -> & -> & _).
  pose proof (Hcached _ _ Hnode) as Hc.
  destruct (truthy (parentId node)) as [p|]; [|done].
  intros parent' Hp'.
  destruct (Hsub _ _ Hp') as (parent & Hparent & _ & _ & -> & _).
  by apply Hc.
Qed.

(** What the DELETE handler leaves holds some of the nodes there were. *)
Lemma delete_messages_restricts targetId st res st' :
  delete_messages targetId st = Some (res, st') →
  restricts (nodes st) (nodes st').
Proof.
  intros [->|(pid & st2 & root & ending & Hsweep & Hprune)]
    %delete_messages_inv.
  - intros k n' Hk. eauto 10.
  - destruct (detachChild_nodes targetId pid st) as [Hsub _].
    eapply restricts_trans; [|by eapply pruneToRoot_restricts].
    eapply restricts_trans; [done|]. by eapply deleteSubtree_restricts.
Qed.

Lemma built_root_cached st : built st → root_cached (nodes st).
Proof.
  induction 1 as [|st uuid now r c pid Hbuilt IH Hfresh Hproper Hpid Hreturns
                  |st r ending st' _ IH Hprune
                  |st n st' _ IH Hdel
                  |st targetId res st' _ IH Hdel].
  - by intros k node.
  - apply root_cached_createNode; [|done|done|done].
    by apply built_invariant.
  - eapply root_cached_restricts; [|done]. by eapply pruneToRoot_restricts.
  - eapply root_cached_restricts; [|done]. by eapply deleteSubtree_restricts.
  - eapply root_cached_restricts; [|done].
    by eapply delete_messages_restricts.
Qed.

(** X1: on a forest the store can hold, [getRootId] of an id that is not
    stored is the id itself, but [undefined] when the id names a member of
    [Object.prototype]; for a stored node it is the cached root id, which
    is not empty, names no such member and, when the mapping still holds a
    node under it, leads down to the node via children links. *)
Theorem getRootId_cached st :
  built st →
  (∀ k, nodes st !! k = None →
     getRootId k st
       = if decide (k ∈ Object_prototype) then None else Some k) ∧
  (∀ k node, nodes st !! k = Some node →
     ∃ root,
       getRootId k st = Some root ∧ rootId node = Some root ∧
       root ≠ "" ∧ (root ∉ Object_prototype) ∧
       (nodes st !! root = None ∨ reach (nodes st) root k)).
Proof.
  intros (_ & _ & Hrooted & Hkeys)%built_invariants. split.
  - intros k Hk. unfold getRootId, property. rewrite Hk.
    by destruct (decide (k ∈ Object_prototype)).
  - intros k node Hk.
    destruct (Hrooted _ _ Hk) as (root & Hroot & Hne & Hproper & Hlineage).
    exists root. unfold getRootId. rewrite (property_own _ _ _ Hk), Hroot.
    rewrite or_else_truthy by done. do 3 (split; [done|]).
    split; [|done].
    destruct (nodes st !! root) as [rootNode|] eqn:Hrootnode;
      [apply Hkeys; eauto|by apply Hproper].
Qed.

Lemma getRootId_cached_witness :
  let st0 := (createNode "a" "t0" user "Hello" None emptyForest).2 in
  let st := (createNode "b" "t1" assistant "Hi there" (Some "a") st0).2 in
  (∀ k, nodes st !! k = None →
     getRootId k st
       = if decide (k ∈ Object_prototype) then None else Some k) ∧
  (∀ k node, nodes st !! k = Some node →
     ∃ root,
       getRootId k st = Some root ∧ rootId node = Some root ∧
       root ≠ "" ∧ (root ∉ Object_prototype) ∧
       (nodes st !! root = None ∨ reach (nodes st) root k)).
Proof.
  intros st0 st. apply (getRootId_cached st).
  created.
  created.
  apply built_empty.
Defined.

(** X2: [createNode] with an identifier not in use leaves [getRootId] of
    every stored node as it was; the new node has the root of its parent
    when the parent resolves, and is its own root otherwise. *)
Theorem getRootId_createNode st uuid now r c pid :
  built st → fresh st uuid → pid ≠ Some uuid →
  let st' := (createNode uuid now r c pid st).2 in
  (∀ k, is_Some (nodes st !! k) → getRootId k st' = getRootId k st) ∧
  getRootId uuid st' =
    match truthy pid with
    | Some p =>
        match nodes st !! p with
        | Some _ => getRootId p st
        | None => Some uuid
        end
    | None => Some uuid
    end.
Proof.
  intros Hbuilt Hfresh Hpid st'. subst st'.
  destruct (built_invariant _ Hbuilt) as (_ & _ & Hrooted).
  destruct (createNode_nodes uuid now r c pid st Hfresh Hpid)
    as ((new0 & Hnew0 & Hnewid & _) & Hold & _).
  destruct (createNode_new_root uuid now r c pid st Hpid)
    as (new & Hnew & _ & Hroot).
  assert (new0 = new) as -> by congruence.
  pose proof (fresh_truthy _ _ Hfresh) as Huuid.
  split.
  - intros k [node Hk].
    destruct (Hold _ _ Hk) as (node' & Hk' & Hid & _ & Hr & _).
    unfold getRootId.
    by rewrite (property_own _ _ _ Hk), (property_own _ _ _ Hk'), Hid, Hr.
  - unfold getRootId at 1. rewrite (property_own _ _ _ Hnew), Hnewid.
    destruct (truthy pid) as [p|].
    + destruct (nodes st !! p) as [parent|] eqn:Hp.
      * rewrite Hroot. unfold getRootId. rewrite (property_own _ _ _ Hp).
        destruct (Hrooted _ _ Hp) as (rp & -> & Hne & _).
        rewrite (or_else_truthy rp) by done. by rewrite or_else_truthy.
      * destruct Hroot as [[-> | ->] _]; [by rewrite or_else_truthy|done].
    + rewrite Hroot. by rewrite or_else_truthy.
Qed.

Lemma getRootId_createNode_witness :
  let st := (createNode "a" "t0" user "Hello" None emptyForest).2 in
  let st' := (createNode "b" "t1" assistant "Hi there" (Some "a") st).2 in
  (∀ k, is_Some (nodes st !! k) → getRootId k st' = getRootId k st) ∧
  getRootId "b" st' =
    match truthy (Some "a") with
    | Some p =>
        match nodes st !! p with
        | Some _ => getRootId p st
        | None => Some "b"
        end
    | None => Some "b"
    end.
Proof.
  intros st.
  apply (getRootId_createNode st "b" "t1" assistant "Hi there" (Some "a")).
  - created. apply built_empty.
  - by_evaluation.
  - done.
Defined.

(** ** More on getNodePath *)

(** What the loop returns, when it returns, is an ascent that fits the
    fuel. *)
Lemma ascend_sound m fuel : ∀ v path result,
  ascend fuel m v path = Some result →
  ∃ chain, result = path ++ chain ∧ ascent m v chain ∧ length chain ≤ fuel.
Proof.
  induction fuel as [|fuel IH]; intros v path result H; simpl in H.
  - destruct (truthy v) as [c|] eqn:Hv.
    + destruct (m !! c) as [node|] eqn:Hc; [done|]. injection H as <-.
      exists []. rewrite app_nil_r. split; [done|]. split; [|done].
      by apply ascent_at_missing with c.
    + injection H as <-. exists []. rewrite app_nil_r.
      split; [done|]. split; [|done]. by apply ascent_at_falsy.
  - destruct (truthy v) as [c|] eqn:Hv.
    + destruct (m !! c) as [node|] eqn:Hc.
      * destruct (IH _ _ _ H) as (chain & -> & Hasc & Hlen).
        exists (node :: chain). rewrite <- app_assoc.
        split; [done|]. split; [|simpl; lia].
        by apply ascent_through with c.
      * injection H as <-. exists []. rewrite app_nil_r.
        split; [done|]. split; [|simpl; lia].
        by apply ascent_at_missing with c.
    + injection H as <-. exists []. rewrite app_nil_r.
      split; [done|]. split; [|simpl; lia]. by apply ascent_at_falsy.
Qed.

Lemma getNodePath_sound fuel nodeId st path :
  getNodePath fuel nodeId st = Some path →
  (nodes st !! nodeId = None ∧ nodeId ∈ Object_prototype ∧
   path = [inherited nodeId] ∧ 0 < fuel) ∨
  ((nodes st !! nodeId = None → nodeId ∉ Object_prototype) ∧
   ∃ chain, path = own <$> reverse chain ∧
            ascent (nodes st) (Some nodeId) chain ∧ length chain ≤ fuel).
Proof.
  unfold getNodePath. intros H.
  assert (∀ result,
            fmap own <$> (reverse <$> ascend fuel (nodes st) (Some nodeId) [])
              = Some result →
            ∃ chain, result = own <$> reverse chain ∧
                     ascent (nodes st) (Some nodeId) chain ∧
                     length chain ≤ fuel) as Hloop.
  { intros result Hres.
    destruct (ascend fuel (nodes st) (Some nodeId) []) as [found|] eqn:Hasc;
      [|done].
    injection Hres as <-.
    destruct (ascend_sound _ _ _ _ _ Hasc) as (chain & -> & ? & ?). eauto. }
  destruct (truthy (Some nodeId)) as [c|] eqn:Hc.
  - apply truthy_Some in Hc as [[= <-] _].
    destruct (property (nodes st) nodeId) as [[node|name]|] eqn:Hp.
    + right. apply property_Some_own in Hp. split; [congruence|eauto].
    + left. apply property_Some_inherited in Hp as (? & ? & ->).
      destruct fuel; [done|]. injection H as <-.
      do 3 (split; [done|]). lia.
    + right. apply property_None in Hp as [_ ?]. split; [done|eauto].
  - right. injection H as <-. simpl in Hc.
    destruct (decide (nodeId = "")) as [->|]; [|done].
    split; [intros _; apply empty_not_inherited|].
    exists []. split; [done|]. split; [by apply ascent_at_falsy|simpl; lia].
Qed.

(** The ascent from an id is one list of nodes. *)
Lemma ascent_functional m v chain1 chain2 :
  ascent m v chain1 → ascent m v chain2 → chain1 = chain2.
Proof.
  intros H1. revert chain2.
  induction H1 as [v Hv|v c Hv Hc|v c node chain Hv Hc _ IH];
    intros chain2 H2; inversion H2; subst; try congruence.
  assert (node0 = node) as -> by congruence. f_equal. by apply IH.
Qed.

(** Each node of an ascent is above the id the ascent starts from. *)
Lemma ascent_above m v chain a :
  keyed m → ascent m v chain → a ∈ chain →
  ∃ x, truthy v = Some x ∧ rtc (parent_of m) x (id a).
Proof.
  intros Hkeyed.
  induction 1 as [| |v c node chain Hv Hc _ IH]; intros Ha.
  - by apply elem_of_nil in Ha.
  - by apply elem_of_nil in Ha.
  - exists c. split; [done|].
    apply elem_of_cons in Ha as [->|Ha].
    + rewrite (Hkeyed _ _ Hc). apply rtc_refl.
    + destruct (IH Ha) as (y & Hy & Hrtc).
      eapply rtc_l; [|done]. by exists node.
Qed.

(** In a well-formed forest an ascent meets no node twice, so it is no
    longer than the mapping is large. *)
Lemma ascent_NoDup st v chain :
  well_formed st → ascent (nodes st) v chain → NoDup (id <$> chain).
Proof.
  intros (Hkeyed & Hempty & Hends).
  induction 1 as [| |v c node chain Hv Hc Hasc IH]; simpl;
    [apply NoDup_nil_2|apply NoDup_nil_2|].
  apply NoDup_cons. split; [|done].
  intros (a & Hid & Ha)%list_elem_of_fmap.
  destruct (ascent_above _ _ _ _ Hkeyed Hasc Ha) as (y & Hy & Hrtc).
  rewrite <- Hid, (Hkeyed _ _ Hc) in Hrtc.
  apply (ascent_ends_acyclic _ _ (Hends v) c Hv).
  eapply tc_rtc_r; [|done]. apply tc_once. by exists node.
Qed.

Lemma ascent_length st v chain :
  well_formed st → ascent (nodes st) v chain →
  length chain ≤ size (nodes st).
Proof.
  intros Hwf Hasc. pose proof (ascent_NoDup _ _ _ Hwf Hasc) as Hnodup.
  rewrite <- (length_fmap id). apply resolved_length; [done|].
  intros x (a & -> & Ha)%list_elem_of_fmap.
  destruct Hwf as (Hkeyed & _).
  destruct (ascent_stored _ _ _ _ Hasc Ha) as [k Hk].
  rewrite (Hkeyed _ _ Hk). eauto.
Qed.



(** X4: [getNodePath] returns the empty path exactly for an id that is
    empty or under which the lookup finds nothing, neither a stored node
    nor a member of [Object.prototype], whatever the forest and the fuel;
    it raises no error for such an id. *)
Theorem getNodePath_empty fuel nodeId st :
  getNodePath fuel nodeId st = Some [] ↔
  nodeId = "" ∨ property (nodes st) nodeId = None.
Proof.
  split.
  - intros [(_ & _ & ? & _)|(Hout & chain & Hrev & Hasc & _)]
      %getNodePath_sound; [done|].
    assert (chain = []) as ->.
    { destruct (reverse chain) eqn:Hr; [|done].
      apply (f_equal reverse) in Hr. by rewrite reverse_involutive in Hr. }
    destruct (decide (nodeId = "")) as [?|Hne]; [by left|]. right.
    apply property_None.
    inversion Hasc as [v Hv|v c Hv Hc|]; subst;
      rewrite truthy_intro in Hv by done; [done|].
    injection Hv as <-. eauto.
  - intros H.
    apply (getNodePath_ascent st nodeId []); [| |simpl; lia].
    + destruct H as [->|[_ ?]%property_None]; [|done].
      intros _. apply empty_not_inherited.
    + destruct (decide (nodeId = "")) as [->|Hne].
      * by apply ascent_at_falsy.
      * destruct H as [?|[H _]%property_None]; [done|].
        apply ascent_at_missing with nodeId; [by apply truthy_intro|done].
Qed.

(** All nodes of an ascent have the root id of its first node cached. *)
Lemma ascent_rootId m v node chain top :
  keyed m → root_cached m →
  ascent m v (node :: chain) → last (node :: chain) = Some top →
  is_root top → rootId node = Some (id top).
Proof.
  intros Hkeyed Hcached. revert v node.
  induction chain as [|next chain IH]; intros v node Hasc Hlast Hroot.
  - injection Hlast as <-.
    inversion Hasc as [| |v' c node' chain' Hv Hc Hasc']; subst.
    pose proof (Hcached _ _ Hc) as H. unfold is_root in Hroot.
    rewrite Hroot in H. by rewrite (Hkeyed _ _ Hc).
  - rewrite last_cons_cons in Hlast.
    inversion Hasc as [| |v' c node' chain' Hv Hc Hasc']; subst.
    inversion Hasc' as [| |v'' p next' chain'' Hv' Hp Hasc'']; subst.
    pose proof (Hcached _ _ Hc) as H. rewrite Hv' in H.
    rewrite (H _ Hp). by eapply IH.
Qed.

(** X5: on a forest the store can hold, when the context path of a node
    starts at a root, the root id cached in the node, which [getRootId]
    returns, is the id of that first node of the path. *)
Theorem getRootId_is_path_root st fuel nodeId path first :
  built st → getNodePath fuel nodeId st = Some path →
  head path = Some (own first) → is_root first →
  getRootId nodeId st = Some (id first).
Proof.
  intros Hbuilt Hpath Hhead Hroot.
  destruct (built_invariant _ Hbuilt) as ((Hkeyed & _) & _ & Hrooted).
  pose proof (built_root_cached _ Hbuilt) as Hcached.
  destruct (getNodePath_sound _ _ _ _ Hpath)
    as [(_ & _ & -> & _)|(_ & chain & -> & Hasc & _)]; [done|].
  assert (last chain = Some first) as Hlast.
  { rewrite <- head_reverse. destruct (reverse chain) as [|x l]; [done|].
    simpl in Hhead. by injection Hhead as ->. }
  destruct chain as [|node chain]; [done|].
  inversion Hasc as [| |v c node' chain' Hv Hc Hasc']; subst.
  apply truthy_Some in Hv as [[= <-] _].
  unfold getRootId. rewrite (property_own _ _ _ Hc).
  rewrite (ascent_rootId _ _ _ _ _ Hkeyed Hcached Hasc Hlast Hroot).
  destruct (Hrooted _ _ Hc) as (r & Hr & Hne & _).
  rewrite (ascent_rootId _ _ _ _ _ Hkeyed Hcached Hasc Hlast Hroot) in Hr.
  injection Hr as ->. by rewrite or_else_truthy.
Qed.

Lemma getRootId_is_path_root_witness :
  let st0 := (createNode "a" "t0" user "Hello" None emptyForest).2 in
  let st := (createNode "b" "t1" assistant "Hi there" (Some "a") st0).2 in
  getRootId "b" st
    = Some (id (mkNode "a" user "Hello" None ["b"] "t0" (Some "a"))).
Proof.
  intros st0 st.
  apply (getRootId_is_path_root st 2 "b"
           [own (mkNode "a" user "Hello" None ["b"] "t0" (Some "a"));
            own (mkNode "b" assistant "Hi there" (Some "a") [] "t1"
                        (Some "a"))]).
  - created.
    created.
    apply built_empty.
  - by vm_compute.
  - reflexivity.
  - reflexivity.
Defined.


(** ** Context paths under removals *)

Lemma bare_with_children node cs : bare (with_children node cs) = bare node.
Proof. done. Qed.

Lemma bare_parentId a b : bare a = bare b → parentId a = parentId b.
Proof. intros H. by apply (f_equal parentId) in H. Qed.

Lemma thins_trans (m1 m2 m3 : gmap string Node) :
  thins m1 m2 → thins m2 m3 → thins m1 m3.
Proof.
  intros H12 H23 k n3 Hk.
  destruct (H23 _ _ Hk) as (n2 & Hn2 & ->).
  destruct (H12 _ _ Hn2) as (n1 & Hn1 & ->). eauto.
Qed.

Lemma pruneToRoot_thins r st ending st' :
  pruneToRoot r st = Some (ending, st') → thins (nodes st) (nodes st').
Proof.
  intros [[_ ->]|(_ & _ & R & _ & _ & Hst1)]%pruneToRoot_inv.
  - intros k n' Hk. eauto.
  - intros k n' Hk. rewrite Hst1 in Hk. destruct (decide (k ∈ R)); [|done].
    destruct (nodes st !! k) as [n|]; [|done]. injection Hk as <-. eauto.
Qed.

Lemma deleteSubtree_thins n st st' :
  deleteSubtree n st = Some st' → thins (nodes st) (nodes st').
Proof.
  intros Hdel.
  destruct (sweep_spec (size (nodes st)) (nodes st) [n] (le_n _))
    as (m' & Hsweep & Hsub & _).
  unfold deleteSubtree in Hdel. rewrite Hsweep in Hdel. injection Hdel as <-.
  simpl. intros k n' Hk. exists n'. split; [|done]. by eapply lookup_weaken.
Qed.

Lemma detachChild_thins childId parentId st :
  thins (nodes st) (nodes (detachChild childId parentId st)).
Proof.
  unfold detachChild.
  destruct (nodes st !! parentId) as [parentNode|] eqn:Hp; simpl.
  - intros k n' [[<- <-]|[_ Hk]]%lookup_insert_Some; eauto.
  - intros k n' Hk. eauto.
Qed.

Lemma removal_thins st st' : removal st st' → thins (nodes st) (nodes st').
Proof.
  intros [r ending Hprune|n Hdel|targetId res Hdel].
  - by eapply pruneToRoot_thins.
  - by eapply deleteSubtree_thins.
  - apply delete_messages_inv in Hdel
      as [->|(pid & st2 & root & ending & Hsweep & Hprune)].
    + intros k n' Hk. eauto.
    + eapply thins_trans; [|by eapply pruneToRoot_thins].
      eapply thins_trans; [apply detachChild_thins|].
      by eapply deleteSubtree_thins.
Qed.

(** With nodes removed an ascent only stops earlier. *)
Lemma ascent_thins (m m' : gmap string Node) v chain :
  thins m m' → ascent m v chain →
  ∃ chain', ascent m' v chain' ∧
            (bare <$> chain') `prefix_of` (bare <$> chain).
Proof.
  intros Hthins.
  induction 1 as [v Hv|v c Hv Hc|v c node chain Hv Hc _ IH].
  - exists []. split; [by apply ascent_at_falsy|apply prefix_nil].
  - exists []. split; [|apply prefix_nil].
    apply ascent_at_missing with c; [done|].
    destruct (m' !! c) as [n'|] eqn:Hn'; [|done].
    destruct (Hthins _ _ Hn') as (n & Hn & _). congruence.
  - destruct (m' !! c) as [node'|] eqn:Hc'.
    + destruct (Hthins _ _ Hc') as (n & Hn & Hbare).
      assert (n = node) as -> by congruence.
      destruct IH as (chain' & Hasc' & Hprefix).
      exists (node' :: chain'). split.
      * apply ascent_through with c; [done|done|].
        by rewrite (bare_parentId _ _ Hbare).
      * simpl. rewrite Hbare. by apply prefix_cons.
    + exists []. split; [|apply prefix_nil].
      by apply ascent_at_missing with c.
Qed.

Lemma path_nodes_own l : path_nodes (own <$> l) = l.
Proof.
  unfold path_nodes. induction l as [|node l IH]; [done|].
  rewrite fmap_cons. cbn [omap list_omap]. by rewrite IH.
Qed.

(** X6: [pruneToRoot], [deleteSubtree] and the DELETE handler change the
    context path of an id only by cutting it short at the top: the nodes of
    the path afterwards, children lists apart, are an end part of the nodes
    of the path before, and the loop needs no more fuel.  Both paths hold
    stored nodes only, unless the id names a member of
    [Object.prototype]. *)
Theorem context_path_only_shortens st st' fuel nodeId path :
  removal st st' → getNodePath fuel nodeId st = Some path →
  ∃ path', getNodePath fuel nodeId st' = Some path' ∧
           (bare <$> path_nodes path') `suffix_of` (bare <$> path_nodes path) ∧
           (nodeId ∉ Object_prototype →
            path = own <$> path_nodes path ∧
            path' = own <$> path_nodes path').
Proof.
  intros Hthins%removal_thins
    [(Hnone & Hin & -> & Hfuel)|(Hout & chain & -> & Hasc & Hfuel)]
    %getNodePath_sound.
  - assert (nodes st' !! nodeId = None) as Hnone'.
    { destruct (nodes st' !! nodeId) as [n'|] eqn:Hn'; [|done].
      destruct (Hthins _ _ Hn') as (n & Hn & _). congruence. }
    exists [inherited nodeId]. split; [|split; [done|by intros ?]].
    destruct fuel; [lia|]. by apply getNodePath_inherited.
  - destruct (ascent_thins _ _ _ _ Hthins Hasc)
      as (chain' & Hasc' & Hprefix).
    rewrite path_nodes_own.
    destruct (decide (nodes st' !! nodeId = None ∧
                      nodeId ∈ Object_prototype)) as [[Hnone Hin]|Hok].
    + exists [inherited nodeId].
      split; [|split; [apply suffix_nil|by intros ?]].
      inversion Hasc as [v Hv|v c Hv Hc|v c node chain0 Hv Hc _]; subst.
      * simpl in Hv. destruct (decide (nodeId = "")) as [->|]; [|done].
        by destruct empty_not_inherited.
      * apply truthy_Some in Hv as [[= <-] _]. by destruct (Hout Hc).
      * simpl in Hfuel. destruct fuel; [lia|].
        by apply getNodePath_inherited.
    + exists (own <$> reverse chain'). split.
      * apply getNodePath_ascent; [|done|].
        -- intros Hnone Hin. by apply Hok.
        -- apply prefix_length in Hprefix.
           rewrite !length_fmap in Hprefix. lia.
      * rewrite path_nodes_own. split; [|done].
        rewrite !fmap_reverse. by apply prefix_suffix_reverse.
Qed.

Lemma context_path_only_shortens_witness :
  let st0 := (createNode "a" "t0" user "Hello" None emptyForest).2 in
  let st := (createNode "b" "t1" assistant "Hi there" (Some "a") st0).2 in
  let st' := mkForest
    {[ "b" := mkNode "b" assistant "Hi there" (Some "a") [] "t1"
                     (Some "a") ]}
    ["b"] in
  let path := [own (mkNode "a" user "Hello" None ["b"] "t0" (Some "a"));
               own (mkNode "b" assistant "Hi there" (Some "a") [] "t1"
                           (Some "a"))] in
  ∃ path', getNodePath 2 "b" st' = Some path' ∧
           (bare <$> path_nodes path') `suffix_of` (bare <$> path_nodes path) ∧
           ("b" ∉ Object_prototype →
            path = own <$> path_nodes path ∧
            path' = own <$> path_nodes path').
Proof.
  intros st0 st st' path.
  apply (context_path_only_shortens st st' 2 "b" path).
  - apply removal_pruneToRoot with "b" (returned ()). by vm_compute.
  - by vm_compute.
Defined.

(** ** Context paths and createNode, pruneToRoot *)

(** [createNode] leaves the stored nodes as they were, children lists
    apart. *)
Lemma createNode_bare uuid now r c pid st k n :
  fresh st uuid → pid ≠ Some uuid → nodes st !! k = Some n →
  ∃ n', nodes (createNode uuid now r c pid st).2 !! k = Some n' ∧
        bare n' = bare n.
Proof.
  intros Hfresh Hpid Hk.
  assert (k ≠ uuid) as Hku.
  { intros ->. rewrite (fresh_nodes _ _ Hfresh) in Hk. done. }
  destruct (truthy pid) as [p|] eqn:Hp.
  - assert (p ≠ uuid) as Hpu.
    { apply truthy_Some in Hp as [-> _]. congruence. }
    destruct (nodes st !! p) as [parent|] eqn:Hparent.
    + rewrite (createNode_attached _ _ _ _ _ _ _ _ Hp Hparent Hpu). simpl.
      destruct (decide (k = p)) as [->|Hkp].
      * rewrite lookup_insert_eq. eexists. split; [done|].
        by assert (n = parent) as -> by congruence.
      * rewrite !lookup_insert_ne by done. eauto.
    + destruct (decide (p ∈ Object_prototype)) as [Hin|Hout].
      * rewrite (createNode_inherited _ _ _ _ _ _ _ Hp Hparent Hpu Hin).
        simpl. rewrite lookup_insert_ne by done. eauto.
      * rewrite (createNode_dangling _ _ _ _ _ _ _ Hp Hparent Hpu Hout).
        simpl. rewrite lookup_insert_ne by done. eauto.
  - rewrite createNode_rootless by done. simpl.
    rewrite lookup_insert_ne by done. eauto.
Qed.

(** Adding a node under an id no parent id names keeps the ascents, children
    lists apart. *)
Lemma ascent_extend (m m' : gmap string Node) u :
  (∀ k n, m !! k = Some n →
     parentId n ≠ Some u ∧ ∃ n', m' !! k = Some n' ∧ bare n' = bare n) →
  (∀ k, k ≠ u → m !! k = None → m' !! k = None) →
  ∀ v chain, v ≠ Some u → ascent m v chain →
    ∃ chain', ascent m' v chain' ∧ bare <$> chain' = bare <$> chain.
Proof.
  intros Hkept Hmissing v chain Hv Hasc. revert Hv.
  induction Hasc as [v Hf|v c Hc Hnone|v c node chain Hc Hnode _ IH];
    intros Hv.
  - exists []. split; [by apply ascent_at_falsy|done].
  - exists []. split; [|done]. apply ascent_at_missing with c; [done|].
    apply Hmissing; [|done]. apply truthy_Some in Hc as [-> _]. congruence.
  - destruct (Hkept _ _ Hnode) as (Hpar & n' & Hn' & Hbare).
    destruct (IH Hpar) as (chain' & Hasc' & Heq).
    exists (n' :: chain'). split.
    + apply ascent_through with c; [done|done|].
      by rewrite (bare_parentId _ _ Hbare).
    + rewrite !fmap_cons. by rewrite Hbare, Heq.
Qed.

(** X7: the context path of a node created under a parent that resolves is
    the context path the parent had, children lists apart, followed by the
    new node; one more turn of the loop is enough for it. *)
Theorem createNode_extends_path st uuid now r c pid p :
  well_formed st → fresh st uuid →
  truthy pid = Some p → is_Some (nodes st !! p) →
  let created := createNode uuid now r c pid st in
  ∃ parentPath path node,
    created.1 = returned node ∧
    getNodePath (size (nodes st)) p st = Some (own <$> parentPath) ∧
    getNodePath (S (size (nodes st))) uuid created.2
      = Some (own <$> path) ∧
    bare <$> path = (bare <$> parentPath) ++ [node] ∧
    children node = [].
Proof.
  intros Hwf Hfresh Hp [parent Hparent] created.
  pose proof (fresh_nodes _ _ Hfresh) as Hnone.
  pose proof (fresh_truthy _ _ Hfresh) as Huuid.
  assert (p ≠ uuid) as Hpu by congruence.
  assert (pid ≠ Some uuid) as Hpid.
  { apply truthy_Some in Hp as [-> _]. congruence. }
  destruct (ascent_ends_ascent (nodes st) (Some p)) as [chain Hasc].
  { by apply Hwf. }
  pose proof (ascent_length _ _ _ Hwf Hasc) as Hlen.
  destruct (createNode_nodes uuid now r c pid st Hfresh Hpid)
    as (_ & _ & _ & Hgone).
  destruct (ascent_extend (nodes st) (nodes created.2) uuid)
    with (v := Some p) (chain := chain) as (chain' & Hasc' & Hbare);
    [|done|congruence|done|].
  { intros k n Hk. split; [by eapply fresh_parent|].
    by apply createNode_bare. }
  set (node := mkNode uuid r c pid [] now
                      (Some (or_else (rootId parent) (id parent)))).
  assert (created.1 = returned node) as Hnew.
  { unfold created.
    by rewrite (createNode_attached _ _ _ _ _ _ _ _ Hp Hparent Hpu). }
  exists (reverse chain), (reverse (node :: chain')), node.
  split; [done|].
  split; [apply getNodePath_ascent; [congruence|done|done]|].
  split; [|split].
  - apply getNodePath_ascent.
    + intros Hgone'. pose proof (createNode_stored _ _ _ _ _ _ _ Hnew).
      unfold created in Hgone'. congruence.
    + apply ascent_through with uuid; [by apply truthy_intro| |].
      * by apply createNode_stored.
      * cbn [parentId node]. by apply truthy_Some in Hp as [-> _].
    + rewrite length_cons. apply (f_equal length) in Hbare.
      rewrite !length_fmap in Hbare. lia.
  - by rewrite reverse_cons, fmap_app, !fmap_reverse, Hbare.
  - done.
Qed.

Lemma createNode_extends_path_witness :
  let st := (createNode "a" "t0" user "Hello" None emptyForest).2 in
  let created := createNode "b" "t1" assistant "Hi there" (Some "a") st in
  ∃ parentPath path node,
    created.1 = returned node ∧
    getNodePath (size (nodes st)) "a" st = Some (own <$> parentPath) ∧
    getNodePath (S (size (nodes st))) "b" created.2
      = Some (own <$> path) ∧
    bare <$> path = (bare <$> parentPath) ++ [node] ∧
    children node = [].
Proof.
  intros st.
  apply (createNode_extends_path st "b" "t1" assistant "Hi there"
           (Some "a") "a").
  - apply built_well_formed.
    created. apply built_empty.
  - by_evaluation.
  - reflexivity.
  - by_evaluation.
Defined.

(** After a prune the ascent from a retained node ends at the root pruned
    to. *)
Lemma pruned_ascent_top st r ending st' x :
  built st → pruneToRoot r st = Some (ending, st') → reach (nodes st) r x →
  ∃ chain top, ascent (nodes st') (Some x) chain ∧
               last chain = Some top ∧ id top = r.
Proof.
  intros Hbuilt Hprune Hreach.
  destruct (built_invariant _ Hbuilt)
    as ((Hkeyed & Hempty & _) & Hlinked & _).
  destruct (pruneToRoot_spec r st) as (R & st1 & Hp & _ & HR & Hst');
    [by eapply reach_source|].
  rewrite Hp in Hprune. injection Hprune as <- <-.
  induction Hreach as [[root Hroot]|y node c Hy IH Hnode Hc [child Hchild]].
  - exists [pruned R root], (pruned R root).
    split; [|split; [done|apply (Hkeyed _ _ Hroot)]].
    apply ascent_through with r.
    + apply truthy_intro. congruence.
    + rewrite Hst', decide_True, Hroot; [done|].
      apply HR, reach_refl. eauto.
    + simpl. destruct (truthy (parentId root)) as [p|] eqn:Hparent.
      * apply ascent_at_missing with p; [done|].
        rewrite Hst', decide_False; [done|]. rewrite HR.
        by eapply built_parent_outside.
      * by apply ascent_at_falsy.
  - destruct IH as (chain & top & Hasc & Hlast & Hid).
    exists (pruned R child :: chain), top. split; [|split; [|done]].
    + apply ascent_through with c.
      * apply truthy_intro. congruence.
      * rewrite Hst', decide_True, Hchild; [done|].
        apply HR. eapply reach_child; eauto.
      * simpl. by rewrite (Hlinked _ _ _ _ Hnode Hc Hchild).
    + destruct chain; [done|]. by rewrite last_cons_cons.
Qed.

(** X8: after [pruneToRoot r] on a forest the store can hold, with [r]
    resolving, the context path of every node that is left starts at the
    node [r]. *)
Theorem pruneToRoot_paths_start_at_root st r ending st' x :
  built st → is_Some (nodes st !! r) →
  pruneToRoot r st = Some (ending, st') →
  is_Some (nodes st' !! x) →
  ∃ path first,
    getNodePath (size (nodes st')) x st' = Some (own <$> path) ∧
    head path = Some first ∧ id first = r.
Proof.
  intros Hbuilt Hr Hprune Hx.
  assert (reach (nodes st) r x) as Hreach.
  { destruct (pruneToRoot_spec r st Hr) as (R & st1 & Hp & _ & HR & Hst').
    rewrite Hp in Hprune. injection Hprune as <- <-.
    rewrite Hst' in Hx. destruct (decide (x ∈ R)) as [HxR|]; [|by destruct Hx].
    by apply HR. }
  destruct (pruned_ascent_top _ _ _ _ _ Hbuilt Hprune Hreach)
    as (chain & top & Hasc & Hlast & Hid).
  assert (well_formed st') as Hwf.
  { apply built_well_formed. by eapply built_pruneToRoot. }
  exists (reverse chain), top.
  split; [|by rewrite head_reverse].
  apply getNodePath_ascent; [|done|by eapply ascent_length].
  intros Hnone. destruct Hx. congruence.
Qed.

Lemma pruneToRoot_paths_start_at_root_witness :
  let st0 := (createNode "a" "t0" user "Hello" None emptyForest).2 in
  let st := (createNode "b" "t1" assistant "Hi there" (Some "a") st0).2 in
  let st' := mkForest
    {[ "b" := mkNode "b" assistant "Hi there" (Some "a") [] "t1"
                     (Some "a") ]}
    ["b"] in
  ∃ path first,
    getNodePath (size (nodes st')) "b" st' = Some (own <$> path) ∧
    head path = Some first ∧ id first = "b".
Proof.
  intros st0 st st'.
  apply (pruneToRoot_paths_start_at_root st "b" (returned ()) st' "b").
  - created.
    created.
    apply built_empty.
  - by_evaluation.
  - by vm_compute.
  - by_evaluation.
Defined.

(** ** How the store operations compose *)

Lemma deleteSubtree_missing n st :
  nodes st !! n = None → deleteSubtree n st = Some st.
Proof.
  intros Hn. unfold deleteSubtree.
  rewrite sweep_skip, sweep_nil by done. by destruct st.
Qed.

(** X9: [deleteSubtree] of an id that does not resolve changes nothing, and
    so does a second [deleteSubtree] of the same id. *)
Theorem deleteSubtree_idempotent n st :
  ∃ st', deleteSubtree n st = Some st' ∧
         deleteSubtree n st' = Some st' ∧
         (nodes st !! n = None → st' = st).
Proof.
  destruct (deleteSubtree_spec n st) as (st' & Hdel & _ & Hgone & Hkept).
  exists st'. split; [done|]. split.
  - apply deleteSubtree_missing.
    destruct (nodes st !! n) as [node|] eqn:Hn.
    + apply Hgone, reach_refl. eauto.
    + rewrite Hkept; [done|]. by apply reach_missing.
  - intros Hn. rewrite deleteSubtree_missing in Hdel by done. congruence.
Qed.

(** What [createNode] does to a stored node: nothing, but that the parent
    named gets the new id appended to its children. *)
Lemma createNode_old_node uuid now r c pid st k node :
  fresh st uuid → pid ≠ Some uuid → nodes st !! k = Some node →
  ∃ node', nodes (createNode uuid now r c pid st).2 !! k = Some node' ∧
    bare node' = bare node ∧
    children node' =
      if decide (truthy pid = Some k) then children node ++ [uuid]
      else children node.
Proof.
  intros Hfresh Hpid Hk.
  pose proof (fresh_nodes _ _ Hfresh) as Hnone.
  assert (k ≠ uuid) as Hku by congruence.
  destruct (truthy pid) as [p|] eqn:Hp.
  - assert (p ≠ uuid) as Hpu.
    { apply truthy_Some in Hp as [-> _]. congruence. }
    destruct (nodes st !! p) as [parent|] eqn:Hparent.
    + rewrite (createNode_attached _ _ _ _ _ _ _ _ Hp Hparent Hpu). simpl.
      destruct (decide (k = p)) as [->|Hkp].
      * assert (node = parent) as -> by congruence.
        rewrite lookup_insert_eq, decide_True by done. eauto.
      * rewrite !lookup_insert_ne by done.
        rewrite decide_False by congruence. eauto.
    + assert (k ≠ p) as Hkp by congruence.
      rewrite decide_False by congruence.
      destruct (decide (p ∈ Object_prototype)) as [Hin|Hout].
      * rewrite (createNode_inherited _ _ _ _ _ _ _ Hp Hparent Hpu Hin).
        simpl. rewrite lookup_insert_ne by done. eauto.
      * rewrite (createNode_dangling _ _ _ _ _ _ _ Hp Hparent Hpu Hout).
        simpl. rewrite lookup_insert_ne by done. eauto.
  - rewrite createNode_rootless by done. simpl.
    rewrite lookup_insert_ne by done. eauto.
Qed.

(** X10: [createNode] with an identifier not in use adds one entry to the
    mapping and removes none; a stored node is left as it was, but that the
    parent named, and no other node, gets the new id appended to its
    children. *)
Theorem createNode_only_adds st uuid now r c pid :
  fresh st uuid → pid ≠ Some uuid →
  let st' := (createNode uuid now r c pid st).2 in
  size (nodes st') = S (size (nodes st)) ∧
  ∀ k node, nodes st !! k = Some node →
    ∃ node', nodes st' !! k = Some node' ∧ bare node' = bare node ∧
      children node' =
        if decide (truthy pid = Some k) then children node ++ [uuid]
        else children node.
Proof.
  intros Hfresh Hpid st'. subst st'.
  split; [|intros k node Hk; by apply createNode_old_node].
  pose proof (fresh_nodes _ _ Hfresh) as Hnone.
  destruct (truthy pid) as [p|] eqn:Hp.
  - assert (p ≠ uuid) as Hpu.
    { apply truthy_Some in Hp as [-> _]. congruence. }
    destruct (nodes st !! p) as [parent|] eqn:Hparent.
    + rewrite (createNode_attached _ _ _ _ _ _ _ _ Hp Hparent Hpu). simpl.
      rewrite map_size_insert_Some, map_size_insert_None; [done|done|].
      rewrite lookup_insert_ne by done. eauto.
    + destruct (decide (p ∈ Object_prototype)) as [Hin|Hout].
      * rewrite (createNode_inherited _ _ _ _ _ _ _ Hp Hparent Hpu Hin).
        simpl. by rewrite map_size_insert_None.
      * rewrite (createNode_dangling _ _ _ _ _ _ _ Hp Hparent Hpu Hout).
        simpl. by rewrite map_size_insert_None.
  - rewrite createNode_rootless by done. simpl.
    by rewrite map_size_insert_None.
Qed.

Lemma createNode_only_adds_witness :
  let st := (createNode "a" "t0" user "Hello" None emptyForest).2 in
  let st' := (createNode "b" "t1" assistant "Hi there" (Some "a") st).2 in
  size (nodes st') = S (size (nodes st)) ∧
  ∀ k node, nodes st !! k = Some node →
    ∃ node', nodes st' !! k = Some node' ∧ bare node' = bare node ∧
      children node' =
        if decide (truthy (Some "a") = Some k) then children node ++ ["b"]
        else children node.
Proof.
  intros st.
  apply (createNode_only_adds st "b" "t1" assistant "Hi there" (Some "a")).
  - by_evaluation.
  - done.
Defined.

(** X11: after [pruneToRoot r] everything that is left hangs under [r]:
    [deleteSubtree r] then leaves the mapping empty, with [r] still in the
    root-id sequence. *)
Theorem pruneToRoot_then_deleteSubtree r st :
  is_Some (nodes st !! r) →
  ∃ st1 st2,
    pruneToRoot r st = Some (returned (), st1) ∧
    deleteSubtree r st1 = Some st2 ∧
    nodes st2 = ∅ ∧ rootIds st2 = [r].
Proof.
  intros Hr.
  destruct (pruneToRoot_spec r st Hr) as (R & st1 & Hprune & Hroots & HR & Hst1).
  destruct (deleteSubtree_spec r st1) as (st2 & Hdel & Hroots2 & Hgone & Hkept).
  exists st1, st2. split; [done|]. split; [done|]. split; [|congruence].
  apply map_eq. intros x. rewrite lookup_empty.
  destruct (decide (x ∈ R)) as [Hx|Hx].
  - apply Hgone. apply (reach_pruned (nodes st) _ R); [done|done|].
    by apply HR.
  - rewrite Hkept.
    + by rewrite Hst1, decide_False.
    + intros [node Hnode]%reach_target. by rewrite Hst1, decide_False in Hnode.
Qed.

Lemma pruneToRoot_then_deleteSubtree_witness :
  let st0 := (createNode "a" "t0" user "Hello" None emptyForest).2 in
  let st := (createNode "b" "t1" assistant "Hi there" (Some "a") st0).2 in
  ∃ st1 st2,
    pruneToRoot "a" st = Some (returned (), st1) ∧
    deleteSubtree "a" st1 = Some st2 ∧
    nodes st2 = ∅ ∧ rootIds st2 = ["a"].
Proof.
  intros st0 st. apply (pruneToRoot_then_deleteSubtree "a" st).
  by_evaluation.
Defined.

(** ** POST /messages: the checks *)

(** X12: a post-message request is turned down before anything else happens
    when its content is missing, not a string or empty (400), when its
    parent id is truthy and the lookup finds nothing under it (404), and
    when what the lookup finds is not an assistant message, be it another
    node or a member of [Object.prototype] (400): the forest is left as it
    is and no completion is requested, whatever the provider would do. *)
Theorem post_messages_rejects fuel env body st :
  let unchanged status error :=
    post_messages fuel env body st
      = Some (mkOutcome (Error status error None) st []) in
  (truthy (body_content body) = None →
   unchanged 400 "Message content is required and must be a string.") ∧
  (∀ p, truthy (body_content body) ≠ None →
        truthy (body_parentId body) = Some p →
        property (nodes st) p = None →
        unchanged 404 "Parent message not found.") ∧
  (∀ p parentNode,
     truthy (body_content body) ≠ None →
     truthy (body_parentId body) = Some p →
     nodes st !! p = Some parentNode → role parentNode ≠ assistant →
     unchanged 400 "User messages must reply to an assistant message.") ∧
  (∀ p,
     truthy (body_content body) ≠ None →
     truthy (body_parentId body) = Some p →
     nodes st !! p = None → p ∈ Object_prototype →
     unchanged 400 "User messages must reply to an assistant message.").
Proof.
  intros unchanged. subst unchanged. unfold post_messages. simpl.
  destruct (body_content body) as [text|]; simpl.
  - destruct (decide (text = "")) as [->|Hne].
    + split; [done|]. by repeat split; intros.
    + split; [done|]. split; [|split].
      * intros p _ -> ->. done.
      * intros p parentNode _ -> Hp Hrole.
        by rewrite (property_own _ _ _ Hp), decide_False.
      * intros p _ -> Hp Hin. by rewrite (property_inherited _ _ Hp Hin).
  - split; [done|]. by repeat split; intros.
Qed.

(** ** POST /messages: the exchange *)

(** The content of the assistant node. *)
Lemma assistant_content reply :
  or_else reply fallback_text = default fallback_text (truthy reply).
Proof. unfold or_else. by destruct (truthy reply). Qed.

(** The exchange, once the completion has resolved, the assistant node is
    created and the prune has returned. *)
Lemma exchange_resolves fuel env userNode st1 chain reply assistantNode
    st2 st3 :
  is_Some (nodes st1 !! id userNode) →
  ascent (nodes st1) (Some (id userNode)) chain → length chain ≤ fuel →
  provider env (request_of (reverse chain)) = Resolves reply →
  createNode (assistant_uuid env) (assistant_now env) assistant
             (default fallback_text (truthy reply))
             (Some (id userNode)) st1 = (returned assistantNode, st2) →
  pruneToRoot (key (getRootId (id userNode) st2)) st2
    = Some (returned (), st3) →
  exchange fuel env userNode st1 =
    Some (mkOutcome
            (Json (default userNode (nodes st2 !! id userNode))
                  assistantNode st3)
            st3 [request_of (reverse chain)]).
Proof.
  intros [? Hstored] Hasc Hfuel Hreply Hcreate Hprune. unfold exchange.
  assert (getNodePath fuel (id userNode) st1 = Some (own <$> reverse chain))
    as -> by (apply getNodePath_ascent; [congruence|done|done]).
  cbn [mbind option_bind]. rewrite request_of_own.
  rewrite Hreply, assistant_content, Hcreate, Hprune. done.
Qed.

(** X13: a post-message request with a falsy parent id whose completion
    resolves starts the forest anew: whatever it held, the forest is then
    the user node and, as its only child, the assistant node, which carries
    the text of the completion, or the fallback text when there is none; the
    user node is the one root, and the request was the system prompt and the
    user's message. *)
Theorem post_messages_new_thread fuel env body st text reply :
  let uid := user_uuid env in
  let aid := assistant_uuid env in
  let request :=
    [mkMessage system_role system_prompt;
     mkMessage (node_role user) text] in
  body_content body = Some text → text ≠ "" →
  truthy (body_parentId body) = None →
  uid ≠ "" → uid ≠ aid → 1 ≤ fuel →
  provider env request = Resolves reply →
  let userNode :=
    mkNode uid user text (body_parentId body) [aid] (user_now env)
           (Some uid) in
  let assistantNode :=
    mkNode aid assistant (default fallback_text (truthy reply)) (Some uid) []
           (assistant_now env) (Some uid) in
  let final := mkForest {[ uid := userNode; aid := assistantNode ]} [uid] in
  post_messages fuel env body st
    = Some (mkOutcome (Json userNode assistantNode final) final [request]).
Proof.
  intros uid aid request Htext Hne Hpid Huid Hua Hfuel Hreply
    userNode assistantNode final.
  destruct (post_messages_exchange fuel env body st text)
    as (userNode0' & Hfst & ->);
    [done|done|by unfold accepted_parent; rewrite Hpid|].
  fold uid in Hfst |- *.
  rewrite createNode_rootless in Hfst |- * by done. cbn [fst snd] in *.
  injection Hfst as <-.
  set (userNode0 := mkNode uid user text (body_parentId body) []
                           (user_now env) (Some uid)).
  set (st1 := mkForest (<[uid:=userNode0]> (nodes st)) (rootIds st ++ [uid])).
  assert (ascent (nodes st1) (Some (id userNode0)) [userNode0]) as Hasc.
  { apply ascent_through with uid;
      [by apply truthy_intro|apply lookup_insert_eq|].
    by apply ascent_at_falsy. }
  set (m2 := <[uid:=userNode]> (<[aid:=assistantNode]>
               (<[uid:=userNode0]> (nodes st)))).
  assert (createNode aid (assistant_now env) assistant
            (default fallback_text (truthy reply)) (Some (id userNode0)) st1
          = (returned assistantNode, mkForest m2 (rootIds st ++ [uid])))
    as Hcreate.
  { cbn [id userNode0].
    rewrite (createNode_attached _ _ _ _ _ _ uid userNode0);
      [|by apply truthy_intro|apply lookup_insert_eq|done].
    cbn [fst snd nodes rootIds st1 children userNode0 rootId id app].
    by rewrite (or_else_truthy uid uid Huid). }
  assert (m2 !! uid = Some userNode) as Hu2 by apply lookup_insert_eq.
  assert (m2 !! aid = Some assistantNode) as Ha2.
  { unfold m2. rewrite lookup_insert_ne by done. apply lookup_insert_eq. }
  assert (getRootId uid (mkForest m2 (rootIds st ++ [uid])) = Some uid)
    as Hroot.
  { unfold getRootId. cbn [nodes]. rewrite (property_own _ _ _ Hu2).
    cbn [rootId userNode]. by rewrite or_else_truthy. }
  destruct (pruneToRoot_spec uid (mkForest m2 (rootIds st ++ [uid])))
    as (R & st3 & Hprune & Hroots & HR & Hst3); [cbn [nodes]; eauto|].
  rewrite (exchange_resolves fuel env userNode0 st1 [userNode0] reply
             assistantNode (mkForest m2 (rootIds st ++ [uid])) st3);
    [|cbn [nodes st1 id userNode0]; rewrite lookup_insert_eq; eauto
     |done|done|done|done|by cbn [id userNode0]; rewrite Hroot].
  cbn [nodes id userNode0] in *. rewrite Hu2. cbn [default].
  assert (∀ x, x ∈ R ↔ x = uid ∨ x = aid) as HR'.
  { intros x. rewrite HR. split.
    - induction 1 as [_|y node c _ IH Hy Hc _]; [by left|].
      destruct IH as [->| ->].
      + rewrite Hu2 in Hy. injection Hy as <-.
        apply list_elem_of_singleton in Hc. by right.
      + rewrite Ha2 in Hy. injection Hy as <-. by apply elem_of_nil in Hc.
    - intros [->| ->].
      + apply reach_refl. eauto.
      + eapply reach_child; [apply reach_refl; eauto|done| |eauto]. left. }
  assert (st3 = final) as ->; [|done].
  destruct st3 as [m3 roots3]. cbn [nodes rootIds] in *. unfold final.
  f_equal; [|done]. apply map_eq. intros x. rewrite Hst3.
  destruct (decide (x = uid)) as [->|Hxu].
  - rewrite decide_True by (apply HR'; by left).
    rewrite Hu2, lookup_insert_eq. cbn. unfold pruned, userNode. cbn.
    by rewrite decide_True by (apply HR'; by right).
  - rewrite lookup_insert_ne by done.
    destruct (decide (x = aid)) as [->|Hxa].
    + rewrite decide_True by (apply HR'; by right).
      by rewrite Ha2, lookup_singleton_eq.
    + rewrite lookup_singleton_ne by done.
      rewrite decide_False; [done|]. rewrite HR'. by intros [?|?].
Qed.

Lemma post_messages_new_thread_witness :
  let env := mkPostEnv "u1" "t2" "a1" "t3" (λ _, Resolves (Some "Hi!")) in
  let body := mkPostBody (Some "New topic") None in
  let st0 := (createNode "a" "t0" user "Hello" None emptyForest).2 in
  let st := (createNode "b" "t1" assistant "Hi there" (Some "a") st0).2 in
  let userNode :=
    mkNode "u1" user "New topic" None ["a1"] "t2" (Some "u1") in
  let assistantNode :=
    mkNode "a1" assistant (default fallback_text (truthy (Some "Hi!")))
           (Some "u1") [] "t3" (Some "u1") in
  let final :=
    mkForest {[ "u1" := userNode; "a1" := assistantNode ]} ["u1"] in
  post_messages 1 env body st
    = Some (mkOutcome (Json userNode assistantNode final) final
              [[mkMessage system_role system_prompt;
                mkMessage (node_role user) "New topic"]]).
Proof.
  intros env body st0 st.
  apply (post_messages_new_thread 1 env body st "New topic" (Some "Hi!"));
    done.
Defined.

(** ** POST /messages: a reply *)

(** [createNode] makes one more node reachable, the new one, from where its
    parent was reachable. *)
Lemma reach_createNode_iff uuid now r c pid st root x :
  well_formed st → fresh st uuid → pid ≠ Some uuid → root ≠ uuid →
  reach (nodes (createNode uuid now r c pid st).2) root x ↔
  reach (nodes st) root x ∨
  (x = uuid ∧ ∃ p, truthy pid = Some p ∧ reach (nodes st) root p).
Proof.
  intros (_ & Hempty & _) Hfresh Hpid Hroot.
  destruct (createNode_nodes uuid now r c pid st Hfresh Hpid)
    as ((new & Hnew & _ & _ & _ & Hparent & Hchildless & Hnewroot) &
        Hold & Hfrom & Hnone).
  split.
  - induction 1 as [[node Hnode]|y node z _ IH Hy Hz [child Hchild]].
    + left. apply reach_refl.
      destruct (Hfrom _ _ Hnode Hroot) as (? & ? & _). eauto.
    + destruct IH as [IH|[-> _]].
      * assert (y ≠ uuid) as Hyu.
        { intros ->. apply reach_target in IH as [? IH].
          rewrite (fresh_nodes _ _ Hfresh) in IH. done. }
        destruct (Hfrom _ _ Hy Hyu) as (node0 & Hnode0 & _ & _ & _ & Hch).
        destruct (Hch _ Hz) as [Hz0|[-> ->]].
        -- destruct (decide (z = uuid)) as [->|Hzu].
           { destruct (fresh_children _ _ _ _ Hfresh Hnode0 Hz0). }
           left. eapply reach_child; [done|done|done|].
           destruct (Hfrom _ _ Hchild Hzu) as (? & ? & _). eauto.
        -- right. split; [done|]. exists y. split; [|done].
           apply truthy_intro. congruence.
      * rewrite Hnew in Hy. injection Hy as <-.
        rewrite Hchildless in Hz. by apply elem_of_nil in Hz.
  - intros [Hreach|(-> & p & Hp & Hreach)].
    + by apply reach_createNode.
    + destruct (reach_target _ _ _ Hreach) as [parent Hparent0].
      assert (p ≠ uuid) as Hpu.
      { intros ->. rewrite (fresh_nodes _ _ Hfresh) in Hparent0. done. }
      pose proof (reach_createNode uuid now r c pid st root p
                    Hfresh Hpid Hreach) as Hreach'.
      rewrite (createNode_attached _ _ _ _ _ _ _ _ Hp Hparent0 Hpu)
        in Hreach'.
      rewrite (createNode_attached _ _ _ _ _ _ _ _ Hp Hparent0 Hpu).
      simpl in *.
      eapply reach_child; [exact Hreach'|apply lookup_insert_eq| |].
      * simpl. apply elem_of_app. right. left.
      * rewrite lookup_insert_ne by done. rewrite lookup_insert_eq. eauto.
Qed.

(** The request only reads the role and the content of the nodes. *)
Lemma request_of_bare l1 l2 :
  bare <$> l1 = bare <$> l2 → request_of l1 = request_of l2.
Proof.
  intros H. unfold request_of. f_equal.
  change (map (λ node, mkMessage (node_role (role node)) (content node)))
    with (fmap (M:=list)
            (λ node, mkMessage (node_role (role node)) (content node))).
  transitivity ((λ node, mkMessage (node_role (role node)) (content node))
                  <$> (bare <$> l1)).
  - rewrite <- list_fmap_compose. by apply list_fmap_ext.
  - rewrite H, <- list_fmap_compose. by apply list_fmap_ext.
Qed.

Lemma request_of_snoc l node :
  request_of (l ++ [node])
    = request_of l ++ [mkMessage (node_role (role node)) (content node)].
Proof. unfold request_of. by rewrite map_app. Qed.

(** The ascent from a node created under a parent that resolves. *)
Lemma createNode_ascent uuid now r c pid p st chain :
  fresh st uuid → truthy pid = Some p → is_Some (nodes st !! p) →
  ascent (nodes st) (Some p) chain →
  let created := createNode uuid now r c pid st in
  ∃ node chain',
    created.1 = returned node ∧
    ascent (nodes created.2) (Some uuid) (node :: chain') ∧
    bare <$> chain' = bare <$> chain.
Proof.
  intros Hfresh Hp [parent Hparent] Hasc created.
  pose proof (fresh_nodes _ _ Hfresh) as Hnone.
  assert (p ≠ uuid) as Hpu by congruence.
  assert (pid ≠ Some uuid) as Hpid.
  { apply truthy_Some in Hp as [-> _]. congruence. }
  destruct (createNode_nodes uuid now r c pid st Hfresh Hpid)
    as (_ & _ & _ & Hgone).
  destruct (ascent_extend (nodes st) (nodes created.2) uuid)
    with (v := Some p) (chain := chain) as (chain' & Hasc' & Hbare);
    [|done|congruence|done|].
  { intros k n Hk. split; [by eapply fresh_parent|].
    by apply createNode_bare. }
  pose proof (createNode_attached uuid now r c st pid p parent Hp Hparent
                Hpu) as Heq.
  cbv zeta in Heq. fold created in Heq.
  eexists _, chain'. split; [by rewrite Heq|]. split; [|done].
  apply ascent_through with uuid;
    [apply truthy_intro; by eapply fresh_truthy| |].
  - rewrite Heq. cbn [snd nodes].
    rewrite lookup_insert_ne by done. apply lookup_insert_eq.
  - cbn [parentId]. by apply truthy_Some in Hp as [-> _].
Qed.

(** X14: a reply that passes the checks, on a forest the store can hold,
    requests the completion once, with the system prompt, then the roles
    and contents along the context path of the parent, then the user's
    message; nothing else of the forest is sent. *)
Theorem post_messages_reply_request env body st text p parentNode :
  let uid := user_uuid env in
  let aid := assistant_uuid env in
  built st → fresh st uid → fresh st aid → uid ≠ aid →
  body_content body = Some text → text ≠ "" →
  truthy (body_parentId body) = Some p →
  nodes st !! p = Some parentNode → role parentNode = assistant →
  ∃ parentPath,
    getNodePath (size (nodes st)) p st = Some (own <$> parentPath) ∧
    ∀ fuel, size (nodes st) < fuel →
      ∃ out,
        post_messages fuel env body st = Some out ∧
        requests out =
          [request_of parentPath ++ [mkMessage (node_role user) text]].
Proof.
  intros uid aid Hbuilt Hfu Hfa Hua Htext Hne Hp Hparent Hrole.
  assert (accepted_parent st (body_parentId body)) as Haccepted.
  { unfold accepted_parent. rewrite Hp. eauto. }
  pose proof (built_well_formed _ Hbuilt) as Hwf.
  destruct (ascent_ends_ascent (nodes st) (Some p)) as [chainP HascP].
  { by apply Hwf. }
  pose proof (ascent_length _ _ _ Hwf HascP) as Hlen.
  exists (reverse chainP).
  split; [apply getNodePath_ascent; [congruence|done|done]|].
  intros fuel Hfuel.
  destruct (post_user_node env body st text
              Hbuilt Hfu Hfa Hua Haccepted)
    as (_ & _ & Hfa1 & userNode & root & Hfst & Hu & Hid & Hrole' &
        Hcontent & _ & Hchildless & Hrootid & Hroot & Hroota & Hproper &
        Hlineage).
  destruct (createNode_ascent uid (user_now env) user text
              (body_parentId body) p st chainP Hfu Hp)
    as (un1 & chain' & Hfst1 & Hasc & Hbare); [eauto|done|].
  destruct (post_messages_exchange fuel env body st text Htext Hne Haccepted)
    as (un2 & Hfst2 & ->).
  subst uid aid. cbv zeta in *.
  set (created := createNode (user_uuid env) (user_now env) user text
                             (body_parentId body) st) in *.
  assert (un1 = userNode) as -> by congruence.
  assert (un2 = userNode) as -> by congruence.
  assert (or_else (rootId userNode) (id userNode) = root) as Hrooteq
    by (by rewrite Hrootid, or_else_truthy).
  rewrite <- Hid in Hu, Hasc, Hlineage.
  destruct (exchange_spec fuel env userNode created.2 (userNode :: chain'))
    as (out & Hout & Hreq & _); try done.
  - rewrite Hid. by eapply fresh_truthy.
  - apply (f_equal length) in Hbare. rewrite !length_fmap in Hbare.
    rewrite length_cons. lia.
  - by apply fresh_nodes.
  - by rewrite Hrooteq.
  - by rewrite Hrooteq.
  - by rewrite Hrooteq.
  - exists out. split; [done|]. rewrite Hreq. f_equal.
    rewrite reverse_cons, request_of_snoc, Hrole', Hcontent. f_equal.
    apply request_of_bare. by rewrite !fmap_reverse, Hbare.
Qed.

Lemma post_messages_reply_request_witness :
  let env := mkPostEnv "u1" "t2" "a1" "t3" (λ _, Rejects "timeout") in
  let body := mkPostBody (Some "And then?") (Some "b") in
  let st0 := (createNode "a" "t0" user "Hello" None emptyForest).2 in
  let st := (createNode "b" "t1" assistant "Hi there" (Some "a") st0).2 in
  ∃ parentPath,
    getNodePath (size (nodes st)) "b" st = Some (own <$> parentPath) ∧
    ∀ fuel, size (nodes st) < fuel →
      ∃ out,
        post_messages fuel env body st = Some out ∧
        requests out =
          [request_of parentPath ++
           [mkMessage (node_role user) "And then?"]].
Proof.
  intros env body st0 st.
  apply (post_messages_reply_request env body st "And then?" "b"
           (mkNode "b" assistant "Hi there" (Some "a") [] "t1" (Some "a"))).
  - created.
    created.
    apply built_empty.
  - by_evaluation.
  - by_evaluation.
  - done.
  - reflexivity.
  - done.
  - reflexivity.
  - by vm_compute.
  - reflexivity.
Defined.

(** X15: a reply that passes the checks, on a forest the store can hold and
    that holds the root of the parent, whose completion resolves: the
    assistant node carries the text of the completion, or the fallback text
    when there is none, under the user node; the forest afterwards has the
    parent's root as its one root, and holds the two new nodes and the
    whole tree under that root, sibling branches included, and nothing
    else. *)
Theorem post_messages_reply env body st text p parentNode parentPath reply
    fuel :
  let uid := user_uuid env in
  let aid := assistant_uuid env in
  let root := key (getRootId p st) in
  built st → fresh st uid → fresh st aid → uid ≠ aid →
  body_content body = Some text → text ≠ "" →
  truthy (body_parentId body) = Some p →
  nodes st !! p = Some parentNode → role parentNode = assistant →
  is_Some (nodes st !! root) →
  getNodePath (size (nodes st)) p st = Some (own <$> parentPath) →
  provider env (request_of parentPath ++ [mkMessage (node_role user) text])
    = Resolves reply →
  size (nodes st) < fuel →
  ∃ out userNode assistantNode,
    post_messages fuel env body st = Some out ∧
    response out = Json userNode assistantNode (final out) ∧
    rootIds (final out) = [root] ∧
    nodes (final out) !! uid = Some userNode ∧
    children userNode = [aid] ∧ content userNode = text ∧
    nodes (final out) !! aid = Some assistantNode ∧
    parentId assistantNode = Some uid ∧
    content assistantNode = default fallback_text (truthy reply) ∧
    (∀ x, is_Some (nodes (final out) !! x) ↔
          x = uid ∨ x = aid ∨ reach (nodes st) root x).
Proof.
  intros uid aid root Hbuilt Hfu Hfa Hua Htext Hne Hp Hparent Hrole
    Hrootsome Hpath Hprov Hfuel.
  assert (accepted_parent st (body_parentId body)) as Haccepted.
  { unfold accepted_parent. rewrite Hp. eauto. }
  destruct (built_invariant _ Hbuilt) as (Hwf & _ & Hrooted).
  destruct (getNodePath_sound _ _ _ _ Hpath)
    as [(Hnone & _)|(_ & chainP & HeqP & HascP & Hlen)]; [congruence|].
  apply (f_equal path_nodes) in HeqP. rewrite !path_nodes_own in HeqP.
  subst parentPath.
  destruct (post_user_node env body st text
              Hbuilt Hfu Hfa Hua Haccepted)
    as (Hpid & Hwf1 & Hfa1 & userNode0 & root0 & Hfst & Hu & Hid & Hrole' &
        Hcontent & _ & Hchildless & Hrootid & Hroot & Hroota & _).
  destruct (createNode_ascent (user_uuid env) (user_now env) user text
              (body_parentId body) p st chainP Hfu Hp)
    as (un1 & chain' & Hfst1 & Hasc & Hbare); [eauto|done|].
  destruct (createNode_new_root (user_uuid env) (user_now env) user text
              (body_parentId body) st Hpid)
    as (un2 & Hu2' & _ & Hnewroot).
  rewrite Hp, Hparent in Hnewroot.
  destruct (post_messages_exchange fuel env body st text Htext Hne Haccepted)
    as (un3 & Hfst3 & ->).
  subst uid aid. cbv zeta in *.
  set (created := createNode (user_uuid env) (user_now env) user text
                             (body_parentId body) st) in *.
  set (uid := user_uuid env) in *. set (aid := assistant_uuid env) in *.
  assert (un1 = userNode0) as -> by congruence.
  assert (un2 = userNode0) as -> by congruence.
  assert (un3 = userNode0) as -> by congruence.
  destruct (Hrooted _ _ Hparent) as (rp & Hrp & Hrp_ne & _ & Hlineage).
  assert (root = rp) as Hrootrp.
  { unfold root, getRootId. rewrite (property_own _ _ _ Hparent), Hrp.
    by rewrite or_else_truthy. }
  assert (root0 = root) as ->.
  { rewrite Hnewroot, Hrp, or_else_truthy in Hrootid by done. congruence. }
  assert (reach (nodes st) root p) as Hreachp.
  { rewrite Hrootrp in *. destruct Hlineage as [Hnone|?]; [|done].
    destruct Hrootsome. congruence. }
  assert (root ≠ uid) as Hru.
  { intros Heq. rewrite Heq, (fresh_nodes _ _ Hfu) in Hrootsome.
    by destruct Hrootsome. }
  pose proof (fresh_truthy _ _ Hfu) as Huid.
  assert (provider env (request_of (reverse (userNode0 :: chain')))
            = Resolves reply) as Hprov'.
  { rewrite <- Hprov. f_equal.
    rewrite reverse_cons, request_of_snoc, Hrole', Hcontent. f_equal.
    apply request_of_bare. by rewrite !fmap_reverse, Hbare. }
  set (assistantNode :=
         mkNode aid assistant (default fallback_text (truthy reply))
                (Some uid) [] (assistant_now env) (Some root)).
  set (userNode := with_children userNode0 [aid]).
  set (st2 := mkForest (<[uid := userNode]>
                          (<[aid := assistantNode]> (nodes created.2)))
                       (rootIds created.2)).
  assert (createNode aid (assistant_now env) assistant
            (default fallback_text (truthy reply)) (Some (id userNode0))
            created.2 = (returned assistantNode, st2)) as Hcreate.
  { rewrite Hid.
    rewrite (createNode_attached _ _ _ _ _ _ uid userNode0);
      [|by apply truthy_intro|done|done].
    by rewrite Hchildless, Hid, Hrootid, (or_else_truthy _ _ Hroot). }
  assert (∀ x, reach (nodes st2) root x ↔
               x = uid ∨ x = aid ∨ reach (nodes st) root x) as Hreach2.
  { pose proof (λ x, reach_createNode_iff uid (user_now env) user text
                        (body_parentId body) st root x Hwf Hfu Hpid Hru)
      as H1.
    fold created in H1.
    assert (st2 = (createNode aid (assistant_now env) assistant
                     (default fallback_text (truthy reply))
                     (Some (id userNode0)) created.2).2) as ->
      by (by rewrite Hcreate).
    intros x. rewrite Hid.
    rewrite reach_createNode_iff; [|done|done|congruence|congruence].
    rewrite !H1, (truthy_intro uid Huid), Hp. split.
    - intros [[?|[-> _]]|[-> _]]; auto.
    - intros [->|[->|?]]; [|right|by left; left].
      + left. right. eauto.
      + split; [done|]. exists uid. split; [done|].
        apply H1. right. eauto. }
  assert (nodes st2 !! uid = Some userNode) as Hu2 by apply lookup_insert_eq.
  assert (nodes st2 !! aid = Some assistantNode) as Ha2.
  { unfold st2. cbn [nodes].
    rewrite lookup_insert_ne by done. apply lookup_insert_eq. }
  assert (getRootId uid st2 = Some root) as Hgetroot.
  { unfold getRootId. rewrite (property_own _ _ _ Hu2).
    cbn [rootId id userNode with_children].
    by rewrite Hrootid, (or_else_truthy _ _ Hroot). }
  destruct (pruneToRoot_spec root st2)
    as (R & st3 & Hprune & Hroots & HR & Hst3).
  { eapply reach_source. apply Hreach2. by left. }
  rewrite <- Hid in Hasc, Hu.
  rewrite (exchange_resolves fuel env userNode0 created.2
             (userNode0 :: chain') reply assistantNode st2 st3);
    [|eauto|done| |done|done|by rewrite Hid, Hgetroot].
  2: { apply (f_equal length) in Hbare. rewrite !length_fmap in Hbare.
       rewrite length_cons. lia. }
  rewrite Hid, Hu2. cbn [default].
  assert (uid ∈ R) as HuR by (apply HR, Hreach2; by left).
  assert (aid ∈ R) as HaR by (apply HR, Hreach2; right; by left).
  eexists _, userNode, assistantNode. split; [done|]. cbn [response final].
  split; [done|]. split; [done|].
  split; [|split; [done|split; [done|split; [|split; [done|split; [done|]]]]]].
  - rewrite Hst3, decide_True, Hu2 by done. cbn. unfold pruned, userNode.
    cbn. by rewrite decide_True.
  - by rewrite Hst3, decide_True, Ha2.
  - intros x. rewrite <- Hreach2, <- HR, Hst3.
    destruct (decide (x ∈ R)) as [Hx|Hx].
    + split; [done|]. intros _. apply fmap_is_Some.
      by eapply reach_target, HR.
    + split; [by intros [? ?]|done].
Qed.

Lemma post_messages_reply_witness :
  let env := mkPostEnv "u1" "t2" "a1" "t3" (λ _, Resolves (Some "Then this")) in
  let body := mkPostBody (Some "And then?") (Some "b") in
  let st0 := (createNode "a" "t0" user "Hello" None emptyForest).2 in
  let st := (createNode "b" "t1" assistant "Hi there" (Some "a") st0).2 in
  ∃ out userNode assistantNode,
    post_messages 3 env body st = Some out ∧
    response out = Json userNode assistantNode (final out) ∧
    rootIds (final out) = [key (getRootId "b" st)] ∧
    nodes (final out) !! "u1" = Some userNode ∧
    children userNode = ["a1"] ∧ content userNode = "And then?" ∧
    nodes (final out) !! "a1" = Some assistantNode ∧
    parentId assistantNode = Some "u1" ∧
    content assistantNode
      = default fallback_text (truthy (Some "Then this")) ∧
    (∀ x, is_Some (nodes (final out) !! x) ↔
          x = "u1" ∨ x = "a1" ∨ reach (nodes st) (key (getRootId "b" st)) x).
Proof.
  intros env body st0 st.
  apply (post_messages_reply env body st "And then?" "b"
           (mkNode "b" assistant "Hi there" (Some "a") [] "t1" (Some "a"))
           [mkNode "a" user "Hello" None ["b"] "t0" (Some "a");
            mkNode "b" assistant "Hi there" (Some "a") [] "t1" (Some "a")]
           (Some "Then this") 3).
  - created.
    created.
    apply built_empty.
  - by_evaluation.
  - by_evaluation.
  - done.
  - reflexivity.
  - done.
  - reflexivity.
  - by vm_compute.
  - reflexivity.
  - by_evaluation.
  - by vm_compute.
  - reflexivity.
  - vm_compute. lia.
Defined.

(** ** DELETE /messages/:id *)

(** X16: the DELETE handler answers 404 for an id under which the lookup
    finds nothing, and 400 for the name of an inherited member of the
    object and for a node without a (truthy) parent id, and leaves the
    forest as it is in these cases; for any other node it ends with the
    state as its answer, or, when [pruneToRoot] throws, with 500 and the
    message of the exception. *)
Theorem delete_messages_answers targetId st :
  (nodes st !! targetId = None → targetId ∉ Object_prototype →
   delete_messages targetId st
     = Some (Error 404 "Message not found." None, st)) ∧
  (nodes st !! targetId = None → targetId ∈ Object_prototype →
   delete_messages targetId st
     = Some (Error 400 "Root messages cannot be deleted." None, st)) ∧
  (∀ targetNode,
     nodes st !! targetId = Some targetNode → is_root targetNode →
     delete_messages targetId st
       = Some (Error 400 "Root messages cannot be deleted." None, st)) ∧
  (∀ targetNode,
     nodes st !! targetId = Some targetNode → ¬ is_root targetNode →
     ∃ st',
       delete_messages targetId st = Some (State st', st') ∨
       delete_messages targetId st
         = Some (Error 500 "Failed to delete message."
                       (Some (cannot_read "filter")), st')).
Proof.
  unfold delete_messages, is_root. split; [|split; [|split]].
  - intros Hnone Hout. by rewrite (property_missing _ _ Hnone Hout).
  - intros Hnone Hin. by rewrite (property_inherited _ _ Hnone Hin).
  - intros targetNode Ht Hroot. by rewrite (property_own _ _ _ Ht), Hroot.
  - intros targetNode Ht Hparent. rewrite (property_own _ _ _ Ht).
    destruct (truthy (parentId targetNode)) as [pid|]; [|done].
    destruct (deleteSubtree_total targetId (detachChild targetId pid st))
      as [st2 ->].
    cbn [mbind option_bind].
    match goal with
    | |- ∃ _, pruneToRoot ?r st2 ≫= _ = _ ∨ _ =>
        destruct (pruneToRoot_total r st2) as (ending & st3 & Hprune)
    end.
    rewrite Hprune. cbn [mbind option_bind]. exists st3.
    destruct ending as [[]|message]; [by left|right].
    by apply pruneToRoot_thrown in Hprune as [-> _].
Qed.

Lemma delete_messages_answers_witness :
  let st := (createNode "a" "t0" user "Hello" None emptyForest).2 in
  delete_messages "b" st = Some (Error 404 "Message not found." None, st) ∧
  delete_messages "constructor" st
    = Some (Error 400 "Root messages cannot be deleted." None, st) ∧
  delete_messages "a" st
    = Some (Error 400 "Root messages cannot be deleted." None, st).
Proof.
  intros st.
  destruct (delete_messages_answers "b" st) as [Hmissing _].
  destruct (delete_messages_answers "constructor" st) as (_ & Hinherited & _).
  destruct (delete_messages_answers "a" st) as (_ & _ & Hroot & _).
  split; [|split].
  - apply Hmissing; [done|by_evaluation].
  - apply Hinherited; [done|by_evaluation].
  - by apply (Hroot (mkNode "a" user "Hello" None [] "t0" (Some "a"))).
Defined.

(** The subtree of a node is still under it once the node is detached. *)
Lemma reach_detached t pid st x :
  reach (nodes st) t x → reach (nodes (detachChild t pid st)) t x.
Proof.
  destruct (detachChild_nodes t pid st) as [_ Hdetached].
  induction 1 as [[node Hnode]|y node c _ IH Hy Hc [child Hchild]].
  - apply reach_refl. destruct (Hdetached _ _ Hnode) as (? & -> & _). eauto.
  - destruct (decide (c = t)) as [->|Hct].
    + apply reach_refl. eapply reach_source, IH.
    + destruct (Hdetached _ _ Hy) as (node1 & Hy1 & Hchildren).
      destruct (Hdetached _ _ Hchild) as (child1 & Hchild1 & _).
      eapply reach_child; [done|done|by apply Hchildren|eauto].
Qed.

(** X17: on a forest the store can hold, the DELETE handler, given a node
    with a parent id, removes the node and everything under it; no node
    that is left lists the removed id as a child, and the nodes that are
    left are as they were, children lists apart.  When the root cached in
    the node is stored and outside its subtree, the forest afterwards has
    that root as its one root and holds exactly what is under the root and
    not under the removed node. *)
Theorem delete_messages_removes targetId st targetNode :
  built st →
  nodes st !! targetId = Some targetNode → ¬ is_root targetNode →
  let root := key (rootId targetNode) in
  ∃ st',
    delete_messages targetId st = Some (State st', st') ∧
    (∀ x, reach (nodes st) targetId x → nodes st' !! x = None) ∧
    (∀ k node, nodes st' !! k = Some node → targetId ∉ children node) ∧
    thins (nodes st) (nodes st') ∧
    (is_Some (nodes st !! root) → ¬ reach (nodes st) targetId root →
     rootIds st' = [root] ∧
     ∀ x, is_Some (nodes st' !! x) ↔
          reach (nodes st) root x ∧ ¬ reach (nodes st) targetId x).
Proof.
  intros Hbuilt Ht Hparent root.
  destruct (built_invariant _ Hbuilt) as (_ & Hlinked & Hrooted).
  pose proof (built_proper_keys _ Hbuilt) as Hproper.
  destruct (Hrooted _ _ Ht) as (r & Hr & Hrootne & Hrout & _).
  assert (root = r) as Hrootr by (unfold root; by rewrite Hr).
  assert (r ∉ Object_prototype) as Hrproper.
  { destruct (nodes st !! r) eqn:Hsome; [|by apply Hrout].
    apply Hproper. by rewrite Hsome. }
  unfold is_root in Hparent.
  destruct (truthy (parentId targetNode)) as [pid|] eqn:Hpid; [|done].
  clear Hparent.
  set (st1 := detachChild targetId pid st).
  destruct (deleteSubtree_spec targetId st1)
    as (st2 & Hsweep & Hroots2 & Hgone & Hkept).
  destruct (pruneToRoot_total root st2) as (ending & st3 & Hprune).
  assert (ending = returned ()) as ->.
  { destruct ending as [[]|message]; [done|].
    apply pruneToRoot_thrown in Hprune as (_ & _ & _ & Hin).
    rewrite Hrootr in Hin. done. }
  assert (delete_messages targetId st = Some (State st3, st3)) as Hdel.
  { unfold delete_messages. rewrite (property_own _ _ _ Ht), Hpid.
    fold st1. rewrite Hr, (truthy_intro _ Hrootne).
    change (key (Some r)) with r.
    rewrite Hsweep. cbn [mbind option_bind].
    rewrite <- Hrootr. by rewrite Hprune. }
  destruct (detachChild_nodes targetId pid st) as [Hsub1 Hdetached].
  fold st1 in Hsub1, Hdetached.
  pose proof (deleteSubtree_restricts _ _ _ Hsweep) as Hsub2.
  pose proof (pruneToRoot_restricts _ _ _ _ Hprune) as Hsub3.
  assert (∀ x, reach (nodes st) targetId x → nodes st2 !! x = None)
    as Hgone2.
  { intros x Hx. apply Hgone. by apply reach_detached. }
  exists st3. split; [done|]. split; [|split; [|split]].
  - intros x Hx. destruct (nodes st3 !! x) as [n3|] eqn:Hn3; [|done].
    destruct (Hsub3 _ _ Hn3) as (n2 & Hn2 & _).
    rewrite Hgone2 in Hn2 by done. done.
  - intros k node Hk Hin.
    destruct (restricts_trans _ _ _ Hsub2 Hsub3 _ _ Hk)
      as (node1 & Hk1 & _ & _ & _ & Hch).
    apply Hch in Hin. unfold st1, detachChild in Hk1.
    destruct (nodes st !! pid) as [parentNode|] eqn:Hp; cbn [nodes] in Hk1.
    + apply lookup_insert_Some in Hk1 as [[<- <-]|[Hne Hk0]].
      * cbn in Hin. by apply list_elem_of_filter in Hin as [? _].
      * apply Hne. pose proof (Hlinked _ _ _ _ Hk0 Hin Ht) as Heq.
        apply truthy_Some in Hpid as [Hpid _]. congruence.
    + pose proof (Hlinked _ _ _ _ Hk1 Hin Ht) as Heq.
      apply truthy_Some in Hpid as [Hpid _]. congruence.
  - apply removal_thins. by eapply removal_delete_messages.
  - intros Hroot Hout.
    assert (∀ x, reach (nodes st) root x → ¬ reach (nodes st) targetId x →
                 reach (nodes st2) root x) as Hsurvive.
    { intros x Hx Hnx.
      apply (reach_survives (nodes st) (nodes st1) (nodes st2) targetId);
        [done|done|done|].
      intros Hx1. apply Hnx. revert Hx1. apply reach_mono.
      intros k n1 Hk. destruct (Hsub1 _ _ Hk) as (n & ? & _ & _ & _ & ?).
      eauto. }
    assert (is_Some (nodes st2 !! root)) as Hroot2.
    { eapply reach_source, Hsurvive; [by apply reach_refl|done]. }
    destruct (pruneToRoot_spec root st2 Hroot2)
      as (R & st3' & Hprune' & Hroots & HR & Hst3).
    rewrite Hprune in Hprune'. injection Hprune' as <-.
    split; [done|]. intros x. rewrite Hst3. split.
    + intros Hx. destruct (decide (x ∈ R)) as [HxR|]; [|by destruct Hx].
      apply HR in HxR. split.
      * revert HxR. apply reach_mono. intros k n2 Hk.
        destruct (restricts_trans _ _ _ Hsub1 Hsub2 _ _ Hk)
          as (n & ? & _ & _ & _ & ?). eauto.
      * intros Hreach. apply reach_target in HxR as [? HxR].
        rewrite Hgone2 in HxR by done. done.
    + intros [Hx Hnx]. pose proof (Hsurvive _ Hx Hnx) as Hx2.
      rewrite decide_True by by apply HR.
      apply fmap_is_Some. by eapply reach_target.
Qed.

Lemma delete_messages_removes_witness :
  let st0 := (createNode "a" "t0" user "Hello" None emptyForest).2 in
  let st1 := (createNode "b" "t1" assistant "Hi there" (Some "a") st0).2 in
  let st := (createNode "c" "t2" user "And then?" (Some "b") st1).2 in
  ∃ st',
    delete_messages "b" st = Some (State st', st') ∧
    (∀ x, reach (nodes st) "b" x → nodes st' !! x = None) ∧
    (∀ k node, nodes st' !! k = Some node → "b" ∉ children node) ∧
    thins (nodes st) (nodes st') ∧
    (is_Some (nodes st !! "a") → ¬ reach (nodes st) "b" "a" →
     rootIds st' = ["a"] ∧
     ∀ x, is_Some (nodes st' !! x) ↔
          reach (nodes st) "a" x ∧ ¬ reach (nodes st) "b" x).
Proof.
  intros st0 st1 st.
  apply (delete_messages_removes "b" st
           (mkNode "b" assistant "Hi there" (Some "a") ["c"] "t1"
                   (Some "a"))).
  - created.
    created.
    created.
    apply built_empty.
  - by vm_compute.
  - by vm_compute.
Defined.

(** ** The client's view *)

Lemma elem_of_resolved m ids node :
  node ∈ resolved m ids ↔ ∃ i, i ∈ ids ∧ m !! i = Some node.
Proof. apply list_elem_of_omap. Qed.

(** When all the ids resolve, to nodes stored under their ids, the nodes
    shown are as many as the ids and carry them in order. *)
Lemma resolved_all m ids :
  keyed m → (∀ i, i ∈ ids → is_Some (m !! i)) →
  id <$> resolved m ids = ids.
Proof.
  intros Hkeyed. induction ids as [|i ids IH]; intros Hall; [done|].
  destruct (Hall i) as [node Hnode]; [left|].
  unfold resolved. cbn [omap list_omap]. rewrite Hnode. cbn [fmap list_fmap].
  rewrite (Hkeyed _ _ Hnode). f_equal. apply IH.
  intros j Hj. apply Hall. by right.
Qed.

(** X18: what the client shows of a state that [pruneToRoot r] left, [r]
    resolving, on a forest the store can hold: the list of threads is the
    one node [r]; focused on a node that is left, the view has that node as
    parent and all the children it lists, in order, so the reply count of
    its card is the length of its children list. *)
Theorem view_after_pruneToRoot st r ending st' :
  built st → is_Some (nodes st !! r) →
  pruneToRoot r st = Some (ending, st') →
  (∃ rootNode, nodes st' !! r = Some rootNode ∧
               getCurrentView None st' = mkView None [rootNode]) ∧
  (∀ k node, nodes st' !! k = Some node →
     view_parent (getCurrentView (handleExpandPost k) st') = Some node ∧
     id <$> view_children (getCurrentView (handleExpandPost k) st')
       = children node ∧
     replyCount node (nodes st') = length (children node)).
Proof.
  intros Hbuilt Hr Hprune.
  assert (built st') as Hbuilt' by by eapply built_pruneToRoot.
  destruct (built_well_formed _ Hbuilt') as (Hkeyed & Hempty & _).
  destruct (pruneToRoot_spec r st Hr) as (R & st1 & Hp & Hroots & HR & Hst').
  rewrite Hp in Hprune. injection Hprune as <- <-.
  assert (∀ k node c, nodes st1 !! k = Some node → c ∈ children node →
                      is_Some (nodes st1 !! c)) as Hclosed.
  { intros k node c Hk Hc. rewrite Hst' in Hk.
    destruct (decide (k ∈ R)); [|done].
    destruct (nodes st !! k) as [node0|]; [|done]. injection Hk as <-.
    cbn in Hc. apply list_elem_of_filter in Hc as [HcR _].
    rewrite Hst', decide_True by done.
    apply fmap_is_Some. by eapply reach_target, HR. }
  split.
  - assert (is_Some (nodes st1 !! r)) as [rootNode Hroot].
    { rewrite Hst', decide_True by (apply HR; by apply reach_refl).
      by apply fmap_is_Some. }
    exists rootNode. split; [done|].
    unfold getCurrentView. cbn [truthy]. rewrite Hroots.
    unfold resolved. cbn [omap list_omap]. by rewrite Hroot.
  - intros k node Hk.
    assert (k ≠ "") as Hne by congruence.
    unfold getCurrentView, handleExpandPost, replyCount.
    rewrite (truthy_intro _ Hne), Hk. cbn [view_parent view_children].
    split; [done|].
    assert (id <$> resolved (nodes st1) (children node) = children node)
      as Hids.
    { apply resolved_all; [done|]. intros c Hc. by eapply Hclosed. }
    split; [done|]. by rewrite <- Hids at 2; rewrite length_fmap.
Qed.

Lemma view_after_pruneToRoot_witness :
  let st0 := (createNode "a" "t0" user "Hello" None emptyForest).2 in
  let st1 := (createNode "b" "t1" assistant "Hi there" (Some "a") st0).2 in
  let st := (createNode "c" "t2" user "Other topic" None st1).2 in
  let st' := mkForest
    {[ "a" := mkNode "a" user "Hello" None ["b"] "t0" (Some "a");
       "b" := mkNode "b" assistant "Hi there" (Some "a") [] "t1"
                     (Some "a") ]}
    ["a"] in
  (∃ rootNode, nodes st' !! "a" = Some rootNode ∧
               getCurrentView None st' = mkView None [rootNode]) ∧
  (∀ k node, nodes st' !! k = Some node →
     view_parent (getCurrentView (handleExpandPost k) st') = Some node ∧
     id <$> view_children (getCurrentView (handleExpandPost k) st')
       = children node ∧
     replyCount node (nodes st') = length (children node)).
Proof.
  intros st0 st1 st st'.
  apply (view_after_pruneToRoot st "a" (returned ()) st').
  - created.
    created.
    created.
    apply built_empty.
  - by_evaluation.
  - by vm_compute.
Defined.

(** X19: on a forest the store can hold, expanding a child shown under the
    focused post makes that child the parent of the view, and going to the
    parent from there brings back the view there was. *)
Theorem expand_then_go_to_parent st focusedPost parent child :
  built st →
  view_parent (getCurrentView focusedPost st) = Some parent →
  child ∈ view_children (getCurrentView focusedPost st) →
  view_parent (getCurrentView (handleExpandPost (id child)) st)
    = Some child ∧
  getCurrentView (handleGoToParent (parentId child)) st
    = getCurrentView focusedPost st.
Proof.
  intros ((Hkeyed & Hempty & _) & Hlinked & _)%built_invariant.
  unfold getCurrentView at 1 2.
  destruct (truthy focusedPost) as [f|] eqn:Hf; [|done].
  destruct (nodes st !! f) as [node|] eqn:Hnode; [|done].
  cbn [view_parent view_children]. intros [= ->].
  intros (c & Hc & Hchild)%elem_of_resolved.
  rewrite (Hkeyed _ _ Hchild).
  assert (c ≠ "") as Hne by congruence. split.
  - unfold getCurrentView, handleExpandPost.
    by rewrite (truthy_intro _ Hne), Hchild.
  - unfold handleGoToParent, getCurrentView.
    rewrite (Hlinked _ _ _ _ Hnode Hc Hchild), Hf.
    apply truthy_Some in Hf as [_ Hfne].
    by rewrite (truthy_intro _ Hfne).
Qed.

Lemma expand_then_go_to_parent_witness :
  let st0 := (createNode "a" "t0" user "Hello" None emptyForest).2 in
  let st := (createNode "b" "t1" assistant "Hi there" (Some "a") st0).2 in
  let child :=
    mkNode "b" assistant "Hi there" (Some "a") [] "t1" (Some "a") in
  view_parent (getCurrentView (handleExpandPost (id child)) st)
    = Some child ∧
  getCurrentView (handleGoToParent (parentId child)) st
    = getCurrentView (Some "a") st.
Proof.
  intros st0 st child.
  apply (expand_then_go_to_parent st (Some "a")
           (mkNode "a" user "Hello" None ["b"] "t0" (Some "a")) child).
  - created.
    created.
    apply built_empty.
  - by vm_compute.
  - by_evaluation.
Defined.

(** ** The shape of the forest *)

Lemma occurrences_NoDup x l : NoDup l → x ∈ l → occurrences x l = 1.
Proof.
  intros Hnd (l1 & l2 & ->)%list_elem_of_split.
  apply NoDup_app in Hnd as (_ & Hl1 & [Hl2 _]%NoDup_cons).
  rewrite occurrences_app.
  change (x :: l2) with ([x] ++ l2). rewrite occurrences_app.
  rewrite occurrences_singleton, (occurrences_absent x l2) by done.
  assert (x ∉ l1) as Hx1.
  { intros Hx. apply (Hl1 _ Hx). by left. }
  by rewrite (occurrences_absent x l1).
Qed.

Lemma trims_refl m : trims m m.
Proof. intros k node Hk. exists node. eauto. Qed.

Lemma trims_trans m1 m2 m3 : trims m1 m2 → trims m2 m3 → trims m1 m3.
Proof.
  intros H12 H23 k n3 Hk.
  destruct (H23 _ _ Hk) as (n2 & Hk2 & Hp2 & Hs2 & Hc2).
  destruct (H12 _ _ Hk2) as (n1 & Hk1 & Hp1 & Hs1 & Hc1).
  exists n1. split; [done|]. split; [congruence|].
  split; [by etrans|].
  intros c Hc [child3 Hchild3]. apply Hc2; [|eauto]. apply Hc1; [done|].
  destruct (H23 _ _ Hchild3) as (child2 & Hchild2 & _). eauto.
Qed.

Lemma pruneToRoot_trims r st ending st' :
  pruneToRoot r st = Some (ending, st') → trims (nodes st) (nodes st').
Proof.
  intros [[_ ->]|(_ & _ & R & _ & _ & Hst1)]%pruneToRoot_inv.
  - apply trims_refl.
  - intros k n' Hk. rewrite Hst1 in Hk. destruct (decide (k ∈ R)); [|done].
    destruct (nodes st !! k) as [n|]; [|done]. injection Hk as <-.
    exists n. do 2 (split; [done|]). split; [apply sublist_filter|].
    intros c Hc [child Hchild]. apply list_elem_of_filter. split; [|done].
    rewrite Hst1 in Hchild. by destruct (decide (c ∈ R)).
Qed.

Lemma deleteSubtree_trims n st st' :
  deleteSubtree n st = Some st' → trims (nodes st) (nodes st').
Proof.
  intros Hdel.
  destruct (sweep_spec (size (nodes st)) (nodes st) [n] (le_n _))
    as (m' & Hsweep & Hsub & _).
  unfold deleteSubtree in Hdel. rewrite Hsweep in Hdel. injection Hdel as <-.
  simpl. intros k n' Hk.
  exists n'. split; [by eapply lookup_weaken|]. eauto.
Qed.

(** Detaching a node and deleting its subtree, as the DELETE handler does. *)
Lemma detach_delete_trims t pid st st2 :
  deleteSubtree t (detachChild t pid st) = Some st2 →
  trims (nodes st) (nodes st2).
Proof.
  intros Hdel.
  destruct (deleteSubtree_spec t (detachChild t pid st))
    as (st2' & Hdel' & _ & Hgone & Hkept).
  rewrite Hdel in Hdel'. injection Hdel' as <-.
  assert (nodes st2 !! t = None) as Ht.
  { destruct (nodes (detachChild t pid st) !! t) as [target|] eqn:Ht1.
    - apply Hgone. apply reach_refl. eauto.
    - rewrite Hkept; [done|]. intros [? ?]%reach_target. congruence. }
  intros k n' Hk.
  assert (nodes (detachChild t pid st) !! k = Some n') as Hk1.
  { rewrite <- Hkept; [done|]. intros Hreach.
    apply Hgone in Hreach. congruence. }
  unfold detachChild in Hk1.
  destruct (nodes st !! pid) as [parentNode|] eqn:Hp; simpl in Hk1.
  - apply lookup_insert_Some in Hk1 as [[<- <-]|[_ Hk1]].
    + exists parentNode. do 2 (split; [done|]).
      split; [apply sublist_filter|].
      intros c Hc [child Hchild]. apply list_elem_of_filter.
      split; [congruence|done].
    + exists n'. eauto.
  - exists n'. eauto.
Qed.

Lemma delete_messages_trims targetId st res st' :
  delete_messages targetId st = Some (res, st') →
  trims (nodes st) (nodes st').
Proof.
  intros [->|(pid & st2 & root & ending & Hsweep & Hprune)]%delete_messages_inv.
  - apply trims_refl.
  - eapply trims_trans; [by eapply detach_delete_trims|].
    by eapply pruneToRoot_trims.
Qed.

Lemma listed_trims m m' : trims m m' → listed m → listed m'.
Proof.
  intros Htrims Hlisted k node' p parent' Hk Hp Hparent.
  destruct (Htrims _ _ Hk) as (node & Hk0 & Hpid & _).
  destruct (Htrims _ _ Hparent) as (parent & Hparent0 & _ & _ & Hkeep).
  apply Hkeep; [|eauto]. eapply Hlisted; [done| |done]. by rewrite <- Hpid.
Qed.

Lemma children_NoDup_trims m m' :
  trims m m' →
  (∀ k node, m !! k = Some node → NoDup (children node)) →
  ∀ k node, m' !! k = Some node → NoDup (children node).
Proof.
  intros Htrims Hnd k node' Hk.
  destruct (Htrims _ _ Hk) as (node & Hk0 & _ & Hsub & _).
  eapply sublist_NoDup; [|done]. eauto.
Qed.

(** After a prune that finds its root, the root is the one stored node
    without a parent id. *)
Lemma roots_listed_pruneToRoot r st ending st' :
  nodes st !! "" = None → linked (nodes st) →
  pruneToRoot r st = Some (ending, st') → roots_listed st → roots_listed st'.
Proof.
  intros Hempty Hlinked Hprune Hroots.
  destruct (pruneToRoot_inv _ _ _ _ Hprune)
    as [[_ ->]|(_ & _ & R & Hids & HR & Hst1)]; [done|].
  - intros k n' Hk Hroot. rewrite Hids. apply list_elem_of_singleton.
    rewrite Hst1 in Hk. destruct (decide (k ∈ R)) as [Hin|]; [|done].
    destruct (nodes st !! k) as [n|] eqn:Hk0; [|done]. injection Hk as <-.
    apply HR in Hin.
    destruct (reach_inv _ _ _ Hin) as [->|(y & parent & Hy & Hc)]; [done|].
    pose proof (Hlinked _ _ _ _ Hy Hc Hk0) as Hpid.
    unfold is_root in Hroot. simpl in Hroot. rewrite Hpid in Hroot.
    rewrite truthy_intro in Hroot; [done|]. congruence.
Qed.

Lemma roots_listed_restricts st st' :
  restricts (nodes st) (nodes st') → rootIds st' = rootIds st →
  roots_listed st → roots_listed st'.
Proof.
  intros Hsub Hids Hroots k n' Hk Hroot.
  destruct (Hsub _ _ Hk) as (n & Hk0 & _ & Hpid & _).
  rewrite Hids. apply (Hroots _ _ Hk0). unfold is_root in *. congruence.
Qed.

Lemma no_repeats_rootIds_pruneToRoot r st ending st' :
  pruneToRoot r st = Some (ending, st') →
  NoDup (rootIds st) → NoDup (rootIds st').
Proof.
  intros [[_ ->]|(_ & _ & R & Hids & _)]%pruneToRoot_inv Hnd; [done|].
  rewrite Hids. apply NoDup_singleton.
Qed.

Lemma detachChild_rootIds t pid st :
  rootIds (detachChild t pid st) = rootIds st.
Proof. unfold detachChild. by destruct (nodes st !! pid). Qed.

Lemma shape_createNode st uuid now r c pid :
  fresh st uuid → pid ≠ Some uuid →
  listed (nodes st) ∧ roots_listed st ∧ no_repeats st →
  let st' := (createNode uuid now r c pid st).2 in
  listed (nodes st') ∧ roots_listed st' ∧ no_repeats st'.
Proof.
  intros Hfresh Hpid (Hlisted & Hroots & Hnd_roots & Hnd) st'.
  pose proof (fresh_nodes _ _ Hfresh) as Hnone.
  destruct (createNode_nodes uuid now r c pid st Hfresh Hpid)
    as ((new & Hnew & _ & _ & _ & Hnewpid & Hnewch & _) & _ & _ & Hout).
  fold st' in Hnew, Hout.
  assert (∀ k node', nodes st' !! k = Some node' → k ≠ uuid →
            ∃ node, nodes st !! k = Some node ∧ bare node' = bare node ∧
              (children node' = children node ∨
               (truthy pid = Some k ∧
                children node' = children node ++ [uuid]))) as Hold.
  { intros k node' Hk Hne.
    destruct (nodes st !! k) as [node|] eqn:Hk0.
    - destruct (createNode_old_node uuid now r c pid st k node Hfresh Hpid Hk0)
        as (node'' & Hk' & Hrest).
      fold st' in Hk'. exists node. split; [done|].
      assert (node' = node'') as -> by congruence.
      destruct Hrest as [Hbare Hch]. split; [done|].
      destruct (decide (truthy pid = Some k)); eauto.
    - by rewrite (Hout k Hne Hk0) in Hk. }
  split; [|split; [|split]].
  - intros k node' p parent' Hk Hp Hparent.
    destruct (decide (k = uuid)) as [->|Hku].
    + assert (node' = new) as -> by congruence.
      assert (truthy pid = Some p) as Htp by (by rewrite <- Hnewpid).
      assert (p ≠ uuid) as Hpu.
      { apply truthy_Some in Htp as [-> _]. congruence. }
      destruct (Hold _ _ Hparent Hpu) as (parent & Hparent0 & _).
      revert Hparent. subst st'.
      rewrite (createNode_attached _ _ _ _ _ _ _ _ Htp Hparent0 Hpu). simpl.
      rewrite lookup_insert_eq. intros [= <-]. simpl.
      apply elem_of_app. right. by left.
    + destruct (Hold _ _ Hk Hku) as (node & Hk0 & Hbare & _).
      assert (parentId node' = parentId node) as Hsame
        by apply bare_parentId, Hbare.
      rewrite Hsame in Hp.
      assert (p ≠ uuid) as Hpu.
      { intros ->. apply truthy_Some in Hp as [Hp _].
        by apply (fresh_parent _ _ _ _ Hfresh Hk0). }
      destruct (Hold _ _ Hparent Hpu) as (parent & Hparent0 & _ & Hch).
      pose proof (Hlisted _ _ _ _ Hk0 Hp Hparent0) as Hin.
      destruct Hch as [->|[_ ->]]; [done|]. apply elem_of_app. by left.
  - intros k node' Hk Hroot.
    destruct (decide (k = uuid)) as [->|Hku].
    + assert (node' = new) as -> by congruence.
      assert (truthy pid = None) as Htp by (by rewrite <- Hnewpid).
      subst st'. rewrite createNode_rootless by done. simpl.
      apply elem_of_app. right. by left.
    + destruct (Hold _ _ Hk Hku) as (node & Hk0 & Hbare & _).
      assert (parentId node' = parentId node) as Hsame
        by apply bare_parentId, Hbare.
      unfold is_root in Hroot. rewrite Hsame in Hroot.
      pose proof (Hroots _ _ Hk0 Hroot) as Hin.
      subst st'. rewrite createNode_rootIds.
      destruct (truthy pid); [done|]. apply elem_of_app. by left.
  - subst st'. rewrite createNode_rootIds.
    destruct (truthy pid); [done|].
    apply NoDup_app. split; [done|]. split; [|apply NoDup_singleton].
    intros x Hx ->%list_elem_of_singleton.
    by apply (fresh_roots _ _ Hfresh).
  - intros k node' Hk.
    destruct (decide (k = uuid)) as [->|Hku].
    + assert (node' = new) as -> by congruence.
      rewrite Hnewch. apply NoDup_nil_2.
    + destruct (Hold _ _ Hk Hku) as (node & Hk0 & _ & Hch).
      pose proof (Hnd _ _ Hk0) as Hnode.
      destruct Hch as [->|[_ ->]]; [done|].
      apply NoDup_app. split; [done|]. split; [|apply NoDup_singleton].
      intros x Hx ->%list_elem_of_singleton.
      by apply (fresh_children _ _ _ _ Hfresh Hk0).
Qed.

Lemma built_shape st :
  built st → listed (nodes st) ∧ roots_listed st ∧ no_repeats st.
Proof.
  induction 1 as [|st uuid now r c pid Hbuilt IH Hfresh Hproper Hpid Hreturns
                  |st r ending st' Hbuilt (IHl & IHr & IHroots & IHch) Hprune
                  |st n st' Hbuilt (IHl & IHr & IHroots & IHch) Hdel
                  |st targetId res st' Hbuilt (IHl & IHr & IHroots & IHch)
                     Hdel].
  - split; [by intros k node|]. split; [by intros k node|].
    split; [apply NoDup_nil_2|by intros k node].
  - by apply shape_createNode.
  - destruct (built_invariant _ Hbuilt) as ((_ & Hempty & _) & Hlinked & _).
    pose proof (pruneToRoot_trims _ _ _ _ Hprune) as Htrims.
    split; [by eapply listed_trims|].
    split; [by eapply roots_listed_pruneToRoot|].
    split; [by eapply no_repeats_rootIds_pruneToRoot|].
    by eapply children_NoDup_trims.
  - pose proof (deleteSubtree_trims _ _ _ Hdel) as Htrims.
    pose proof (deleteSubtree_restricts _ _ _ Hdel) as Hsub.
    destruct (deleteSubtree_spec n st) as (st1 & Hdel' & Hids & _).
    rewrite Hdel in Hdel'. injection Hdel' as <-.
    split; [by eapply listed_trims|].
    split; [by eapply roots_listed_restricts|].
    split; [by rewrite Hids|by eapply children_NoDup_trims].
  - destruct (built_invariant _ Hbuilt) as ((_ & Hempty & _) & Hlinked & _).
    pose proof (delete_messages_trims _ _ _ _ Hdel) as Htrims.
    split; [by eapply listed_trims|].
    split; [|split; [|by eapply children_NoDup_trims]].
    + apply delete_messages_inv in Hdel
        as [->|(pid & st2 & root & ending & Hsweep & Hprune)]; [done|].
      destruct (detachChild_nodes targetId pid st) as [Hsub1 _].
      pose proof (deleteSubtree_restricts _ _ _ Hsweep) as Hsub2.
      assert (restricts (nodes st) (nodes st2)) as Hsub
        by (by eapply restricts_trans).
      destruct (deleteSubtree_spec targetId (detachChild targetId pid st))
        as (st2' & Hsweep' & Hids & _).
      rewrite Hsweep in Hsweep'. injection Hsweep' as <-.
      rewrite detachChild_rootIds in Hids.
      eapply roots_listed_pruneToRoot; [| |done|].
      * destruct (nodes st2 !! "") as [n|] eqn:Hn; [|done].
        destruct (Hsub _ _ Hn) as (? & ? & _). congruence.
      * by eapply linked_restricts.
      * by eapply roots_listed_restricts.
    + apply delete_messages_inv in Hdel
        as [->|(pid & st2 & root & ending & Hsweep & Hprune)]; [done|].
      destruct (deleteSubtree_spec targetId (detachChild targetId pid st))
        as (st2' & Hsweep' & Hids & _).
      rewrite Hsweep in Hsweep'. injection Hsweep' as <-.
      rewrite detachChild_rootIds in Hids.
      eapply no_repeats_rootIds_pruneToRoot; [done|]. by rewrite Hids.
Qed.

(** X20: on a forest the store can hold, a children list holds no id twice
    and every stored node it names has the listing node as parent; a stored
    node is listed only by the parent it names, exactly once by that parent
    when the parent is stored, and exactly once in the root-id sequence
    when it has no parent id. *)
Theorem built_forest_shape st k node :
  built st → nodes st !! k = Some node →
  NoDup (children node) ∧
  (∀ c child, c ∈ children node → nodes st !! c = Some child →
     parentId child = Some k) ∧
  (∀ q other, nodes st !! q = Some other → k ∈ children other →
     truthy (parentId node) = Some q) ∧
  match truthy (parentId node) with
  | Some p =>
      ∀ parent, nodes st !! p = Some parent →
        occurrences k (children parent) = 1
  | None => occurrences k (rootIds st) = 1
  end.
Proof.
  intros Hbuilt Hk.
  destruct (built_invariant _ Hbuilt) as ((_ & Hempty & _) & Hlinked & _).
  destruct (built_shape _ Hbuilt) as (Hlisted & Hroots & Hnd_roots & Hnd).
  split; [by eapply Hnd|].
  split; [intros c child Hc Hchild; by eapply Hlinked|]. split.
  - intros q other Hq Hin. rewrite (Hlinked _ _ _ _ Hq Hin Hk).
    apply truthy_intro. congruence.
  - destruct (truthy (parentId node)) as [p|] eqn:Hp.
    + intros parent Hparent. apply occurrences_NoDup; [by eapply Hnd|].
      by eapply Hlisted.
    + apply occurrences_NoDup; [done|]. by eapply Hroots.
Qed.

Lemma built_forest_shape_witness :
  let st0 := (createNode "a" "t0" user "Hello" None emptyForest).2 in
  let st1 := (createNode "b" "t1" assistant "Hi there" (Some "a") st0).2 in
  let st := (createNode "c" "t2" user "More" (Some "b") st1).2 in
  let node :=
    mkNode "b" assistant "Hi there" (Some "a") ["c"] "t1" (Some "a") in
  NoDup (children node) ∧
  (∀ c child, c ∈ children node → nodes st !! c = Some child →
     parentId child = Some "b") ∧
  (∀ q other, nodes st !! q = Some other → "b" ∈ children other →
     truthy (parentId node) = Some q) ∧
  ∀ parent, nodes st !! "a" = Some parent →
    occurrences "b" (children parent) = 1.
Proof.
  intros st0 st1 st node.
  apply (built_forest_shape st "b" node); [|by vm_compute].
  created.
  created.
  created.
  apply built_empty.
Defined.

(** ** Lookups at the ids the store holds *)

Lemma proper_links_restricts st st' :
  restricts (nodes st) (nodes st') →
  (∀ r, r ∈ rootIds st' → r ∈ rootIds st ∨ is_Some (nodes st !! r)) →
  proper_keys (nodes st) → proper_links st → proper_links st'.
Proof.
  intros Hsub Hroots Hkeys [Hnodes Hids]. split.
  - intros k node' Hk.
    destruct (Hsub _ _ Hk) as (node & Hnode & _ & Hpid & _ & Hch).
    destruct (Hnodes _ _ Hnode) as [Hc Hp]. split.
    + intros c Hin. by apply Hc, Hch.
    + intros p. rewrite Hpid. apply Hp.
  - intros r [Hr|Hr]%Hroots; [by apply Hids|by apply Hkeys].
Qed.

Lemma proper_links_createNode st uuid now r c pid :
  fresh st uuid → (uuid ∉ Object_prototype) → pid ≠ Some uuid →
  returns (createNode uuid now r c pid st).1 →
  proper_keys (nodes st) → proper_links st →
  proper_links (createNode uuid now r c pid st).2.
Proof.
  intros Hfresh Hproper Hpid Hreturns Hkeys [Hnodes Hids].
  destruct (createNode_nodes uuid now r c pid st Hfresh Hpid)
    as ((new & Hnew & _ & _ & _ & Hnewpid & Hnewch & _) & _ & Hold & _).
  split.
  - intros k node' Hk. destruct (decide (k = uuid)) as [->|Hku].
    + assert (node' = new) as -> by congruence. split.
      * intros c'. rewrite Hnewch. by intros ?%elem_of_nil.
      * intros p Hp. rewrite Hnewpid in Hp.
        destruct (nodes st !! p) as [parent|] eqn:Hparent.
        -- apply Hkeys. by rewrite Hparent.
        -- by apply (createNode_returns uuid now r c st pid Hpid).
    + destruct (Hold _ _ Hk Hku) as (node & Hnode & _ & Hsame & _ & Hch).
      destruct (Hnodes _ _ Hnode) as [Hc Hp]. split.
      * intros c' [Hin|[-> _]]%Hch; [by apply Hc|done].
      * intros p. rewrite Hsame. apply Hp.
  - intros x. rewrite createNode_rootIds.
    destruct (truthy pid); [apply Hids|].
    intros [Hin| ->%list_elem_of_singleton]%elem_of_app; [by apply Hids|done].
Qed.

Lemma built_proper_links st : built st → proper_links st.
Proof.
  induction 1 as [|st uuid now r c pid Hbuilt IH Hfresh Hproper Hpid Hreturns
                  |st r ending st' Hbuilt IH Hprune
                  |st n st' Hbuilt IH Hdel
                  |st targetId res st' Hbuilt IH Hdel].
  - split; [by intros k node|]. by intros r ?%elem_of_nil.
  - apply proper_links_createNode; try done. by apply built_proper_keys.
  - apply (proper_links_restricts st);
      [by eapply pruneToRoot_restricts| |by apply built_proper_keys|done].
    intros x Hx.
    destruct (pruneToRoot_inv _ _ _ _ Hprune)
      as [[_ ->]|(Hr & _ & R & Hids & _)]; [by left|].
    rewrite Hids in Hx. apply list_elem_of_singleton in Hx as ->. by right.
  - apply (proper_links_restricts st);
      [by eapply deleteSubtree_restricts| |by apply built_proper_keys|done].
    intros x Hx. left.
    destruct (deleteSubtree_spec n st) as (st1 & Hdel' & Hids & _).
    rewrite Hdel in Hdel'. injection Hdel' as <-. by rewrite <- Hids.
  - apply (proper_links_restricts st);
      [by eapply delete_messages_restricts| |by apply built_proper_keys|done].
    intros x Hx.
    apply delete_messages_inv in Hdel
      as [->|(pid & st2 & root & ending & Hsweep & Hprune)]; [by left|].
    destruct (deleteSubtree_spec targetId (detachChild targetId pid st))
      as (st2' & Hsweep' & Hids & _).
    rewrite Hsweep in Hsweep'. injection Hsweep' as <-.
    rewrite detachChild_rootIds in Hids.
    destruct (pruneToRoot_inv _ _ _ _ Hprune)
      as [[_ ->]|([n2 Hn2] & _ & R & Hids' & _)].
    + left. by rewrite <- Hids.
    + rewrite Hids' in Hx. apply list_elem_of_singleton in Hx as ->. right.
      destruct (detachChild_nodes targetId pid st) as [Hsub1 _].
      pose proof (deleteSubtree_restricts _ _ _ Hsweep) as Hsub2.
      destruct (restricts_trans _ _ _ Hsub1 Hsub2 _ _ Hn2) as (n0 & Hn0 & _).
      eauto.
Qed.

(** X21: on a forest the store can hold, no id the forest holds, be it a
    key, a root id, a child, a parent id or a cached root id, names a member
    of [Object.prototype]: looked up in the plain object, such an id gives
    the node stored under it, or nothing. *)
Theorem built_held_lookup st x :
  built st → held st x →
  (x ∉ Object_prototype) ∧
  property (nodes st) x = own <$> nodes st !! x.
Proof.
  intros Hbuilt Hheld.
  assert (x ∉ Object_prototype) as Hx.
  { destruct (built_invariants _ Hbuilt) as (_ & _ & Hrooted & Hkeys).
    destruct (built_proper_links _ Hbuilt) as [Hnodes Hids].
    destruct Hheld as [Hk|[Hr|(k & node & Hk & [Hc|[Hp|Hr]])]].
    - by apply Hkeys.
    - by apply Hids.
    - destruct (Hnodes _ _ Hk) as [Hchildren _]. by apply Hchildren.
    - destruct (decide (x = "")) as [->|Hne]; [apply empty_not_inherited|].
      destruct (Hnodes _ _ Hk) as [_ Hparent]. apply Hparent.
      rewrite Hp. by apply truthy_intro.
    - destruct (Hrooted _ _ Hk) as (r & Hr' & _ & Hout & _).
      assert (r = x) as -> by congruence.
      destruct (nodes st !! x) eqn:Hsome; [|by apply Hout].
      apply Hkeys. by rewrite Hsome. }
  split; [done|]. unfold property.
  destruct (nodes st !! x); [done|]. by rewrite decide_False.
Qed.

Lemma built_held_lookup_witness :
  let st0 := (createNode "a" "t0" user "Hello" None emptyForest).2 in
  let st := (createNode "b" "t1" assistant "Hi there" (Some "ghost") st0).2 in
  ("ghost" ∉ Object_prototype) ∧
  property (nodes st) "ghost" = own <$> nodes st !! "ghost".
Proof.
  intros st0 st. apply (built_held_lookup st "ghost").
  - created.
    created.
    apply built_empty.
  - right. right.
    exists "b", (mkNode "b" assistant "Hi there" (Some "ghost") [] "t1"
                       (Some "b")).
    split; [by vm_compute|]. right. by left.
Defined.
